(** * A shallow embedding of the particle filter of [pf.go]

    Package [particlefilter]: a Monte Carlo localisation filter over a
    population of particles (pose and importance weight).  The embedding
    keeps the program's data as the Go code has it:

    - [float64] is Rocq's primitive binary64 float, so every arithmetic
      step rounds exactly as the Go program does and concrete runs
      evaluate;
    - [int] is [Z] with the 64-bit wrap-around written out;
    - [[]*Particle] is a list of addresses into a store of particles, so
      in-place updates through the pointers and the identity of the
      elements are visible;
    - [math.Cos], [math.Sin], [math.Pow] and the random sources
      ([math/rand], gonum's [distuv.Normal]) are interfaces, since their
      code is not part of the package;
    - a Go run-time panic (index out of range, division by zero) is the
      outcome [Panic]; the only unbounded loop, the resampling wheel,
      runs on fuel and reports [OutOfFuel] when the fuel does not
      suffice. *)

From Stdlib Require Import ZArith Floats String Lia Bool.
From stdpp Require Import base option list gmap.

(** ** float64 and int *)

Module F64.
Local Open Scope float_scope.

(** [math.Pi] and [math.E] as float64 values; [2.0*math.Pi] is a
    constant expression, rounded once. *)
Definition Pi : float := 0x1.921fb54442d18p+1.
Definition E : float := 0x1.5bf0a8b145769p+1.
Definition TwoPi : float := 0x1.921fb54442d18p+2.

(** Go's [x > y] on float64. *)
Definition gt (x y : float) : bool := y <? x.

(** A float that is not NaN. *)
Definition ordered (x : float) : bool := x =? x.

(** A float that is a number: neither NaN nor an infinity. *)
Definition finite (x : float) : bool := abs x <? infinity.

(** A float that is not above zero: NaN, a zero or a negative
    number. *)
Definition SFnonpos (x : spec_float) : Prop :=
  SFltb (S754_zero false) x = false.

(** Two's complement wrap-around of a 64-bit [int]. *)
Definition wrap64 (z : Z) : Z := ((z + 2 ^ 63) mod 2 ^ 64 - 2 ^ 63)%Z.

(** [float64(n)] for an [int] n: the nearest float, ties to even. *)
Definition of_int (z : Z) : float :=
  SF2Prim (binary_normalize prec emax z 0%Z false).

(** [int(f)] for a float64 f: truncation toward zero.  The Go
    specification leaves NaN and out-of-range values to the
    implementation; the value here is the one of amd64 (the integer
    indefinite, [-2^63]). *)
Definition to_int (f : float) : Z :=
  match Prim2SF f with
  | S754_zero _ => 0%Z
  | S754_finite s m e =>
      let a := (if (0 <=? e)%Z then Z.pos m * 2 ^ e
                else Z.pos m / 2 ^ (- e))%Z in
      let v := (if s then - a else a)%Z in
      if ((- 2 ^ 63 <=? v) && (v <? 2 ^ 63))%Z then v else (- 2 ^ 63)%Z
  | _ => (- 2 ^ 63)%Z
  end.
End F64.

(** ** The values of float64 numbers

    Every float64 that is a number (a zero or a finite float) is a
    multiple of [2^-1074]; its value is kept as that multiple, an
    integer, which is exact and needs no real numbers. *)

(** The weight of the exponent [e], in units of [2^-1074]. *)
Definition U (e : Z) : Z := (2 ^ (e + 1074))%Z.

(** A float that is a number. *)
Definition SFnum (x : spec_float) : Prop :=
  match x with
  | S754_zero _ | S754_finite _ _ _ => True
  | _ => False
  end.

(** The value of a number, in units of [2^-1074]. *)
Definition SFval (x : spec_float) : Z :=
  match x with
  | S754_finite s m e => cond_Zopp s (Z.pos m * U e)
  | _ => 0%Z
  end.

Definition num (x : float) : Prop := SFnum (Prim2SF x).

Definition val (x : float) : Z := SFval (Prim2SF x).

(** ** The interfaces of the libraries the package calls *)

(** Package [math]: [Sqrt] is the IEEE square root, which the primitive
    floats have; the others are taken as given. *)
Class MathLib := {
  Cos : float -> float;
  Sin : float -> float;
  Pow : float -> float -> float
}.

(** gonum's [distuv.Normal], of which the filter sets [Mu] and [Sigma]. *)
Record Normal := mkNormal { Mu : float; Sigma : float }.

(** The random sources, over a state [G] of the generators:
    [rand.Float64()], [rand.Intn(n)] for [n > 0] and [Normal.Rand()]. *)
Class RandSource (G : Type) := {
  Float64 : G -> float * G;
  Intn : Z -> G -> Z * G;
  NormalRand : Normal -> G -> float * G
}.

(** What [math/rand] documents of its draws: [Float64] is in [[0,1)],
    [Intn n] in [[0,n)]. *)
Class RandLaws (G : Type) `{RandSource G} := {
  Float64_range : forall g,
    (0 <=? fst (Float64 g))%float = true /\
    (fst (Float64 g) <? 1)%float = true;
  Intn_range : forall n g, (0 < n)%Z -> (0 <= fst (Intn n g) < n)%Z
}.

(** ** Particles *)

Module Particle.
Local Open Scope float_scope.

Record t := mk { X : float; Y : float; Heading : float; Weight : float }.

Definition UpdateWeight (weight : float) (p : t) : t :=
  {| X := X p; Y := Y p; Heading := Heading p; Weight := weight |}.

(** The heading is wrapped once: one fold of [2π] up when negative,
    one down when above [2π]. *)
Definition wrapHeading (h : float) : float :=
  if h <? 0 then h + F64.TwoPi
  else if F64.gt h F64.TwoPi then h - F64.TwoPi
  else h.

Definition Move `{MathLib} (dist ang : float) (p : t) : t :=
  let h := wrapHeading (Heading p + ang) in
  {| X := X p + dist * Cos h;
     Y := Y p + dist * Sin h;
     Heading := h;
     Weight := Weight p |}.
End Particle.

(** The measurement model: the filter calls [CalculateWeight] with a copy
    of the particle and nothing else. *)
Class Reading (R : Type) := {
  CalculateWeight : R -> Particle.t -> float;
  Unmarshal : R -> list Byte.byte -> R
}.

(** ** Outcomes, the store and the monad of the filter's methods *)

Inductive Res (A : Type) : Type :=
  | Ok (a : A)
  | Panic (msg : string)
  | OutOfFuel.
Arguments Ok {A} a.
Arguments Panic {A} msg.
Arguments OutOfFuel {A}.

(** Addresses of particles. *)
Abbreviation loc := nat (only parsing).

Record World (G : Type) := mkWorld {
  heap : gmap nat Particle.t;
  src : G
}.
Arguments mkWorld {G} heap src.
Arguments heap {G} w.
Arguments src {G} w.

Definition M (G A : Type) : Type := World G -> Res (A * World G).

Definition ret {G A} (a : A) : M G A := fun w => Ok (a, w).

Definition bind {G A B} (c : M G A) (k : A -> M G B) : M G B :=
  fun w => match c w with
           | Ok (a, w') => k a w'
           | Panic msg => Panic msg
           | OutOfFuel => OutOfFuel
           end.

Definition panic {G A} (msg : string) : M G A := fun _ => Panic msg.
Definition outOfFuel {G A} : M G A := fun _ => OutOfFuel.

Declare Scope go_scope.
Delimit Scope go_scope with go.
Notation "'do' x <- c ; k" := (bind c (fun x => k))
  (at level 10, x pattern, c at level 100, k at level 200) : go_scope.
Notation "c ;; k" := (bind c (fun _ => k))
  (at level 100, k at level 200, right associativity) : go_scope.

Section Machine.
Context {G : Type}.
Local Open Scope go_scope.

(** [*p] for a pointer into the store. *)
Definition load (l : loc) : M G Particle.t := fun w =>
  match heap w !! l with
  | Some p => Ok (p, w)
  | None => Panic "invalid memory address or nil pointer dereference"
  end.

(** [*p = v]. *)
Definition store (l : loc) (v : Particle.t) : M G unit := fun w =>
  match heap w !! l with
  | Some _ => Ok (tt, mkWorld (<[l := v]> (heap w)) (src w))
  | None => Panic "invalid memory address or nil pointer dereference"
  end.

(** [&p] for a fresh local [p], and [&Particle{...}]: a new cell. *)
Definition alloc (v : Particle.t) : M G loc := fun w =>
  let l := fresh (dom (heap w)) in
  Ok (l, mkWorld (<[l := v]> (heap w)) (src w)).

(** [s[i]], which panics out of range. *)
Definition index (s : list loc) (i : Z) : M G loc :=
  if (i <? 0)%Z then panic "index out of range"
  else match s !! Z.to_nat i with
       | Some l => ret l
       | None => panic "index out of range"
       end.

(** One draw from a random source. *)
Definition draw {A} (f : G -> A * G) : M G A := fun w =>
  let '(a, g) := f (src w) in Ok (a, mkWorld (heap w) g).

(** [for i := 0; i < n; i++ { body }], with [n] iterations left and
    the loop variable at [i]. *)
Fixpoint forRange {T} (n : nat) (i : Z) (body : Z -> T -> M G T) (s : T)
  : M G T :=
  match n with
  | O => ret s
  | S n' => do s' <- body i s; forRange n' (i + 1)%Z body s'
  end.
End Machine.

(** ** The filter *)

Module ParticleFilter.
Local Open Scope float_scope.
Local Open Scope go_scope.

Record t := mk {
  numSamples : Z;
  percentResample : float;
  listParticles : list loc;
  xMin : float;
  xMax : float;
  yMin : float;
  yMax : float;
  EstimatedX : float;
  EstimatedY : float;
  EstimatedHeading : float;
  maxWeight : float;
  sumWeight : float;
  iteration : Z;
  locDistribution : Normal;
  angDistribution : Normal;
  distDistribution : Normal
}.

(** Assignments to single fields. *)
Definition set_listParticles (v : list loc) (pf : t) : t :=
  mk (numSamples pf) (percentResample pf) v (xMin pf) (xMax pf) (yMin pf)
     (yMax pf) (EstimatedX pf) (EstimatedY pf) (EstimatedHeading pf)
     (maxWeight pf) (sumWeight pf) (iteration pf) (locDistribution pf)
     (angDistribution pf) (distDistribution pf).

Definition set_Estimated (x y h : float) (pf : t) : t :=
  mk (numSamples pf) (percentResample pf) (listParticles pf) (xMin pf)
     (xMax pf) (yMin pf) (yMax pf) x y h
     (maxWeight pf) (sumWeight pf) (iteration pf) (locDistribution pf)
     (angDistribution pf) (distDistribution pf).

Definition set_maxWeight (v : float) (pf : t) : t :=
  mk (numSamples pf) (percentResample pf) (listParticles pf) (xMin pf)
     (xMax pf) (yMin pf) (yMax pf) (EstimatedX pf) (EstimatedY pf)
     (EstimatedHeading pf) v (sumWeight pf) (iteration pf)
     (locDistribution pf) (angDistribution pf) (distDistribution pf).

Definition set_sumWeight (v : float) (pf : t) : t :=
  mk (numSamples pf) (percentResample pf) (listParticles pf) (xMin pf)
     (xMax pf) (yMin pf) (yMax pf) (EstimatedX pf) (EstimatedY pf)
     (EstimatedHeading pf) (maxWeight pf) v (iteration pf)
     (locDistribution pf) (angDistribution pf) (distDistribution pf).

Definition set_iteration (v : Z) (pf : t) : t :=
  mk (numSamples pf) (percentResample pf) (listParticles pf) (xMin pf)
     (xMax pf) (yMin pf) (yMax pf) (EstimatedX pf) (EstimatedY pf)
     (EstimatedHeading pf) (maxWeight pf) (sumWeight pf) v
     (locDistribution pf) (angDistribution pf) (distDistribution pf).

(** The running sums of the resampling step and the new population. *)
Record Acc := mkAcc {
  xLoc : float;
  yLoc : float;
  heading : float;
  newParticleList : list loc
}.

Definition checkAndSetMaxWeight (weight : float) (override : bool) (pf : t)
  : t :=
  let pf1 := if F64.gt weight (maxWeight pf)
             then set_maxWeight weight pf else pf in
  if override then set_maxWeight weight pf1 else pf1.

Section Methods.
Context `{MathLib} {G : Type} `{RandSource G}.

(** [rand.Intn(n)] panics unless [n > 0]. *)
Definition randIntn (n : Z) : M G Z :=
  if (n <=? 0)%Z then panic "invalid argument to Intn"
  else draw (Intn n).

Definition createParticle (pf : t) : M G Particle.t :=
  let xRange := xMax pf - xMax pf in
  let yRange := yMax pf - yMin pf in
  do u <- draw Float64;
  let x := xMin pf + (xRange * u) in
  do v <- draw Float64;
  let y := yMin pf + (yRange * v) in
  do r <- draw Float64;
  let heading := r * 2 * F64.Pi in
  ret {| Particle.X := x; Particle.Y := y;
         Particle.Weight := 0; Particle.Heading := heading |}.

(** [list = append(list, &p)] for a new particle [p]. *)
Definition appendNew (pf : t) (ps : list loc) : M G (list loc) :=
  do p <- createParticle pf;
  do l <- alloc p;
  ret (ps ++ [l]).

Definition createSampleList (pf : t) : M G t :=
  forRange (Z.to_nat (numSamples pf)) 0
    (fun _ pf' =>
       do ps <- appendNew pf' (listParticles pf');
       ret (set_listParticles ps pf'))
    pf.

(** The bounds [xMin], [xMax], [yMin], [yMax] are parameters of
    [CreatePF], and the composite literal does not mention them: the
    fields keep their zero value. *)
Definition CreatePF (numSamps : Z)
    (percResamp xMin xMax yMin yMax locError distError angError : float)
  : M G t :=
  let pf :=
    {| numSamples := numSamps;
       percentResample := percResamp;
       listParticles := [];
       xMin := 0; xMax := 0; yMin := 0; yMax := 0;
       EstimatedX := 0; EstimatedY := 0; EstimatedHeading := 0;
       maxWeight := 0;
       sumWeight := 0;
       iteration := 0;
       locDistribution := {| Mu := 0; Sigma := locError |};
       angDistribution := {| Mu := 0; Sigma := angError |};
       distDistribution := {| Mu := 0; Sigma := distError |} |} in
  createSampleList pf.

(** The body of the loop of [CalculateWeights], at index [i]. *)
Definition weigh {R} `{Reading R} (r : R) (i : Z) (pf : t) : M G t :=
  do l <- index (listParticles pf) i;
  do p <- load l;
  let newWeight := CalculateWeight r p in
  let pf1 := checkAndSetMaxWeight newWeight false pf in
  store l (Particle.UpdateWeight newWeight p);;
  ret (set_sumWeight (sumWeight pf1 + newWeight) pf1).

Definition CalculateWeights {R} `{Reading R} (r : R) (pf : t) : M G t :=
  let pf1 := checkAndSetMaxWeight 0 true pf in
  let pf2 := set_sumWeight 0 pf1 in
  forRange (length (listParticles pf2)) 0 (weigh r) pf2.

(** The first loop of [ResampleAndFuzz]: every weight is divided by
    [sumWeight], in place. *)
Definition normalize (pf : t) (i : Z) (_ : unit) : M G unit :=
  do l <- index (listParticles pf) i;
  do p <- load l;
  store l (Particle.UpdateWeight (Particle.Weight p / sumWeight pf) p).

(** A selected particle is copied with noise on its pose; the copy
    is a new cell, appended to the new population and added to the
    running sums. *)
Definition fuzz (pf : t) (p : Particle.t) (a : Acc) : M G Acc :=
  do n1 <- draw (NormalRand (locDistribution pf));
  let newX := Particle.X p + n1 in
  do n2 <- draw (NormalRand (locDistribution pf));
  let newY := Particle.Y p + n2 in
  do n3 <- draw (NormalRand (angDistribution pf));
  let newHeading := Particle.wrapHeading (Particle.Heading p + n3) in
  do newP <- alloc {| Particle.X := newX; Particle.Y := newY;
                      Particle.Heading := newHeading;
                      Particle.Weight := 0 |};
  ret {| xLoc := xLoc a + newX;
         yLoc := yLoc a + newY;
         heading := heading a + newHeading;
         newParticleList := newParticleList a ++ [newP] |}.

(** [for beta > 0 { ... }]: the walk around the wheel.  The test of
    the loop comes before the fuel, so a walk that ends needs no
    more fuel than it has steps. *)
Fixpoint wheelWalk (fuel : nat) (pf : t) (beta : float) (startIdx : Z)
    (a : Acc) : M G Acc :=
  if F64.gt beta 0 then
    match fuel with
    | O => outOfFuel
    | S fuel' =>
        do l <- index (listParticles pf) startIdx;
        do p <- load l;
        do a' <- (if F64.gt (Particle.Weight p) beta
                  then fuzz pf p a else ret a);
        let beta' := beta - Particle.Weight p in
        if (numSamples pf =? 0)%Z
        then panic "integer divide by zero"
        else wheelWalk fuel' pf beta'
               (Z.rem (F64.wrap64 (startIdx + 1)) (numSamples pf)) a'
    end
  else ret a.

(** One turn of the outer loop: the draws of [beta] and of the start
    index, then the walk. *)
Definition spin (fuel : nat) (numIntResample : Z) (pf : t) (_ : Z)
    (a : Acc) : M G Acc :=
  do u <- draw Float64;
  let beta := u * maxWeight pf * 2 in
  do startIdx <- randIntn numIntResample;
  wheelWalk fuel pf beta startIdx a.

(** [fuel] bounds the steps of each walk of the wheel. *)
Definition ResampleAndFuzz (fuel : nat) (pf0 : t) : M G t :=
  let pf := set_iteration (F64.wrap64 (iteration pf0 + 1)) pf0 in
  let numResample := F64.of_int (numSamples pf) * percentResample pf in
  let numIntResample := F64.to_int numResample in
  let numSpoof := F64.wrap64 (numSamples pf - numIntResample) in
  forRange (Z.to_nat (numSamples pf)) 0 (normalize pf) tt;;
  do a <- forRange (Z.to_nat numIntResample) 0
            (spin fuel numIntResample pf)
            {| xLoc := 0; yLoc := 0; heading := 0;
               newParticleList := [] |};
  let xLoc' := xLoc a / F64.of_int numIntResample in
  let yLoc' := yLoc a / F64.of_int numIntResample in
  let heading' := heading a / F64.of_int numIntResample in
  let pf1 := set_Estimated xLoc' yLoc' heading' pf in
  do ps <- forRange (Z.to_nat numSpoof) 0
             (fun _ ps => appendNew pf1 ps) (newParticleList a);
  ret (set_listParticles ps pf1).

(** The running sums of [Move]. *)
Record Sums := mkSums { sumHeading : float; sumX : float; sumY : float }.

Definition moveOne (dist ang : float) (pf : t) (i : Z) (s : Sums)
  : M G Sums :=
  do l <- index (listParticles pf) i;
  do p <- load l;
  do n1 <- draw (NormalRand (distDistribution pf));
  do n2 <- draw (NormalRand (angDistribution pf));
  let p' := Particle.Move (dist + n1) (ang + n2) p in
  store l p';;
  ret {| sumHeading := sumHeading s + Particle.Heading p';
         sumX := sumX s + Particle.X p';
         sumY := sumY s + Particle.Y p' |}.

(** The motion update of the filter, [MoveParticles] for its
    callers. *)
Definition Move (dist ang : float) (pf : t) : M G t :=
  do s <- forRange (Z.to_nat (numSamples pf)) 0 (moveOne dist ang pf)
            {| sumHeading := 0; sumX := 0; sumY := 0 |};
  let d := F64.of_int (numSamples pf) * percentResample pf in
  ret (set_Estimated (sumX s / d) (sumY s / d) (sumHeading s / d) pf).

Definition GetPosition (pf : t) : float * float :=
  (EstimatedX pf, EstimatedY pf).

Definition GetHeading (pf : t) : float := EstimatedHeading pf.

Definition Update {R} `{Reading R} (fuel : nat) (r : R) (pf : t)
  : M G t :=
  do pf1 <- CalculateWeights r pf;
  ResampleAndFuzz fuel pf1.
End Methods.
End ParticleFilter.

(** The weight kernel: the density of the normal distribution. *)
Definition CalculateNormDist `{MathLib} (x mu sigma : float) : float :=
  let xMuExponent := Pow ((x - mu) / sigma) 2 in
  let eulerExponent := Pow F64.E (-0.5 * xMuExponent) in
  ((1 / (sigma * sqrt F64.TwoPi)) * eulerExponent)%float.

(** ** The example program

    [SimpleReading], the measurement model of the program that drives
    the filter in the examples: a position fix, weighed by the kernel at
    the distance between the fix and the particle, with the sigma [.1]. *)
Module SimpleReading.
Local Open Scope float_scope.

Record t := mk { X : float; Y : float }.

Definition CalculateWeight `{MathLib} (s : t) (p : Particle.t) : float :=
  let dist :=
    sqrt (Pow (X s - Particle.X p) 2 + Pow (Y s - Particle.Y p) 2) in
  CalculateNormDist dist 0 0x1.999999999999ap-4.

(** The type of the examples has the method [CalculateWeight] only;
    [Unmarshal], which the filter never calls, leaves the reading as it
    is. *)
#[global] Instance reading `{MathLib} : Reading t :=
  Build_Reading t CalculateWeight (fun r _ => r).
End SimpleReading.

(** ** Instances to run the filter on *)

(** Package [math] on the arguments for which its documentation gives
    the value ([Cos 0], [Sin ±0] and the special cases of [Pow] that the
    weight kernel meets); NaN at every other argument, so that a run that
    leaves the table shows it in its result. *)
Module TableMath.
Local Open Scope float_scope.

Definition cos (x : float) : float := if x =? 0 then 1 else nan.

Definition sin (x : float) : float := if x =? 0 then x else nan.

(** [Pow(x, ±0) = 1], [Pow(1, y) = 1], [Pow(x, 1) = x],
    [Pow(±0, 2) = +0], [Pow(±Inf, 2) = +Inf], and for [|x| > 1]
    [Pow(x, -Inf) = +0] and [Pow(x, +Inf) = +Inf]. *)
Definition pow (x y : float) : float :=
  if y =? 0 then 1
  else if x =? 1 then 1
  else if y =? 1 then x
  else if negb (F64.ordered x) || negb (F64.ordered y) then nan
  else if (x =? 0) && (y =? 2) then 0
  else if (abs x =? infinity) && (y =? 2) then infinity
  else if (1 <? abs x) && (y =? neg_infinity) then 0
  else if (1 <? abs x) && (y =? infinity) then infinity
  else nan.

#[global] Instance math : MathLib := {| Cos := cos; Sin := sin; Pow := pow |}.
End TableMath.

(** A random source that replays given draws: a tape of uniform draws,
    one of integers and one of standard normal draws.  A uniform draw
    outside [[0,1)] is replaced by 0 and an integer is reduced into
    [[0,n)], as [math/rand] promises; an exhausted tape gives zeros.
    [Normal.Rand] is gonum's: the standard draw scaled by [Sigma] and
    moved by [Mu]. *)
Module Tape.
Local Open Scope float_scope.

Record t := mk {
  uniforms : list float;
  ints : list Z;
  normals : list float
}.

Definition clamp (u : float) : float :=
  if (0 <=? u) && (u <? 1) then u else 0.

Definition float64 (g : t) : float * t :=
  match uniforms g with
  | [] => (0, g)
  | u :: us => (clamp u, mk us (ints g) (normals g))
  end.

Definition intn (n : Z) (g : t) : Z * t :=
  match ints g with
  | [] => (0%Z, g)
  | z :: zs => ((z mod n)%Z, mk (uniforms g) zs (normals g))
  end.

Definition normalRand (d : Normal) (g : t) : float * t :=
  match normals g with
  | [] => (0 * Sigma d + Mu d, g)
  | z :: zs => (z * Sigma d + Mu d, mk (uniforms g) (ints g) zs)
  end.

#[global] Instance source : RandSource t :=
  {| Float64 := float64; Intn := intn; NormalRand := normalRand |}.

(** The source that draws zero for ever. *)
Definition zeros : t := mk [] [] [].
End Tape.

(** A source without spread: every normal draw is the mean of its
    distribution, every other draw is 0. *)
Module Still.
#[global] Instance source : RandSource unit :=
  {| Float64 := fun g => (0%float, g);
     Intn := fun _ g => (0%Z, g);
     NormalRand := fun d g => (Mu d, g) |}.
End Still.

(** A measurement that finds every particle implausible. *)
Module ZeroReading.
Record t := mk { }.

#[global] Instance reading : Reading t :=
  {| CalculateWeight := fun _ _ => 0%float; Unmarshal := fun r _ => r |}.
End ZeroReading.

(** A measurement with a constant likelihood. *)
Module ConstReading.
Record t := mk { likelihood : float }.

#[global] Instance reading : Reading t :=
  {| CalculateWeight := fun r _ => likelihood r; Unmarshal := fun r _ => r |}.
End ConstReading.

(** ** The notions of the specification *)

Module Spec.
Local Open Scope float_scope.


(** A heading in the closed interval [[0, 2π]]. *)
Definition in_closed_circle (h : float) : bool :=
  (0 <=? h) && (h <=? F64.TwoPi).

(** The sum of a list of floats, added from the left starting at 0, as
    the loops of the filter add. *)
Definition sum (xs : list float) : float := fold_left PrimFloat.add xs 0.

(** The arithmetic mean. *)
Definition mean (xs : list float) : float :=
  sum xs / F64.of_int (Z.of_nat (length xs)).

(** The largest weight met so far, as [checkAndSetMaxWeight] keeps it:
    a weight replaces [m] when it is greater. *)
Definition running_max (ws : list float) (m : float) : float :=
  fold_left (fun m w => if F64.gt w m then w else m) ws m.

(** [m] is the maximum of the weights [ws]: no weight is above it and
    one of them equals it; of no weights at all it is the value that the
    pass starts from, 0. *)
Definition is_maximum (m : float) (ws : list float) : Prop :=
  (forall w, w ∈ ws -> (w <=? m) = true)
  /\ match ws with
     | [] => m = 0
     | _ => exists w, w ∈ ws /\ (w =? m) = true
     end.
End Spec.

(** ** States of the filter *)

Module Inv.

(** Every pointer of the population points into the store. *)
Definition allocated {G} (pf : ParticleFilter.t) (w : World G) : Prop :=
  forall l, l ∈ ParticleFilter.listParticles pf -> is_Some (heap w !! l).

(** The population of a filter built by [CreatePF] and kept by complete
    resamplings: [numSamples] distinct particles. *)
Definition populated {G} (pf : ParticleFilter.t) (w : World G) : Prop :=
  length (ParticleFilter.listParticles pf)
    = Z.to_nat (ParticleFilter.numSamples pf)
  /\ NoDup (ParticleFilter.listParticles pf)
  /\ allocated pf w.

(** Two particles with the same pose. *)
Definition same_pose (p p' : Particle.t) : Prop :=
  Particle.X p' = Particle.X p
  /\ Particle.Y p' = Particle.Y p
  /\ Particle.Heading p' = Particle.Heading p.

(** Two filters that differ at most in [maxWeight] and [sumWeight]. *)
Definition same_but_aggregates (pf pf' : ParticleFilter.t) : Prop :=
  ParticleFilter.numSamples pf' = ParticleFilter.numSamples pf
  /\ ParticleFilter.percentResample pf' = ParticleFilter.percentResample pf
  /\ ParticleFilter.listParticles pf' = ParticleFilter.listParticles pf
  /\ ParticleFilter.xMin pf' = ParticleFilter.xMin pf
  /\ ParticleFilter.xMax pf' = ParticleFilter.xMax pf
  /\ ParticleFilter.yMin pf' = ParticleFilter.yMin pf
  /\ ParticleFilter.yMax pf' = ParticleFilter.yMax pf
  /\ ParticleFilter.EstimatedX pf' = ParticleFilter.EstimatedX pf
  /\ ParticleFilter.EstimatedY pf' = ParticleFilter.EstimatedY pf
  /\ ParticleFilter.EstimatedHeading pf'
     = ParticleFilter.EstimatedHeading pf
  /\ ParticleFilter.iteration pf' = ParticleFilter.iteration pf
  /\ ParticleFilter.locDistribution pf' = ParticleFilter.locDistribution pf
  /\ ParticleFilter.angDistribution pf' = ParticleFilter.angDistribution pf
  /\ ParticleFilter.distDistribution pf'
     = ParticleFilter.distDistribution pf.

(** The likelihoods that a reading gives to the particles behind the
    pointers [ls], in the order of [ls]. *)
Definition likelihoods {G R} `{Reading R} (r : R) (ls : list loc)
    (w : World G) : list float :=
  (fun l => match heap w !! l with
            | Some p => CalculateWeight r p
            | None => nan
            end) <$> ls.

(** One component of the particles behind the pointers [ls], in the
    order of [ls]. *)
Definition column {G} (f : Particle.t -> float) (ls : list loc)
    (w : World G) : list float :=
  (fun l => match heap w !! l with
            | Some p => f p
            | None => nan
            end) <$> ls.

(** A reading that looks at the pose of a particle only: two particles
    with the same pose get the same likelihood, whatever their
    weights. *)
Definition pose_only {R} `{Reading R} (r : R) : Prop :=
  forall p p', same_pose p p' -> CalculateWeight r p' = CalculateWeight r p.

(** [q] is a copy of [p] as the resampling makes it: the pose of [p]
    with one draw of noise on each component, from the distributions of
    the filter, the heading wrapped once, and the weight 0. *)
Definition fuzzed {G} `{RandSource G} (pf : ParticleFilter.t)
    (p q : Particle.t) : Prop :=
  exists g1 g2 g3 : G,
    q = Particle.mk
          (Particle.X p
           + fst (NormalRand (ParticleFilter.locDistribution pf) g1))
          (Particle.Y p
           + fst (NormalRand (ParticleFilter.locDistribution pf) g2))
          (Particle.wrapHeading
             (Particle.Heading p
              + fst (NormalRand (ParticleFilter.angDistribution pf) g3)))
          0.

(** [q] is the copy of a particle of the population of [pf], as it is
    in the store [w], whose weight is positive. *)
Definition selected {G} `{RandSource G} (pf : ParticleFilter.t)
    (w : World G) (q : Particle.t) : Prop :=
  exists l p,
    l ∈ ParticleFilter.listParticles pf
    /\ heap w !! l = Some p
    /\ F64.gt (Particle.Weight p) 0 = true
    /\ fuzzed pf p q.

(** What a walk of the wheel that has returned can have done: nothing,
    or it has selected one particle of positive weight and put its copy
    into a new cell, at the end of the new population and into the
    running sums. *)
Definition walked {G} `{RandSource G} (pf : ParticleFilter.t)
    (a : ParticleFilter.Acc) (w : World G)
    (a' : ParticleFilter.Acc) (w' : World G) : Prop :=
  (a' = a /\ heap w' = heap w)
  \/ exists q,
       selected pf w q
       /\ heap w' = <[fresh (dom (heap w)) := q]> (heap w)
       /\ a' = ParticleFilter.mkAcc
                 (ParticleFilter.xLoc a + Particle.X q)
                 (ParticleFilter.yLoc a + Particle.Y q)
                 (ParticleFilter.heading a + Particle.Heading q)
                 (ParticleFilter.newParticleList a
                  ++ [fresh (dom (heap w))]).

(** Every particle of the population has a weight that [beta] absorbs:
    the weight is not above [beta], and [beta] less the weight is [beta]
    again. *)
Definition absorbed {G} (pf : ParticleFilter.t) (w : World G)
    (beta : float) : Prop :=
  forall l, l ∈ ParticleFilter.listParticles pf ->
    exists p, heap w !! l = Some p
              /\ F64.gt (Particle.Weight p) beta = false
              /\ (beta - Particle.Weight p)%float = beta.

End Inv.

(** ** Concrete runs

    The states and calls that the statements below evaluate. *)
Module Runs.
Local Open Scope float_scope.
Local Open Scope go_scope.

(** What a run leaves: the filter and the particles of its
    population, read through the pointers. *)
Definition population {G} (pf : ParticleFilter.t) (w : World G)
  : list (option Particle.t) :=
  map (fun l => heap w !! l) (ParticleFilter.listParticles pf).

(** An empty store and a source that replays [us] as uniform draws. *)
Definition fresh_world (us : list float) : World Tape.t :=
  mkWorld ∅ (Tape.mk us [] []).

(** A filter over the domain [0,10] x [0,10] as [CreatePF] would build
    it if it stored the bounds. *)
Definition bounded_filter : ParticleFilter.t :=
  ParticleFilter.mk 1 1 [] 0 10 0 10 0 0 0 0 0 0
    (mkNormal 0 0.125) (mkNormal 0 0.125) (mkNormal 0 0.125).

(** Construction, one weighting pass with a reading that gives every
    particle the likelihood [lik], and one resampling. *)
Definition cycle (numSamps : Z) (lik : float) (fuel : nat)
  : M Tape.t ParticleFilter.t :=
  do pf <- ParticleFilter.CreatePF numSamps 1 0 10 0 10 0.125 0.125 0.125;
  do pf1 <- ParticleFilter.CalculateWeights (ConstReading.mk lik) pf;
  ParticleFilter.ResampleAndFuzz fuel pf1.

(** The same with the reading that finds every particle implausible. *)
Definition degenerate_cycle (numSamps : Z) (fuel : nat)
  : M Tape.t ParticleFilter.t :=
  do pf <- ParticleFilter.CreatePF numSamps 1 0 10 0 10 0.125 0.125 0.125;
  ParticleFilter.Update fuel ZeroReading.mk pf.

(** Two particles at x = 1 and x = 3, heading 0, in a filter that
    resamples half of its population. *)
Definition half_filter : ParticleFilter.t :=
  ParticleFilter.mk 2 0.5 [0%nat; 1%nat] 0 10 0 10 0 0 0 0 0 1
    (mkNormal 0 0.125) (mkNormal 0 0.125) (mkNormal 0 0.125).

Definition half_world : World Tape.t :=
  mkWorld (<[0%nat := Particle.mk 1 2 0 0]>
             (<[1%nat := Particle.mk 3 4 0 0]> ∅)) Tape.zeros.
(** A filter of two whose likelihoods, [2^1023] each, add up to
    infinity: the source before construction (the seventh uniform draw,
    0.5, is the one of [beta]), the filter and the store after the
    weighting pass, and the store after the weights were divided by
    [sumWeight]. *)
Definition overflow_world : World Tape.t :=
  fresh_world [0; 0; 0; 0; 0; 0; 0.5].

Definition overflow_filter : ParticleFilter.t :=
  ParticleFilter.mk 2 1 [0%nat; 1%nat] 0 0 0 0 0 0 0 0x1p1023 infinity 0
    (mkNormal 0 0.125) (mkNormal 0 0.125) (mkNormal 0 0.125).

Definition overflow_weighted : World Tape.t :=
  mkWorld (<[0%nat := Particle.mk 0 0 0 0x1p1023]>
             (<[1%nat := Particle.mk 0 0 0 0x1p1023]> ∅))
          (Tape.mk [0.5] [] []).

Definition overflow_normalized : World Tape.t :=
  mkWorld (<[0%nat := Particle.mk 0 0 0 0]>
             (<[1%nat := Particle.mk 0 0 0 0]> ∅))
          (Tape.mk [0.5] [] []).

(** A filter of two after a weighting pass that gave both particles the
    likelihood 1, with a source that makes the first turn of the wheel
    select the first particle and the second turn the second; and what
    [ResampleAndFuzz] makes of it: the old particles with their weights
    divided by [sumWeight], and their two copies as the new
    population. *)
Definition weighted_filter : ParticleFilter.t :=
  ParticleFilter.mk 2 1 [0%nat; 1%nat] 0 10 0 10 0 0 0 1 2 0
    (mkNormal 0 0.125) (mkNormal 0 0.125) (mkNormal 0 0.125).

Definition weighted_world : World Tape.t :=
  mkWorld (<[0%nat := Particle.mk 1 2 0 1]>
             (<[1%nat := Particle.mk 3 4 0 1]> ∅))
          (Tape.mk [0.125; 0.125] [0%Z; 1%Z] []).

Definition resampled_filter : ParticleFilter.t :=
  ParticleFilter.mk 2 1 [2%nat; 3%nat] 0 10 0 10 2 3 0 1 2 1
    (mkNormal 0 0.125) (mkNormal 0 0.125) (mkNormal 0 0.125).

Definition resampled_world : World Tape.t :=
  mkWorld (<[0%nat := Particle.mk 1 2 0 0.5]>
             (<[1%nat := Particle.mk 3 4 0 0.5]>
                (<[2%nat := Particle.mk 1 2 0 0]>
                   (<[3%nat := Particle.mk 3 4 0 0]> ∅))))
          (Tape.mk [] [] []).
End Runs.

(** * Properties *)

(** ** Running the monad *)

Section MonadFacts.
Context {G : Type}.
Local Open Scope go_scope.

Lemma bind_ok {A B} (c : M G A) (k : A -> M G B) w a w' :
  c w = Ok (a, w') -> bind c k w = k a w'.
Proof. unfold bind. intros ->. reflexivity. Qed.

Lemma bind_inv {A B} (c : M G A) (k : A -> M G B) w r :
  bind c k w = Ok r ->
  exists a w', c w = Ok (a, w') /\ k a w' = Ok r.
Proof.
  unfold bind. destruct (c w) as [[a w']| |]; try discriminate.
  intros Hk. exists a, w'. split; [reflexivity|exact Hk].
Qed.

(** A loop whose body keeps an invariant and does not fail runs to its
    end and establishes the invariant there; the invariant may count
    the turns taken. *)
Lemma forRange_total {T} (I : nat -> T -> World G -> Prop)
    n i0 (body : Z -> T -> M G T) s w :
  I 0%nat s w ->
  (forall k s w, (k < n)%nat -> I k s w ->
     exists s' w', body (i0 + Z.of_nat k)%Z s w = Ok (s', w')
                   /\ I (S k) s' w') ->
  exists s' w', forRange n i0 body s w = Ok (s', w') /\ I n s' w'.
Proof.
  revert I i0 s w. induction n as [|n IH]; intros I i0 s w H0 Hstep.
  - exists s, w. split; [reflexivity|exact H0].
  - destruct (Hstep 0%nat s w ltac:(lia) H0) as (s1 & w1 & Hb & H1).
    rewrite Z.add_0_r in Hb.
    destruct (IH (fun k => I (S k)) (i0 + 1)%Z s1 w1 H1) as (s2 & w2 & Hr & H2).
    + intros k s' w' Hk HI.
      destruct (Hstep (S k) s' w' ltac:(lia) HI) as (s3 & w3 & Hb3 & H3).
      exists s3, w3. split; [|exact H3].
      rewrite <- Hb3. f_equal. lia.
    + exists s2, w2. split; [|exact H2].
      simpl. rewrite (bind_ok _ _ _ _ _ Hb). exact Hr.
Qed.

(** The same for a loop that is known to have returned. *)
Lemma forRange_inv {T} (I : nat -> T -> World G -> Prop)
    n i0 (body : Z -> T -> M G T) s w s' w' :
  I 0%nat s w ->
  (forall k s w s' w', (k < n)%nat -> I k s w ->
     body (i0 + Z.of_nat k)%Z s w = Ok (s', w') -> I (S k) s' w') ->
  forRange n i0 body s w = Ok (s', w') -> I n s' w'.
Proof.
  revert I i0 s w. induction n as [|n IH]; intros I i0 s w H0 Hstep Hrun.
  - simpl in Hrun. unfold ret in Hrun. congruence.
  - simpl in Hrun. apply bind_inv in Hrun as (s1 & w1 & Hb & Hr).
    apply (IH (fun k => I (S k)) (i0 + 1)%Z s1 w1).
    + apply (Hstep 0%nat s w); [lia|exact H0|].
      rewrite Z.add_0_r. exact Hb.
    + intros k s2 w2 s3 w3 Hk HI Hb3.
      apply (Hstep (S k) s2 w2); [lia|exact HI|].
      rewrite <- Hb3. f_equal. lia.
    + exact Hr.
Qed.

(** Indexing inside the bounds. *)
Lemma index_ok (ls : list loc) (k : nat) l w :
  ls !! k = Some l -> index (G:=G) ls (Z.of_nat k) w = Ok (l, w).
Proof.
  intros Hl. unfold index.
  destruct (Z.ltb_spec (Z.of_nat k) 0); [lia|].
  rewrite Nat2Z.id, Hl. reflexivity.
Qed.

Lemma load_ok l p (w : World G) :
  heap w !! l = Some p -> load l w = Ok (p, w).
Proof. unfold load. intros ->. reflexivity. Qed.

Lemma store_ok l p v (w : World G) :
  heap w !! l = Some p ->
  store l v w = Ok (tt, mkWorld (<[l := v]> (heap w)) (src w)).
Proof. unfold store. intros ->. reflexivity. Qed.
End MonadFacts.

(** ** The order of float64 *)

Section FloatOrder.
Local Open Scope float_scope.

Lemma SFleb_trans x y z :
  SFleb x y = true -> SFleb y z = true -> SFleb x z = true.
Proof.
  unfold SFleb.
  destruct x as [sx|sx| |sx mx ex], y as [sy|sy| |sy my ey],
    z as [sz|sz| |sz mz ez]; simpl; try discriminate; try reflexivity;
    repeat match goal with s : bool |- _ => destruct s end; simpl;
    try discriminate; try reflexivity;
    change (Pos.compare_cont Eq) with Pos.compare;
    destruct (Z.compare_spec ex ey), (Z.compare_spec ey ez),
      (Z.compare_spec ex ez); simpl; try discriminate; try reflexivity;
    try lia; subst;
    destruct (Pos.compare_spec mx my), (Pos.compare_spec my mz),
      (Pos.compare_spec mx mz); simpl; try discriminate; try reflexivity;
    try lia.
Qed.

Lemma SFcompare_swap x y :
  SFcompare y x = option_map CompOpp (SFcompare x y).
Proof.
  destruct x as [sx|sx| |sx mx ex], y as [sy|sy| |sy my ey]; simpl;
    try reflexivity;
    repeat match goal with s : bool |- _ => destruct s end; simpl;
    try reflexivity;
    change (Pos.compare_cont Eq) with Pos.compare;
    rewrite (Z.compare_antisym ex ey), (Pos.compare_antisym mx my);
    destruct (ex ?= ey)%Z, (mx ?= my)%positive; reflexivity.
Qed.

Lemma SFcompare_refl x : x <> S754_nan -> SFcompare x x = Some Eq.
Proof.
  destruct x as [s|s| |s m e]; simpl; try congruence;
    destruct s; simpl; try reflexivity;
    change (Pos.compare_cont Eq) with Pos.compare;
    rewrite Z.compare_refl, Pos.compare_refl; reflexivity.
Qed.

Lemma SFcompare_nan_l x y : SFcompare x y <> None -> x <> S754_nan.
Proof. destruct x; simpl; congruence. Qed.

Lemma SFcompare_nan_r x y : SFcompare x y <> None -> y <> S754_nan.
Proof. destruct x, y; simpl; congruence. Qed.

Lemma ordered_spec x : F64.ordered x = true <-> Prim2SF x <> S754_nan.
Proof.
  unfold F64.ordered. rewrite FloatAxioms.eqb_spec. unfold SFeqb. split.
  - intros Hc. apply (SFcompare_nan_l _ (Prim2SF x)).
    destruct (SFcompare (Prim2SF x) (Prim2SF x)); congruence.
  - intros Hx. rewrite SFcompare_refl by exact Hx. reflexivity.
Qed.

Lemma leb_trans x y z :
  (x <=? y) = true -> (y <=? z) = true -> (x <=? z) = true.
Proof. rewrite !FloatAxioms.leb_spec. apply SFleb_trans. Qed.

Lemma leb_refl x : F64.ordered x = true -> (x <=? x) = true.
Proof.
  rewrite ordered_spec, FloatAxioms.leb_spec. intros Hx. unfold SFleb.
  rewrite SFcompare_refl by exact Hx. reflexivity.
Qed.

Lemma leb_ordered x y :
  (x <=? y) = true -> F64.ordered x = true /\ F64.ordered y = true.
Proof.
  rewrite FloatAxioms.leb_spec, !ordered_spec. unfold SFleb. intros Hc.
  split; [apply (SFcompare_nan_l _ (Prim2SF y))
         |apply (SFcompare_nan_r (Prim2SF x))];
    destruct (SFcompare (Prim2SF x) (Prim2SF y)) as [[]|]; congruence.
Qed.

Lemma ltb_leb x y : (x <? y) = true -> (x <=? y) = true.
Proof.
  rewrite FloatAxioms.ltb_spec, FloatAxioms.leb_spec. unfold SFltb, SFleb.
  destruct (SFcompare (Prim2SF x) (Prim2SF y)) as [[]|]; congruence.
Qed.

(** Two floats that are not NaN are comparable. *)
Lemma not_ltb_leb x y :
  F64.ordered x = true -> F64.ordered y = true ->
  (x <? y) = false -> (y <=? x) = true.
Proof.
  rewrite !ordered_spec, FloatAxioms.ltb_spec, FloatAxioms.leb_spec. unfold SFltb, SFleb.
  intros Hx Hy. rewrite (SFcompare_swap (Prim2SF x) (Prim2SF y)).
  destruct (Prim2SF x) as [sx|sx| |sx mx ex],
    (Prim2SF y) as [sy|sy| |sy my ey]; try congruence; simpl;
    repeat match goal with s : bool |- _ => destruct s end; simpl;
    try congruence;
    destruct (ex ?= ey)%Z, (Pos.compare_cont Eq mx my); simpl; congruence.
Qed.

Lemma leb_antisym x y :
  (x <=? y) = true -> (y <=? x) = true -> (x =? y) = true.
Proof.
  rewrite !FloatAxioms.leb_spec, FloatAxioms.eqb_spec. unfold SFleb, SFeqb.
  rewrite (SFcompare_swap (Prim2SF x) (Prim2SF y)).
  destruct (SFcompare (Prim2SF x) (Prim2SF y)) as [[]|]; simpl; congruence.
Qed.

Lemma eqb_refl x : F64.ordered x = true -> (x =? x) = true.
Proof. intros Hx. exact Hx. Qed.

(** The running maximum dominates its start and every weight, and is
    the start or one of the weights. *)
Lemma running_max_spec ws m0 :
  F64.ordered m0 = true ->
  (forall w, w ∈ ws -> F64.ordered w = true) ->
  (m0 <=? Spec.running_max ws m0) = true
  /\ (forall w, w ∈ ws -> (w <=? Spec.running_max ws m0) = true)
  /\ (Spec.running_max ws m0 = m0 \/ Spec.running_max ws m0 ∈ ws).
Proof.
  revert m0. induction ws as [|w ws IH]; intros m0 Hm0 Hws.
  - simpl. split; [apply leb_refl, Hm0|]. split; [|left; reflexivity].
    intros w Hw. inversion Hw.
  - assert (Hw : F64.ordered w = true) by (apply Hws; left).
    assert (Hws' : forall w', w' ∈ ws -> F64.ordered w' = true)
      by (intros w' Hw'; apply Hws; right; exact Hw').
    change (Spec.running_max (w :: ws) m0)
      with (Spec.running_max ws (if F64.gt w m0 then w else m0)).
    unfold F64.gt. destruct (m0 <? w) eqn:Hlt.
    + destruct (IH w Hw Hws') as (Hle & Hall & Hin).
      split; [eapply leb_trans; [apply ltb_leb, Hlt|exact Hle]|].
      split.
      * intros w' Hw'. apply elem_of_cons in Hw' as [->|Hw'];
          [exact Hle|apply Hall, Hw'].
      * right. destruct Hin as [->|Hin]; [left|right; exact Hin].
    + destruct (IH m0 Hm0 Hws') as (Hle & Hall & Hin).
      split; [exact Hle|]. split.
      * intros w' Hw'. apply elem_of_cons in Hw' as [->|Hw'];
          [|apply Hall, Hw'].
        eapply leb_trans; [|exact Hle].
        apply not_ltb_leb; assumption.
      * destruct Hin as [->|Hin]; [left; reflexivity|right; right; exact Hin].
Qed.

(** Started at 0 over weights that are not negative, the running
    maximum is the maximum. *)
Lemma running_max_is_maximum ws :
  (forall w, w ∈ ws -> (0 <=? w) = true) ->
  Spec.is_maximum (Spec.running_max ws 0) ws.
Proof.
  intros Hpos.
  assert (Hord : forall w, w ∈ ws -> F64.ordered w = true)
    by (intros w Hw; apply (leb_ordered 0 w), Hpos, Hw).
  destruct (running_max_spec ws 0 eq_refl Hord) as (Hle & Hall & Hin).
  split; [exact Hall|].
  destruct ws as [|w0 ws']; [reflexivity|].
  destruct Hin as [Heq|Hin].
  - exists w0. split; [left|]. rewrite Heq.
    apply leb_antisym; [|apply Hpos; left].
    rewrite <- Heq. apply Hall. left.
  - eexists. split; [exact Hin|]. apply eqb_refl, Hord, Hin.
Qed.
End FloatOrder.

(** ** Signs of products *)

Section FloatSign.
Local Open Scope float_scope.

Lemma binary_round_aux_sign s m e l :
  s = true -> F64.SFnonpos (binary_round_aux prec emax s m e l).
Proof.
  intros ->. unfold binary_round_aux.
  destruct (shr_fexp prec emax m e l) as [mrs' e'].
  destruct (shr_fexp prec emax _ e' loc_Exact) as [mrs'' e''].
  destruct (shr_m mrs''); [reflexivity| |reflexivity].
  destruct (Z.leb _ _); reflexivity.
Qed.

Lemma SFmul_nonpos_r x y :
  SFleb (S754_zero false) x = true -> F64.SFnonpos y ->
  F64.SFnonpos (SFmul prec emax x y).
Proof.
  unfold F64.SFnonpos.
  destruct x as [sx|sx| |sx mx ex], y as [sy|sy| |sy my ey]; simpl;
    try discriminate; try reflexivity;
    repeat match goal with s : bool |- _ => destruct s end; simpl;
    try discriminate; try reflexivity; intros _ _;
    apply binary_round_aux_sign; reflexivity.
Qed.

Lemma SFmul_nonpos_l x y :
  F64.SFnonpos x -> SFleb (S754_zero false) y = true ->
  F64.SFnonpos (SFmul prec emax x y).
Proof.
  unfold F64.SFnonpos.
  destruct x as [sx|sx| |sx mx ex], y as [sy|sy| |sy my ey]; simpl;
    try discriminate; try reflexivity;
    repeat match goal with s : bool |- _ => destruct s end; simpl;
    try discriminate; try reflexivity; intros _ _;
    apply binary_round_aux_sign; reflexivity.
Qed.

(** The draw of [beta] is not positive when [maxWeight] is not. *)
Lemma beta_not_positive u m :
  (0 <=? u) = true -> F64.gt m 0 = false -> F64.gt (u * m * 2) 0 = false.
Proof.
  unfold F64.gt.
  rewrite FloatAxioms.leb_spec, !FloatAxioms.ltb_spec, !mul_spec.
  intros Hu Hm. apply SFmul_nonpos_l; [apply SFmul_nonpos_r; assumption|].
  reflexivity.
Qed.
End FloatSign.

(** ** Operations that are exact *)

Section FloatArith.
Local Open Scope float_scope.

Lemma finite_spec x :
  F64.finite x = true ->
  (exists s, Prim2SF x = S754_zero s)
  \/ (exists s m e, Prim2SF x = S754_finite s m e).
Proof.
  unfold F64.finite. rewrite FloatAxioms.ltb_spec, abs_spec.
  destruct (Prim2SF x) as [s|s| |s m e]; simpl; try discriminate; eauto.
Qed.

(** A number less itself is [+0]. *)
Lemma sub_diag x : F64.finite x = true -> x - x = 0.
Proof.
  intros Hx. apply Prim2SF_inj. rewrite sub_spec.
  destruct (finite_spec x Hx) as [[s ->]|(s & m & e & ->)].
  - destruct s; reflexivity.
  - unfold SF64sub, SFsub. rewrite Z.sub_diag. reflexivity.
Qed.

Lemma zero_div_pos y : (0 <? y) = true -> 0 / y = 0.
Proof.
  rewrite FloatAxioms.ltb_spec. intros Hy. apply Prim2SF_inj.
  rewrite div_spec.
  change (Prim2SF 0) with (S754_zero false) in *.
  destruct (Prim2SF y) as [s|s| |s m e]; simpl in *; try discriminate;
    destruct s; try discriminate; reflexivity.
Qed.

Lemma shr_52 m e :
  shr (shr_record_of_loc (Z.pos (Pos.iter xO m 52%positive)) loc_Exact) e 52
  = ({| shr_m := Z.pos m; shr_r := false; shr_s := false |}, (e + 52)%Z).
Proof. reflexivity. Qed.

(** Multiplying by 1 is exact. *)
Lemma mul_1_r x : x * 1 = x.
Proof.
  apply Prim2SF_inj. rewrite mul_spec.
  pose proof (Prim2SF_valid x) as Hv.
  change (Prim2SF 1) with (S754_finite false 4503599627370496 (-52)).
  destruct (Prim2SF x) as [s|s| |s m e]; simpl; try reflexivity;
    try (rewrite xorb_false_r; reflexivity).
  rewrite xorb_false_r. simpl in Hv. unfold bounded, canonical_mantissa in Hv.
  apply andb_true_iff in Hv as [Hc Hb].
  apply Z.eqb_eq in Hc.
  rewrite Pos.mul_comm.
  change (4503599627370496 * m)%positive with (Pos.iter xO m 52%positive).
  unfold binary_round_aux, shr_fexp.
  assert (Hd : (Zdigits2 (Z.pos (Pos.iter xO m 52)) + (e + -52))%Z
               = (Z.pos (digits2_pos m) + e)%Z).
  { simpl. lia. }
  rewrite Hd.
  match type of Hc with fexp _ _ ?b = _ =>
    match goal with |- context [fexp prec emax ?a] =>
      replace a with b by lia end end.
  rewrite Hc. replace (e - (e + -52))%Z with 52%Z by lia.
  rewrite shr_52.
  cbn [loc_of_shr_record shr_m round_nearest_even Zdigits2].
  replace (e + -52 + 52)%Z with e by lia. rewrite Hc, Z.sub_diag.
  cbn [shr shr_m shr_record_of_loc].
  rewrite Hb. reflexivity.
Qed.


End FloatArith.

(** ** Rounding

    What the heading needs of float64 addition: a sum of two numbers
    rounds to a float between any two floats that bound the exact sum
    from either side of zero.  The proof follows the rounding of
    [SpecFloat] on the integer values of the floats. *)

Section Rounding.
Local Open Scope Z_scope.

Lemma U_pos e : -1074 <= e -> 0 < U e.
Proof. intros He. unfold U. apply Z.pow_pos_nonneg; lia. Qed.

Lemma U_add e k : -1074 <= e -> 0 <= k -> U (e + k) = U e * 2 ^ k.
Proof.
  intros He Hk. unfold U.
  replace (e + k + 1074) with ((e + 1074) + k) by lia.
  apply Z.pow_add_r; lia.
Qed.

Lemma U_le e1 e2 : -1074 <= e1 <= e2 -> U e1 <= U e2.
Proof. intros H. unfold U. apply Z.pow_le_mono_r; lia. Qed.

Lemma digits2_pos_bounds m :
  2 ^ (Z.pos (digits2_pos m) - 1) <= Z.pos m < 2 ^ Z.pos (digits2_pos m).
Proof.
  induction m as [m IH|m IH|]; simpl digits2_pos.
  - rewrite Pos2Z.inj_succ.
    replace (Z.succ (Z.pos (digits2_pos m)) - 1) with (Z.succ (Z.pos (digits2_pos m) - 1)) by lia.
    rewrite !Z.pow_succ_r by lia. lia.
  - rewrite Pos2Z.inj_succ.
    replace (Z.succ (Z.pos (digits2_pos m)) - 1) with (Z.succ (Z.pos (digits2_pos m) - 1)) by lia.
    rewrite !Z.pow_succ_r by lia. lia.
  - simpl. lia.
Qed.

(** Values in order have their magnitudes in order. *)
Lemma magnitude_le m1 e1 m2 e2 :
  -1074 <= e1 -> -1074 <= e2 ->
  Z.pos m1 * U e1 <= Z.pos m2 * U e2 ->
  Z.pos (digits2_pos m1) + e1 <= Z.pos (digits2_pos m2) + e2.
Proof.
  intros He1 He2 Hle.
  pose proof (digits2_pos_bounds m1) as [Hl1 _].
  pose proof (digits2_pos_bounds m2) as [_ Hu2].
  pose proof (Pos2Z.is_pos (digits2_pos m1)) as Hd1.
  pose proof (Pos2Z.is_pos (digits2_pos m2)) as Hd2.
  set (d1 := Z.pos (digits2_pos m1)) in *.
  set (d2 := Z.pos (digits2_pos m2)) in *.
  assert (H1 : 2 ^ (d1 - 1 + (e1 + 1074)) <= Z.pos m1 * U e1).
  { unfold U. rewrite (Z.pow_add_r 2 (d1 - 1) (e1 + 1074)) by lia.
    apply Z.mul_le_mono_nonneg_r; [apply Z.pow_nonneg; lia|exact Hl1]. }
  assert (H2 : Z.pos m2 * U e2 < 2 ^ (d2 + (e2 + 1074))).
  { unfold U. rewrite (Z.pow_add_r 2 d2 (e2 + 1074)) by lia.
    apply Z.mul_lt_mono_pos_r; [apply Z.pow_pos_nonneg; lia|exact Hu2]. }
  assert (H3 : 2 ^ (d1 - 1 + (e1 + 1074)) < 2 ^ (d2 + (e2 + 1074))) by lia.
  apply Z.pow_lt_mono_r_iff in H3; lia.
Qed.

Lemma bounded_spec m e :
  bounded prec emax m e = true ->
  fexp prec emax (Z.pos (digits2_pos m) + e) = e /\ -1074 <= e <= 971.
Proof.
  unfold bounded, canonical_mantissa. intros Hb.
  apply andb_true_iff in Hb as [Hc Hb].
  apply Z.eqb_eq in Hc. apply Z.leb_le in Hb.
  split; [exact Hc|]. split; [|exact Hb].
  rewrite <- Hc. unfold fexp, SpecFloat.emin, emax, prec. lia.
Qed.

Lemma fexp_mono a b : a <= b -> fexp prec emax a <= fexp prec emax b.
Proof. unfold fexp, SpecFloat.emin, emax, prec. lia. Qed.

Lemma fexp_ge a : -1074 <= fexp prec emax a.
Proof. unfold fexp, SpecFloat.emin, emax, prec. lia. Qed.

(** The order of the pairs (exponent, mantissa) of two valid floats is
    the order of their values. *)
Lemma lex_compare_val m1 e1 m2 e2 :
  bounded prec emax m1 e1 = true -> bounded prec emax m2 e2 = true ->
  match e1 ?= e2 with
  | Lt => Lt
  | Gt => Gt
  | Eq => Pos.compare_cont Eq m1 m2
  end = (Z.pos m1 * U e1 ?= Z.pos m2 * U e2).
Proof.
  intros Hb1 Hb2.
  apply bounded_spec in Hb1 as [Hc1 He1], Hb2 as [Hc2 He2].
  pose proof (digits2_pos_bounds m1) as [Hl1 Hu1].
  pose proof (digits2_pos_bounds m2) as [Hl2 Hu2].
  unfold fexp, SpecFloat.emin, emax, prec in Hc1, Hc2.
  set (d1 := Z.pos (digits2_pos m1)) in *.
  set (d2 := Z.pos (digits2_pos m2)) in *.
  assert (Hlt : forall ma ea da mb eb db,
    2 ^ (db - 1) <= Z.pos mb -> Z.pos ma < 2 ^ da ->
    -1074 <= ea -> ea < eb -> da <= 53 -> db = 53 ->
    Z.pos ma * U ea < Z.pos mb * U eb).
  { intros ma ea da mb eb db Hlb Hua Hea Hlt Hda Hdb. subst db.
    assert (Z.pos ma < 2 ^ 53).
    { eapply Z.lt_le_trans; [exact Hua|]. apply Z.pow_le_mono_r; lia. }
    replace eb with (ea + (eb - ea)) by lia.
    rewrite U_add by lia.
    assert (2 <= 2 ^ (eb - ea)).
    { change 2 with (2 ^ 1) at 1. apply Z.pow_le_mono_r; lia. }
    pose proof (U_pos ea Hea).
    change (2 ^ (53 - 1)) with 4503599627370496 in Hlb.
    change (2 ^ 53) with 9007199254740992 in *.
    set (P := 2 ^ (eb - ea)) in *. set (u := U ea) in *.
    assert (Z.pos ma * u < 9007199254740992 * u)
      by (apply Z.mul_lt_mono_pos_r; lia).
    assert (9007199254740992 * u <= Z.pos mb * 2 * u)
      by (apply Z.mul_le_mono_nonneg_r; lia).
    assert (Z.pos mb * 2 * u <= Z.pos mb * P * u).
    { apply Z.mul_le_mono_nonneg_r; [lia|].
      apply Z.mul_le_mono_nonneg_l; lia. }
    replace (Z.pos mb * (u * P)) with (Z.pos mb * P * u) by ring. lia. }
  symmetry.
  destruct (Z.compare_spec e1 e2) as [Heq|Hlt12|Hgt12].
  - subst e2. change (Pos.compare_cont Eq m1 m2) with (Z.pos m1 ?= Z.pos m2).
    pose proof (U_pos e1 ltac:(lia)).
    destruct (Z.compare_spec (Z.pos m1) (Z.pos m2)) as [Hm|Hm|Hm].
    + rewrite Hm. apply Z.compare_refl.
    + apply Z.compare_lt_iff, Z.mul_lt_mono_pos_r; assumption.
    + apply Z.compare_gt_iff, Z.mul_lt_mono_pos_r; assumption.
  - apply Z.compare_lt_iff. apply (Hlt m1 e1 d1 m2 e2 d2); try lia.
  - apply Z.compare_gt_iff. apply (Hlt m2 e2 d2 m1 e1 d1); try lia.
Qed.

(** *** Shifting right *)

Lemma iter_pos_nat {A} (f : A -> A) p x :
  SpecFloat.iter_pos f p x = Nat.iter (Pos.to_nat p) f x.
Proof.
  revert x. induction p as [p IH|p IH|]; intros x; simpl SpecFloat.iter_pos.
  - rewrite !IH, Pos2Nat.inj_xI, <- Nat.iter_add.
    replace (S (2 * Pos.to_nat p))%nat with (Pos.to_nat p + Pos.to_nat p + 1)%nat by lia.
    rewrite (Nat.iter_add (Pos.to_nat p + Pos.to_nat p) 1). reflexivity.
  - rewrite !IH, Pos2Nat.inj_xO, <- Nat.iter_add. f_equal. lia.
  - reflexivity.
Qed.

Lemma shr_1_spec m r s :
  0 <= m ->
  shr_1 {| shr_m := m; shr_r := r; shr_s := s |}
  = {| shr_m := m / 2; shr_r := Z.odd m; shr_s := r || s |}.
Proof.
  intros Hm. rewrite <- Z.div2_div.
  destruct m as [|[p|p|]|p]; try reflexivity. lia.
Qed.

Lemma shr_iter_spec m0 (j : nat) :
  0 <= m0 ->
  let r := Nat.iter j shr_1 {| shr_m := m0; shr_r := false; shr_s := false |} in
  shr_m r = m0 / 2 ^ Z.of_nat j
  /\ (m0 mod 2 ^ Z.of_nat j = 0 -> shr_r r = false /\ shr_s r = false).
Proof.
  intros Hm0. induction j as [|j IH]; cbn zeta.
  - simpl. rewrite Z.div_1_r. tauto.
  - cbn zeta in IH. destruct IH as [IHm IHx].
    rewrite Nat2Z.inj_succ, Z.pow_succ_r by lia.
    simpl Nat.iter.
    destruct (Nat.iter j shr_1 _) as [m r s] eqn:Hit. simpl in IHm, IHx.
    assert (Hm : 0 <= m).
    { rewrite IHm. apply Z.div_pos; [lia|]. apply Z.pow_pos_nonneg; lia. }
    rewrite (shr_1_spec m r s Hm). simpl.
    assert (Hp : 0 < 2 ^ Z.of_nat j) by (apply Z.pow_pos_nonneg; lia).
    split.
    + rewrite IHm, Z.div_div by lia. f_equal. lia.
    + intros Hmod.
      apply Z.mod_divide in Hmod as [q Hq]; [|lia].
      assert (Hm0' : m0 = (2 * q) * 2 ^ Z.of_nat j) by lia.
      assert (Hmodj : m0 mod 2 ^ Z.of_nat j = 0).
      { rewrite Hm0'. apply Z.mod_mul. lia. }
      destruct (IHx Hmodj) as [-> ->].
      split; [|reflexivity].
      rewrite IHm, Hm0', Z.div_mul by lia.
      rewrite Z.odd_mul. reflexivity.
Qed.

Lemma shr_exact_spec m0 e k :
  0 <= m0 ->
  exists m1 l,
    shr (shr_record_of_loc m0 loc_Exact) e k
    = (m1, if 0 <? k then e + k else e)
    /\ loc_of_shr_record m1 = l
    /\ shr_m m1 = (if 0 <? k then m0 / 2 ^ k else m0)
    /\ ((if 0 <? k then m0 mod 2 ^ k else 0) = 0 -> l = loc_Exact).
Proof.
  intros Hm0. destruct k as [|kp|kp]; simpl shr; simpl Z.ltb; cbv iota.
  - eexists _, _. repeat split.
  - rewrite iter_pos_nat.
    destruct (shr_iter_spec m0 (Pos.to_nat kp) Hm0) as [Hm Hx].
    rewrite positive_nat_Z in Hm, Hx.
    eexists _, _. split; [reflexivity|]. split; [reflexivity|].
    split; [exact Hm|].
    intros Hmod. destruct (Hx Hmod) as [Hr Hs].
    destruct (Nat.iter _ _ _) as [m r s]. simpl in *. subst. reflexivity.
  - eexists _, _. repeat split.
Qed.

Lemma round_nearest_even_bounds m l :
  m <= round_nearest_even m l <= m + 1
  /\ (l = loc_Exact -> round_nearest_even m l = m).
Proof.
  unfold round_nearest_even.
  destruct l as [|[]]; try destruct (Z.even m); split; try lia; try discriminate;
    reflexivity.
Qed.

(** *** Rounding a value below a float *)

Lemma pos_iter_xO m d : Z.pos (Pos.iter xO m d) = Z.pos m * 2 ^ Z.pos d.
Proof.
  induction d as [|d IH] using Pos.peano_ind.
  - simpl. lia.
  - rewrite Pos.iter_succ, Pos2Z.inj_xO, IH, Pos2Z.inj_succ, Z.pow_succ_r by lia.
    ring.
Qed.

Lemma shl_align_spec M e e' :
  -1074 <= e -> -1074 <= e' ->
  exists mz ez,
    shl_align M e e' = (mz, ez)
    /\ Z.pos mz * U ez = Z.pos M * U e
    /\ -1074 <= ez /\ (ez <= e' \/ e <= e') /\ ez <= e.
Proof.
  intros He He'. unfold shl_align.
  destruct (e' - e) as [|d|d] eqn:Hd.
  - exists M, e. repeat split; lia.
  - exists M, e. repeat split; lia.
  - exists (Pos.iter xO M d), e'. split; [reflexivity|].
    split; [|lia].
    rewrite pos_iter_xO. replace e with (e' + Z.pos d) by lia.
    rewrite U_add by lia. ring.
Qed.

Lemma binary_round_le sg M e mc ec :
  bounded prec emax mc ec = true -> -1074 <= e ->
  Z.pos M * U e <= Z.pos mc * U ec ->
  binary_round prec emax sg M e = S754_zero sg
  \/ exists m' e',
       binary_round prec emax sg M e = S754_finite sg m' e'
       /\ -1074 <= e' /\ Z.pos m' * U e' <= Z.pos mc * U ec.
Proof.
  intros Hb He Hle.
  apply bounded_spec in Hb as [Hc Hec].
  set (V := Z.pos mc * U ec) in *.
  unfold binary_round.
  destruct (shl_align_spec M e (fexp prec emax (Z.pos (digits2_pos M) + e)) He
              (fexp_ge _)) as (mz & ez & -> & Hval & Hez & Hez' & Hez'').
  assert (HezF : ez <= fexp prec emax (Z.pos (digits2_pos M) + e)).
  { destruct Hez' as [|]; lia. }
  assert (HFM : fexp prec emax (Z.pos (digits2_pos M) + e) <= ec).
  { rewrite <- Hc. apply fexp_mono, magnitude_le; first [lia|assumption]. }
  assert (Hlez : Z.pos mz * U ez <= V) by lia.
  assert (HFz : fexp prec emax (Z.pos (digits2_pos mz) + ez) <= ec).
  { rewrite <- Hc. apply fexp_mono, magnitude_le; first [lia|assumption]. }
  unfold binary_round_aux, shr_fexp.
  change (Zdigits2 (Z.pos mz)) with (Z.pos (digits2_pos mz)).
  set (F := fexp prec emax (Z.pos (digits2_pos mz) + ez)) in *.
  destruct (shr_exact_spec (Z.pos mz) ez (F - ez) ltac:(lia))
    as (m1 & l1 & -> & Hl1 & Hm1 & Hx1).
  rewrite Hl1.
  set (e1 := if 0 <? F - ez then ez + (F - ez) else ez) in *.
  destruct (round_nearest_even_bounds (shr_m m1) l1) as [Hr Hrx].
  set (m2 := round_nearest_even (shr_m m1) l1) in *.
  assert (He1 : -1074 <= e1 <= ec).
  { unfold e1. destruct (Z.ltb_spec 0 (F - ez)); lia. }
  assert (Hm1pos : 0 <= shr_m m1).
  { rewrite Hm1. destruct (Z.ltb_spec 0 (F - ez)); [|lia].
    apply Z.div_pos; [lia|]. apply Z.pow_pos_nonneg; lia. }
  assert (Hm2 : m2 * U e1 <= V).
  { unfold e1 in *. destruct (Z.ltb_spec 0 (F - ez)) as [Hk|Hk].
    - replace (ez + (F - ez)) with F in * by lia.
      set (k := F - ez) in *.
      assert (Hp : 0 < 2 ^ k) by (apply Z.pow_pos_nonneg; lia).
      pose proof (U_pos ez Hez) as Hu.
      set (C := Z.pos mc * 2 ^ (ec - F)).
      assert (HV : V = C * U F).
      { unfold V, C. replace ec with (F + (ec - F)) at 1 by lia.
        rewrite U_add by lia. ring. }
      assert (HUF : U F = U ez * 2 ^ k).
      { replace F with (ez + k) at 1 by lia. apply U_add; lia. }
      assert (Hmz : Z.pos mz <= C * 2 ^ k).
      { rewrite HV, HUF in Hlez.
        apply (Z.mul_le_mono_pos_r _ _ (U ez) Hu). lia. }
      assert (Hm2C : m2 <= C).
      { destruct (Z.eq_dec (Z.pos mz mod 2 ^ k) 0) as [Hmod|Hmod].
        - rewrite (Hrx (Hx1 Hmod)), Hm1.
          apply Z.div_le_upper_bound; lia.
        - assert (Z.pos mz <> C * 2 ^ k).
          { intros Heq. apply Hmod. rewrite Heq. apply Z.mod_mul. lia. }
          assert (shr_m m1 < C).
          { rewrite Hm1. apply Z.div_lt_upper_bound; lia. }
          lia. }
      rewrite HV. apply Z.mul_le_mono_nonneg_r; [|exact Hm2C].
      pose proof (U_pos F ltac:(lia)). lia.
    - rewrite (Hrx (Hx1 eq_refl)), Hm1. exact Hlez. }
  assert (Hm2pos : 0 <= m2) by lia.
  set (k2 := fexp prec emax (Zdigits2 m2 + e1) - e1).
  destruct (shr_exact_spec m2 e1 k2 Hm2pos) as (m3 & l3 & -> & _ & Hm3 & _).
  destruct (shr_m m3) as [|p3|p3] eqn:Hp3.
  - left. reflexivity.
  - right.
    assert (Hm2p : 0 < m2).
    { destruct (Z.ltb_spec 0 k2); [|lia].
      destruct (Z.eq_dec m2 0) as [Hz|]; [|lia].
      rewrite Hz in Hm3. rewrite Z.div_0_l in Hm3; [lia|].
      apply Z.pow_nonzero; lia. }
    destruct m2 as [|p2|p2]; try lia.
    assert (HF2 : fexp prec emax (Z.pos (digits2_pos p2) + e1) <= ec).
    { rewrite <- Hc. apply fexp_mono, magnitude_le; first [lia|assumption]. }
    change (Zdigits2 (Z.pos p2)) with (Z.pos (digits2_pos p2)) in k2.
    assert (He3 : -1074 <= (if 0 <? k2 then e1 + k2 else e1) <= ec).
    { pose proof (fexp_ge (Z.pos (digits2_pos p2) + e1)).
      destruct (Z.ltb_spec 0 k2); unfold k2 in *; lia. }
    destruct (Z.leb_spec (if 0 <? k2 then e1 + k2 else e1) (emax - prec))
      as [_|Hover]; [|unfold emax, prec in Hover; lia].
    eexists _, _. split; [reflexivity|]. split; [lia|].
    eapply Z.le_trans; [|exact Hm2].
    destruct (Z.ltb_spec 0 k2) as [Hk|Hk].
    + rewrite U_add by lia.
      assert (Hp : 0 < 2 ^ k2) by (apply Z.pow_pos_nonneg; lia).
      pose proof (U_pos e1 ltac:(lia)).
      pose proof (Z.mul_div_le (Z.pos p2) (2 ^ k2) Hp).
      rewrite Hm3. 
      replace (Z.pos p2 / 2 ^ k2 * (U e1 * 2 ^ k2))
        with ((2 ^ k2 * (Z.pos p2 / 2 ^ k2)) * U e1) by ring.
      apply Z.mul_le_mono_nonneg_r; lia.
    + rewrite Hm3. lia.
  - exfalso.
    assert (0 <= Z.neg p3); [|lia].
    rewrite Hm3. destruct (Z.ltb_spec 0 k2); [|lia].
    apply Z.div_pos; [lia|]. apply Z.pow_pos_nonneg; lia.
Qed.

(** *** Values *)

Lemma finite_val_pos m e : -1074 <= e -> 0 < Z.pos m * U e.
Proof. intros He. pose proof (U_pos e He). lia. Qed.

(** The order of two valid numbers is the order of their values. *)
Lemma SFcompare_val x y :
  valid_binary x = true -> valid_binary y = true -> SFnum x -> SFnum y ->
  SFcompare x y = Some (SFval x ?= SFval y).
Proof.
  intros Hvx Hvy Hx Hy.
  destruct x as [sx|sx| |sx mx ex], y as [sy|sy| |sy my ey];
    try contradiction; simpl in Hvx, Hvy.
  - reflexivity.
  - destruct (bounded_spec _ _ Hvy) as [_ He].
    pose proof (finite_val_pos my ey ltac:(lia)).
    cbn [SFcompare SFval cond_Zopp]. destruct sy; cbn [cond_Zopp]; f_equal; symmetry;
      [apply Z.compare_gt_iff|apply Z.compare_lt_iff]; lia.
  - destruct (bounded_spec _ _ Hvx) as [_ He].
    pose proof (finite_val_pos mx ex ltac:(lia)).
    cbn [SFcompare SFval cond_Zopp]. destruct sx; cbn [cond_Zopp]; f_equal; symmetry;
      [apply Z.compare_lt_iff|apply Z.compare_gt_iff]; lia.
  - destruct (bounded_spec _ _ Hvx) as [_ Hex].
    destruct (bounded_spec _ _ Hvy) as [_ Hey].
    pose proof (finite_val_pos mx ex ltac:(lia)).
    pose proof (finite_val_pos my ey ltac:(lia)).
    cbn [SFcompare SFval cond_Zopp]. destruct sx, sy; cbn [cond_Zopp]; f_equal.
    + rewrite Z.compare_opp, <- (lex_compare_val my ey mx ex Hvy Hvx).
      rewrite (Z.compare_antisym ey ex), (Pos.compare_cont_antisym mx my Eq).
      destruct (ey ?= ex); reflexivity.
    + symmetry. apply Z.compare_lt_iff. lia.
    + symmetry. apply Z.compare_gt_iff. lia.
    + apply lex_compare_val; assumption.
Qed.

Lemma SFleb_of_val x y :
  valid_binary x = true -> valid_binary y = true -> SFnum x -> SFnum y ->
  SFval x <= SFval y -> SFleb x y = true.
Proof.
  intros Hvx Hvy Hx Hy Hle. unfold SFleb.
  rewrite (SFcompare_val x y Hvx Hvy Hx Hy).
  destruct (Z.compare_spec (SFval x) (SFval y)); try reflexivity. lia.
Qed.

Lemma SFleb_val x y :
  valid_binary x = true -> valid_binary y = true -> SFnum x -> SFnum y ->
  SFleb x y = true -> SFval x <= SFval y.
Proof.
  intros Hvx Hvy Hx Hy. unfold SFleb.
  rewrite (SFcompare_val x y Hvx Hvy Hx Hy).
  destruct (Z.compare_spec (SFval x) (SFval y)); try discriminate; lia.
Qed.

Lemma SFltb_val x y :
  valid_binary x = true -> valid_binary y = true -> SFnum x -> SFnum y ->
  SFltb x y = true -> SFval x < SFval y.
Proof.
  intros Hvx Hvy Hx Hy. unfold SFltb.
  rewrite (SFcompare_val x y Hvx Hvy Hx Hy).
  destruct (Z.compare_spec (SFval x) (SFval y)); try discriminate; lia.
Qed.

(** A float between two numbers is a number. *)
Lemma SFnum_between lo x hi :
  SFnum lo -> SFnum hi -> SFleb lo x = true -> SFleb x hi = true -> SFnum x.
Proof.
  unfold SFleb.
  destruct lo as [sl|sl| |sl ml el], hi as [sh|sh| |sh mh eh],
    x as [s|s| |s m e]; simpl; try tauto; try discriminate;
    destruct s; simpl; try discriminate; tauto.
Qed.

(** *** Sums *)

Lemma shr_nonneg mrs e k :
  0 <= shr_m mrs -> 0 <= shr_m (fst (shr mrs e k)).
Proof.
  intros Hm. destruct k as [|kp|kp]; simpl; try exact Hm.
  rewrite iter_pos_nat. induction (Pos.to_nat kp) as [|j IH]; [exact Hm|].
  simpl. destruct (Nat.iter j shr_1 mrs) as [m r s]. simpl in IH.
  rewrite shr_1_spec by exact IH. simpl.
  apply Z.div_pos; lia.
Qed.

(** Rounding keeps the sign and gives no NaN. *)
Lemma binary_round_shape sg M e :
  binary_round prec emax sg M e = S754_zero sg
  \/ (exists m' e', binary_round prec emax sg M e = S754_finite sg m' e')
  \/ binary_round prec emax sg M e = S754_infinity sg.
Proof.
  unfold binary_round.
  destruct (shl_align M e _) as [mz ez].
  unfold binary_round_aux, shr_fexp.
  set (k1 := fexp prec emax (Zdigits2 (Z.pos mz) + ez) - ez).
  pose proof (shr_nonneg (shr_record_of_loc (Z.pos mz) loc_Exact) ez k1) as H1.
  destruct (shr _ ez k1) as [m1 e1]. simpl in H1.
  specialize (H1 ltac:(simpl; lia)).
  destruct (round_nearest_even_bounds (shr_m m1) (loc_of_shr_record m1))
    as [Hr _].
  set (m2 := round_nearest_even _ _) in *.
  set (k2 := fexp prec emax (Zdigits2 m2 + e1) - e1).
  pose proof (shr_nonneg (shr_record_of_loc m2 loc_Exact) e1 k2) as H2.
  destruct (shr _ e1 k2) as [m3 e3]. simpl in H2.
  specialize (H2 ltac:(simpl; lia)).
  destruct (shr_m m3) as [|p|p]; [left; reflexivity| |lia].
  right. destruct (Z.leb _ _); [left; eauto|right; reflexivity].
Qed.

Lemma shl_align_val M e e' :
  -1074 <= e' <= e ->
  Z.pos (fst (shl_align M e e')) * U e' = Z.pos M * U e.
Proof.
  intros He. unfold shl_align.
  destruct (e' - e) as [|d|d] eqn:Hd; simpl.
  - replace e' with e by lia. reflexivity.
  - lia.
  - rewrite pos_iter_xO. replace e with (e' + Z.pos d) by lia.
    rewrite U_add by lia. ring.
Qed.

(** The integer that [SFadd] rounds is the sum of the values. *)
Lemma SFadd_exact sx mx ex sy my ey :
  -1074 <= ex -> -1074 <= ey ->
  (cond_Zopp sx (Z.pos (fst (shl_align mx ex (Z.min ex ey))))
   + cond_Zopp sy (Z.pos (fst (shl_align my ey (Z.min ex ey)))))
  * U (Z.min ex ey)
  = SFval (S754_finite sx mx ex) + SFval (S754_finite sy my ey).
Proof.
  intros Hex Hey. rewrite Z.mul_add_distr_r. simpl SFval.
  rewrite <- (shl_align_val mx ex (Z.min ex ey)) by lia.
  rewrite <- (shl_align_val my ey (Z.min ex ey)) by lia.
  destruct sx, sy; simpl; lia.
Qed.
End Rounding.

Section FloatBounds.
Local Open Scope float_scope.

Lemma valid_exp s m e :
  valid_binary (S754_finite s m e) = true -> (-1074 <= e)%Z.
Proof. intros Hv. apply bounded_spec in Hv. lia. Qed.

Ltac by_val :=
  unfold SF64add in *; cbn [SFadd SFval cond_Zopp] in *;
  apply SFleb_of_val; try assumption; try exact I;
  cbn [SFval cond_Zopp] in *; try lia.

(** A sum of two numbers is not above a number that is not negative
    and not below the sum of their values. *)
Lemma add_le x y c :
  num x -> num y -> num c -> (0 <= val c)%Z ->
  (val x + val y <= val c)%Z -> (x + y <=? c) = true.
Proof.
  unfold num, val. intros Hx Hy Hc Hc0 Hsum.
  rewrite FloatAxioms.leb_spec.
  pose proof (Prim2SF_valid (x + y)) as HvR.
  rewrite add_spec in *.
  pose proof (Prim2SF_valid x) as Hvx.
  pose proof (Prim2SF_valid y) as Hvy.
  pose proof (Prim2SF_valid c) as Hvc.
  destruct (Prim2SF x) as [sx|sx| |sx mx ex]; try contradiction;
    destruct (Prim2SF y) as [sy|sy| |sy my ey]; try contradiction.
  - destruct sx, sy; by_val.
  - by_val.
  - by_val.
  - pose proof (valid_exp _ _ _ Hvx) as Hex.
    pose proof (valid_exp _ _ _ Hvy) as Hey.
    pose proof (SFadd_exact sx mx ex sy my ey Hex Hey) as Hexact.
    unfold SF64add, SFadd in *.
    set (ez := Z.min ex ey) in *.
    assert (Hez : (-1074 <= ez)%Z) by (unfold ez; lia).
    pose proof (U_pos ez Hez) as Hu.
    destruct (cond_Zopp sx _ + cond_Zopp sy _)%Z as [|p|p] eqn:Hz;
      cbn [binary_normalize] in *.
    + by_val.
    + pose proof (finite_val_pos p ez Hez) as Hp.
      destruct (Prim2SF c) as [sc|sc| |sc mc ec]; try contradiction;
        cbn [SFval cond_Zopp] in *; [lia|].
      pose proof (finite_val_pos mc ec (valid_exp _ _ _ Hvc)).
      destruct sc; cbn [cond_Zopp] in *; [lia|].
      destruct (binary_round_le false p ez mc ec Hvc Hez)
        as [Hr|(m' & e' & Hr & He' & Hle)]; [lia| |]; rewrite Hr in *.
      * reflexivity.
      * by_val.
    + destruct (binary_round_shape true p ez) as [Hr|[(m' & e' & Hr)|Hr]];
        rewrite Hr in *.
      * by_val.
      * pose proof (finite_val_pos m' e' (valid_exp _ _ _ HvR)).
        by_val.
      * destruct (Prim2SF c) as [sc|sc| |sc mc ec]; try contradiction;
          reflexivity.
Qed.

(** A sum of two numbers is not below a number that is not positive
    and not above the sum of their values. *)
Lemma add_ge x y c :
  num x -> num y -> num c -> (val c <= 0)%Z ->
  (val c <= val x + val y)%Z -> (c <=? x + y) = true.
Proof.
  unfold num, val. intros Hx Hy Hc Hc0 Hsum.
  rewrite FloatAxioms.leb_spec.
  pose proof (Prim2SF_valid (x + y)) as HvR.
  rewrite add_spec in *.
  pose proof (Prim2SF_valid x) as Hvx.
  pose proof (Prim2SF_valid y) as Hvy.
  pose proof (Prim2SF_valid c) as Hvc.
  destruct (Prim2SF x) as [sx|sx| |sx mx ex]; try contradiction;
    destruct (Prim2SF y) as [sy|sy| |sy my ey]; try contradiction.
  - destruct sx, sy; by_val.
  - by_val.
  - by_val.
  - pose proof (valid_exp _ _ _ Hvx) as Hex.
    pose proof (valid_exp _ _ _ Hvy) as Hey.
    pose proof (SFadd_exact sx mx ex sy my ey Hex Hey) as Hexact.
    unfold SF64add, SFadd in *.
    set (ez := Z.min ex ey) in *.
    assert (Hez : (-1074 <= ez)%Z) by (unfold ez; lia).
    pose proof (U_pos ez Hez) as Hu.
    destruct (cond_Zopp sx _ + cond_Zopp sy _)%Z as [|p|p] eqn:Hz;
      cbn [binary_normalize] in *.
    + by_val.
    + destruct (binary_round_shape false p ez) as [Hr|[(m' & e' & Hr)|Hr]];
        rewrite Hr in *.
      * by_val.
      * pose proof (finite_val_pos m' e' (valid_exp _ _ _ HvR)).
        by_val.
      * destruct (Prim2SF c) as [sc|sc| |sc mc ec]; try contradiction;
          reflexivity.
    + pose proof (finite_val_pos p ez Hez) as Hp.
      destruct (Prim2SF c) as [sc|sc| |sc mc ec]; try contradiction;
        cbn [SFval cond_Zopp] in *; [lia|].
      pose proof (finite_val_pos mc ec (valid_exp _ _ _ Hvc)).
      destruct sc; cbn [cond_Zopp] in *; [|lia].
      destruct (binary_round_le true p ez mc ec Hvc Hez)
        as [Hr|(m' & e' & Hr & He' & Hle)]; [lia| |]; rewrite Hr in *.
      * reflexivity.
      * by_val.
Qed.

Lemma leb_val x y : num x -> num y -> (x <=? y) = true -> (val x <= val y)%Z.
Proof.
  unfold num, val. rewrite FloatAxioms.leb_spec. intros Hx Hy.
  apply SFleb_val; auto using Prim2SF_valid.
Qed.

Lemma ltb_val x y : num x -> num y -> (x <? y) = true -> (val x < val y)%Z.
Proof.
  unfold num, val. rewrite FloatAxioms.ltb_spec. intros Hx Hy.
  apply SFltb_val; auto using Prim2SF_valid.
Qed.

Lemma num_between lo x hi :
  num lo -> num hi -> (lo <=? x) = true -> (x <=? hi) = true -> num x.
Proof.
  unfold num. rewrite !FloatAxioms.leb_spec. apply SFnum_between.
Qed.

Lemma num_opp x : num x -> num (- x).
Proof. unfold num. rewrite opp_spec. destruct (Prim2SF x); simpl; tauto. Qed.

Lemma val_opp x : val (- x) = (- val x)%Z.
Proof.
  unfold val. rewrite opp_spec.
  destruct (Prim2SF x) as [s|s| |s m e]; try reflexivity.
  destruct s; simpl; lia.
Qed.

Lemma SFsub_add_opp x y : SFsub prec emax x y = SFadd prec emax x (SFopp y).
Proof.
  destruct x as [sx|sx| |sx mx ex], y as [sy|sy| |sy my ey]; try reflexivity;
    destruct sx, sy; reflexivity.
Qed.

Lemma sub_add_opp x y : x - y = x + - y.
Proof.
  apply Prim2SF_inj. rewrite sub_spec, add_spec, opp_spec.
  apply SFsub_add_opp.
Qed.

Lemma num_TwoPi : num F64.TwoPi.
Proof. exact I. Qed.

Lemma val_TwoPi_pos : (0 < val F64.TwoPi)%Z.
Proof. reflexivity. Qed.

Lemma val_FourPi : val (2 * F64.TwoPi) = (2 * val F64.TwoPi)%Z.
Proof. vm_compute. reflexivity. Qed.

Lemma num_zero : num 0.
Proof. exact I. Qed.

Lemma wrapHeading_in_closed_circle s :
  (- F64.TwoPi <=? s) = true -> (s <=? 2 * F64.TwoPi) = true ->
  Spec.in_closed_circle (Particle.wrapHeading s) = true.
Proof.
  intros Hlo Hhi.
  assert (Hs : num s).
  { apply (num_between (- F64.TwoPi) s (2 * F64.TwoPi)); try assumption; exact I. }
  pose proof (leb_val _ _ (num_opp _ num_TwoPi) Hs Hlo) as Hvlo.
  pose proof (leb_val s (2 * F64.TwoPi) Hs I Hhi) as Hvhi.
  rewrite val_opp in Hvlo. rewrite val_FourPi in Hvhi.
  pose proof val_TwoPi_pos as Hc.
  unfold Particle.wrapHeading, Spec.in_closed_circle, F64.gt.
  assert (H0 : val 0 = 0%Z) by reflexivity.
  destruct (s <? 0) eqn:Hneg.
  - pose proof (ltb_val s 0 Hs I Hneg) as Hv.
    apply andb_true_iff. split.
    + apply (add_ge s F64.TwoPi 0 Hs I I); lia.
    + apply (add_le s F64.TwoPi F64.TwoPi Hs I I); lia.
  - destruct (F64.TwoPi <? s) eqn:Hbig.
    + pose proof (ltb_val _ s num_TwoPi Hs Hbig) as Hv.
      pose proof (val_opp F64.TwoPi) as Hopp.
      rewrite sub_add_opp.
      apply andb_true_iff. split.
      * apply (add_ge s (- F64.TwoPi) 0 Hs (num_opp _ num_TwoPi) I); lia.
      * apply (add_le s (- F64.TwoPi) F64.TwoPi Hs (num_opp _ num_TwoPi) I);
          lia.
    + assert (Hord : F64.ordered s = true) by (apply (leb_ordered s _ Hhi)).
      apply andb_true_iff. split; apply not_ltb_leb; try assumption; reflexivity.
Qed.
End FloatBounds.

(** The tape keeps the promises of [math/rand]. *)
Lemma Tape_laws : RandLaws Tape.t.
Proof.
  split.
  - intros g. unfold Float64. simpl. unfold Tape.float64.
    destruct (Tape.uniforms g) as [|u us]; simpl; [split; reflexivity|].
    unfold Tape.clamp.
    destruct ((0 <=? u) && (u <? 1))%float eqn:Hc; [|split; reflexivity].
    apply andb_true_iff in Hc. exact Hc.
  - intros n g Hn. unfold Intn. simpl. unfold Tape.intn.
    destruct (Tape.ints g) as [|z zs]; simpl; [lia|].
    apply Z.mod_pos_bound, Hn.
Qed.
#[global] Existing Instance Tape_laws.

(** ** Construction *)

Section Construction.
Context {G : Type} `{RandSource G}.
Import ParticleFilter.

Lemma createParticle_ok (pf : t) (w : World G) :
  exists p g, createParticle pf w = Ok (p, mkWorld (heap w) g)
              /\ Particle.Weight p = 0%float.
Proof.
  unfold createParticle, bind, draw, ret. simpl.
  destruct (Float64 (src w)) as [u g1]. simpl.
  destruct (Float64 g1) as [v g2]. simpl.
  destruct (Float64 g2) as [r g3]. simpl.
  eexists _, g3. split; reflexivity.
Qed.

Lemma appendNew_ok (pf : t) (ps : list loc) (w : World G) :
  exists l p g,
    appendNew pf ps w
      = Ok (ps ++ [l], mkWorld (<[l := p]> (heap w)) g)
    /\ heap w !! l = None /\ Particle.Weight p = 0%float.
Proof.
  destruct (createParticle_ok pf w) as (p & g & Hc & Hw).
  exists (fresh (dom (heap w))), p, g. split; [|split; [|exact Hw]].
  - unfold appendNew. rewrite (bind_ok _ _ _ _ _ Hc). reflexivity.
  - apply not_elem_of_dom, is_fresh.
Qed.

(** C8, as the code has it: [CreatePF] checks nothing.  For every
    number of samples, resample fraction, bounds and sigmas it returns
    a filter that stores the number, the fraction and the sigmas as
    they were given, with as many particles as the number of samples
    when that is positive and none otherwise. *)
Theorem CreatePF_accepts_every_configuration (numSamps : Z)
    (percResamp xMin' xMax' yMin' yMax' locError distError angError : float)
    (w : World G) :
  exists pf w',
    CreatePF numSamps percResamp xMin' xMax' yMin' yMax'
             locError distError angError w = Ok (pf, w')
    /\ numSamples pf = numSamps
    /\ percentResample pf = percResamp
    /\ Sigma (locDistribution pf) = locError
    /\ Sigma (distDistribution pf) = distError
    /\ Sigma (angDistribution pf) = angError
    /\ length (listParticles pf) = Z.to_nat numSamps.
Proof.
  unfold CreatePF, createSampleList. simpl.
  match goal with
  | |- context [forRange ?n 0%Z ?body ?s0 w] =>
      destruct (forRange_total
        (fun k pf' _ =>
           numSamples pf' = numSamps /\ percentResample pf' = percResamp
           /\ Sigma (locDistribution pf') = locError
           /\ Sigma (distDistribution pf') = distError
           /\ Sigma (angDistribution pf') = angError
           /\ length (listParticles pf') = k)
        n 0%Z body s0 w) as (pf & w' & Hrun & Hinv)
  end.
  - simpl. tauto.
  - intros k pf' w1 _ (Hn & Hp & Hl & Hd & Ha & Hlen).
    destruct (appendNew_ok pf' (listParticles pf') w1)
      as (l & p & g & Happ & _ & _).
    eexists _, _. rewrite (bind_ok _ _ _ _ _ Happ). split; [reflexivity|].
    simpl. rewrite length_app. simpl. repeat split; try assumption. lia.
  - exists pf, w'. split; [exact Hrun|]. tauto.
Qed.

(** The filter that [CreatePF] returns is populated: as many particles
    as samples, each behind a pointer of its own. *)
Lemma CreatePF_populated (numSamps : Z)
    (percResamp xMin' xMax' yMin' yMax' locError distError angError : float)
    (w : World G) :
  exists pf w',
    CreatePF numSamps percResamp xMin' xMax' yMin' yMax'
             locError distError angError w = Ok (pf, w')
    /\ Inv.populated pf w'.
Proof.
  unfold CreatePF, createSampleList. simpl.
  match goal with
  | |- context [forRange ?n 0%Z ?body ?s0 w] =>
      destruct (forRange_total
        (fun k pf' w' =>
           numSamples pf' = numSamps
           /\ length (listParticles pf') = k
           /\ NoDup (listParticles pf')
           /\ Inv.allocated pf' w')
        n 0%Z body s0 w) as (pf & w' & Hrun & Hn & Hlen & Hnd & Hal)
  end.
  - simpl. repeat split; [constructor|].
    intros l Hl. inversion Hl.
  - intros k pf' w1 _ (Hn & Hlen & Hnd & Hal).
    destruct (appendNew_ok pf' (listParticles pf') w1)
      as (l & p & g & Happ & Hfresh & _).
    eexists _, _. rewrite (bind_ok _ _ _ _ _ Happ). split; [reflexivity|].
    simpl. split; [exact Hn|]. split; [rewrite length_app; simpl; lia|].
    split.
    + apply NoDup_app. split; [exact Hnd|]. split; [|apply NoDup_singleton].
      intros l0 Hl0 Hl0'. apply list_elem_of_singleton in Hl0'. subst l0.
      destruct (Hal l Hl0) as [p0 Hp0]. congruence.
    + intros l0 Hl0. simpl. apply elem_of_app in Hl0 as [Hl0|Hl0].
      * destruct (decide (l = l0)) as [<-|Hne].
        -- rewrite lookup_insert_eq. eauto.
        -- rewrite lookup_insert_ne by exact Hne. apply Hal, Hl0.
      * apply list_elem_of_singleton in Hl0. subst l0.
        rewrite lookup_insert_eq. eauto.
  - exists pf, w'. split; [exact Hrun|].
    unfold Inv.populated. rewrite Hn.
    split; [exact Hlen|]. split; assumption.
Qed.
End Construction.

(** C8, as the claim has it, fails: a configuration with no samples, a
    resample fraction of 2 and negative sigmas is not rejected;
    [CreatePF] returns a filter holding these values. *)
Lemma CreatePF_rejects_nothing :
  ParticleFilter.CreatePF 0 2 0 10 0 10 (-1) (-1) (-1) (Runs.fresh_world [])
  = Ok (ParticleFilter.mk 0 2 [] 0 0 0 0 0 0 0 0 0 0
          (mkNormal 0 (-1)) (mkNormal 0 (-1)) (mkNormal 0 (-1)),
        Runs.fresh_world []).
Proof. reflexivity. Qed.

(** C6: the x coordinate of a new particle does not range over
    [[xMin, xMax]].  With the bounds [0,10] x [0,10] and the uniform
    draws 0.5, 0.5, 0.5 the claim puts the particle at (5, 5); the code
    puts it at (0, 5), since its x range is [xMax - xMax].  The y
    coordinate, the heading (0.5 of the circle, π) and the weight are as
    the claim says. *)
Theorem createParticle_x_range_is_zero :
  ParticleFilter.createParticle Runs.bounded_filter
    (Runs.fresh_world [0.5; 0.5; 0.5]%float)
  = Ok (Particle.mk 0 5 F64.Pi 0, Runs.fresh_world []).
Proof. vm_compute. reflexivity. Qed.

(** The bounds given to [CreatePF] do not reach the particles either:
    over [0,10] x [0,10] with all uniform draws 0.5, both particles of a
    filter of two are created at the origin. *)
Lemma CreatePF_ignores_bounds :
  match ParticleFilter.CreatePF 2 1 0 10 0 10 0.125 0.125 0.125
          (Runs.fresh_world [0.5; 0.5; 0.5; 0.5; 0.5; 0.5]%float) with
  | Ok (pf, w) =>
      Runs.population pf w
      = [Some (Particle.mk 0 0 F64.Pi 0); Some (Particle.mk 0 0 F64.Pi 0)]
  | _ => False
  end.
Proof. vm_compute. reflexivity. Qed.

(** ** The estimate of the motion update *)

(** C2 fails on the code: the sums of [Move] run over all [numSamples]
    particles and are divided by [numSamples * percentResample].  Two
    particles at x = 1 and x = 3 (y = 2 and y = 4), heading 0, fraction
    0.5, moved by 1 without noise: they end at x = 2 and x = 4, whose
    mean is 3 (the mean of y is 3 too), and the estimate is 6 for
    both. *)
Theorem Move_estimate_is_not_the_mean :
  match ParticleFilter.Move 1 0 Runs.half_filter Runs.half_world with
  | Ok (pf, w) =>
      Runs.population pf w
      = [Some (Particle.mk 2 2 0 0); Some (Particle.mk 4 4 0 0)]
      /\ Spec.mean [2; 4]%float = 3%float
      /\ ParticleFilter.EstimatedX pf = 6%float
      /\ ParticleFilter.EstimatedY pf = 6%float
  | _ => False
  end.
Proof. vm_compute. repeat split; reflexivity. Qed.

Section MoveEstimate.
Context `{MathLib} {G : Type} `{!RandSource G}.
Import ParticleFilter.

Lemma column_insert_notin (f : Particle.t -> float) ls l v h (g : G) :
  l ∉ ls ->
  Inv.column f ls (mkWorld (<[l := v]> h) g) = Inv.column f ls (mkWorld h g).
Proof.
  intros Hnot. unfold Inv.column. apply list_fmap_ext.
  intros i l0 Hl0. simpl.
  rewrite lookup_insert_ne; [reflexivity|].
  intros <-. apply Hnot. eapply list_elem_of_lookup_2, Hl0.
Qed.

Lemma column_src (f : Particle.t -> float) ls (w : World G) (g : G) :
  Inv.column f ls (mkWorld (heap w) g) = Inv.column f ls w.
Proof. reflexivity. Qed.

Lemma column_snoc (f : Particle.t -> float) ls l v h (g : G) :
  l ∉ ls ->
  Inv.column f (ls ++ [l]) (mkWorld (<[l := v]> h) g)
  = Inv.column f ls (mkWorld h g) ++ [f v].
Proof.
  intros Hnot. unfold Inv.column at 1. rewrite fmap_app.
  fold (Inv.column f ls (mkWorld (<[l := v]> h) g)).
  rewrite (column_insert_notin f ls l v h g Hnot).
  simpl. rewrite lookup_insert_eq. reflexivity.
Qed.

Lemma NoDup_not_in_take (ls : list nat) k l :
  NoDup ls -> ls !! k = Some l -> l ∉ take k ls.
Proof.
  intros Hnd Hl Hin. apply list_elem_of_lookup_1 in Hin as [j Hj].
  apply lookup_take_Some in Hj as [Hj Hlt].
  assert (j = k) by (eapply NoDup_lookup; eassumption). lia.
Qed.

(** What [Move] computes over a populated filter: each estimate is the
    sum of the component over the whole population, as the particles
    are after the move, divided by
    [float64(numSamples) * percentResample]. *)
Lemma Move_estimates dist ang pf (w : World G) :
  Inv.populated pf w ->
  exists pf' w',
    Move dist ang pf w = Ok (pf', w')
    /\ listParticles pf' = listParticles pf
    /\ EstimatedX pf'
       = (Spec.sum (Inv.column Particle.X (listParticles pf) w')
          / (F64.of_int (numSamples pf) * percentResample pf))%float
    /\ EstimatedY pf'
       = (Spec.sum (Inv.column Particle.Y (listParticles pf) w')
          / (F64.of_int (numSamples pf) * percentResample pf))%float
    /\ EstimatedHeading pf'
       = (Spec.sum (Inv.column Particle.Heading (listParticles pf) w')
          / (F64.of_int (numSamples pf) * percentResample pf))%float.
Proof.
  intros (Hlen & Hnd & Halloc). unfold Move.
  set (ls := listParticles pf) in *.
  destruct (forRange_total
    (fun (k : nat) s w' =>
       dom (heap w') = dom (heap w)
       /\ sumX s = Spec.sum (Inv.column Particle.X (take k ls) w')
       /\ sumY s = Spec.sum (Inv.column Particle.Y (take k ls) w')
       /\ sumHeading s
          = Spec.sum (Inv.column Particle.Heading (take k ls) w'))
    (Z.to_nat (numSamples pf)) 0%Z (moveOne dist ang pf)
    {| sumHeading := 0; sumX := 0; sumY := 0 |} w)
    as (sums & w' & Hrun & _ & Hx & Hy & Hh).
  - repeat split.
  - intros k sums w1 Hk (Hdom & Hx & Hy & Hh).
    destruct (lookup_lt_is_Some_2 ls k ltac:(lia)) as [l Hl].
    assert (Hd : l ∈ dom (heap w1)).
    { rewrite Hdom. apply elem_of_dom, Halloc.
      eapply list_elem_of_lookup_2, Hl. }
    apply elem_of_dom in Hd as [p Hp].
    pose proof (NoDup_not_in_take ls k l Hnd Hl) as Hnot.
    unfold moveOne. rewrite Z.add_0_l. fold ls.
    rewrite (bind_ok _ _ _ _ _ (index_ok _ _ _ w1 Hl)).
    rewrite (bind_ok _ _ _ _ _ (load_ok _ _ w1 Hp)).
    unfold bind at 1. unfold draw at 1.
    destruct (NormalRand (distDistribution pf) (src w1)) as [n1 g1].
    unfold bind at 1. unfold draw at 1. simpl src.
    destruct (NormalRand (angDistribution pf) g1) as [n2 g2].
    set (w2 := {| heap := heap w1; src := g2 |}).
    rewrite (bind_ok _ _ _ _ _ (store_ok l p _ w2 Hp)).
    eexists _, _. split; [reflexivity|]. simpl heap. simpl src.
    rewrite (take_S_r _ _ _ Hl).
    rewrite !(column_snoc _ _ _ _ _ _ Hnot), !column_src.
    unfold Spec.sum in *. rewrite !fold_left_app. simpl.
    rewrite <- Hx, <- Hy, <- Hh.
    split; [|repeat split].
    rewrite dom_insert_lookup_L by (eexists; exact Hp). exact Hdom.
  - eexists _, _. rewrite (bind_ok _ _ _ _ _ Hrun).
    split; [reflexivity|]. simpl.
    rewrite take_ge in Hx, Hy, Hh by lia.
    rewrite Hx, Hy, Hh. repeat split.
Qed.
End MoveEstimate.

(** ** The weighting pass *)

Section Weighting.
Context {G : Type} {R : Type} `{Reading R}.
Import ParticleFilter.

Lemma checkAndSetMaxWeight_same weight override pf :
  Inv.same_but_aggregates pf (checkAndSetMaxWeight weight override pf)
  /\ sumWeight (checkAndSetMaxWeight weight override pf) = sumWeight pf.
Proof.
  unfold checkAndSetMaxWeight, Inv.same_but_aggregates.
  destruct (F64.gt weight (maxWeight pf)), override; simpl; tauto.
Qed.

Lemma same_but_aggregates_trans pf1 pf2 pf3 :
  Inv.same_but_aggregates pf1 pf2 -> Inv.same_but_aggregates pf2 pf3 ->
  Inv.same_but_aggregates pf1 pf3.
Proof.
  unfold Inv.same_but_aggregates. intros H12 H23.
  repeat match goal with H : _ /\ _ |- _ => destruct H end.
  repeat split; congruence.
Qed.

(** One turn of the loop of [CalculateWeights] at a pointer that is
    allocated. *)
Lemma weigh_ok (r : R) (k : nat) pf (w : World G) l p :
  listParticles pf !! k = Some l -> heap w !! l = Some p ->
  weigh r (Z.of_nat k) pf w
  = Ok (set_sumWeight
          (sumWeight pf + CalculateWeight r p)%float
          (checkAndSetMaxWeight (CalculateWeight r p) false pf),
        mkWorld (<[l := Particle.UpdateWeight (CalculateWeight r p) p]>
                   (heap w)) (src w)).
Proof.
  intros Hl Hp. unfold weigh.
  rewrite (bind_ok _ _ _ _ _ (index_ok _ _ _ w Hl)).
  rewrite (bind_ok _ _ _ _ _ (load_ok _ _ w Hp)).
  rewrite (bind_ok _ _ _ _ _ (store_ok _ _ _ w Hp)).
  destruct (checkAndSetMaxWeight_same (CalculateWeight r p) false pf)
    as [_ ->].
  reflexivity.
Qed.

(** C10: [CalculateWeights] returns, and it changes nothing but the
    weights of the particles of the population and the aggregates
    [maxWeight] and [sumWeight]: the filter keeps its population (the
    same pointers in the same order), its estimates, its iteration
    counter and every other field; the random source is not drawn from;
    the store keeps its cells, each with the pose it had, and a cell
    outside the population is untouched. *)
Theorem CalculateWeights_frame (r : R) (pf : t) (w : World G) :
  Inv.allocated pf w ->
  exists pf' w',
    CalculateWeights r pf w = Ok (pf', w')
    /\ Inv.same_but_aggregates pf pf'
    /\ src w' = src w
    /\ dom (heap w') = dom (heap w)
    /\ forall l p, heap w !! l = Some p ->
         exists p', heap w' !! l = Some p' /\ Inv.same_pose p p'
                    /\ (l ∉ listParticles pf -> p' = p).
Proof.
  intros Halloc. unfold CalculateWeights.
  set (pf0 := set_sumWeight 0 (checkAndSetMaxWeight 0 true pf)).
  assert (H0 : Inv.same_but_aggregates pf pf0).
  { destruct (checkAndSetMaxWeight_same 0 true pf) as [Hs _].
    unfold pf0, Inv.same_but_aggregates in *. simpl. tauto. }
  assert (Hls : listParticles pf0 = listParticles pf) by apply H0.
  destruct (forRange_total
    (fun (_ : nat) pf' w' =>
       Inv.same_but_aggregates pf pf' /\ src w' = src w
       /\ dom (heap w') = dom (heap w)
       /\ forall l p, heap w !! l = Some p ->
            exists p', heap w' !! l = Some p' /\ Inv.same_pose p p'
                       /\ (l ∉ listParticles pf -> p' = p))
    (length (listParticles pf0)) 0%Z (weigh r) pf0 w)
    as (pf' & w' & Hrun & Hinv).
  - split; [exact H0|]. split; [reflexivity|]. split; [reflexivity|].
    intros l p Hp. exists p. unfold Inv.same_pose. tauto.
  - intros k pf1 w1 Hk (Hsame & Hsrc & Hdom & Hcells).
    assert (Hls1 : listParticles pf1 = listParticles pf) by apply Hsame.
    rewrite Hls in Hk.
    destruct (lookup_lt_is_Some_2 (listParticles pf) k Hk) as [l Hl].
    destruct (Halloc l) as [p Hp]; [eapply list_elem_of_lookup_2, Hl|].
    destruct (Hcells l p Hp) as (p1 & Hp1 & Hpose & _).
    rewrite <- Hls1 in Hl.
    eexists _, _. rewrite Z.add_0_l. split; [apply (weigh_ok r k pf1 w1 l p1 Hl Hp1)|].
    split; [|split; [|split]].
    + eapply same_but_aggregates_trans; [exact Hsame|].
      destruct (checkAndSetMaxWeight_same (CalculateWeight r p1) false pf1)
        as [Hs _].
      unfold Inv.same_but_aggregates in *. simpl. tauto.
    + simpl. exact Hsrc.
    + simpl. rewrite dom_insert_lookup_L by (eexists; exact Hp1).
      exact Hdom.
    + intros l0 p0 Hp0. simpl.
      destruct (decide (l = l0)) as [->|Hne].
      * rewrite lookup_insert_eq. eexists. split; [reflexivity|].
        assert (p0 = p) by congruence. subst p0.
        split.
        -- unfold Inv.same_pose in *. simpl. tauto.
        -- intros Hnot. exfalso. apply Hnot.
           rewrite <- Hls1. eapply list_elem_of_lookup_2, Hl.
      * rewrite lookup_insert_ne by exact Hne. apply Hcells, Hp0.
  - exists pf', w'. split; [exact Hrun|exact Hinv].
Qed.

Lemma maxWeight_checkAndSetMaxWeight weight pf :
  maxWeight (checkAndSetMaxWeight weight false pf)
  = if F64.gt weight (maxWeight pf) then weight else maxWeight pf.
Proof.
  unfold checkAndSetMaxWeight.
  destruct (F64.gt weight (maxWeight pf)); reflexivity.
Qed.

(** What the pass computes over a population of distinct particles:
    each particle gets the likelihood of its state before the pass,
    [sumWeight] is their sum from 0 and [maxWeight] their running
    maximum from 0; the filter is otherwise the same and the store has
    the same cells. *)
Lemma CalculateWeights_run (r : R) (pf : t) (w : World G) :
  Inv.allocated pf w -> NoDup (listParticles pf) ->
  exists pf' w',
    CalculateWeights r pf w = Ok (pf', w')
    /\ (forall l p, l ∈ listParticles pf -> heap w !! l = Some p ->
          heap w' !! l
          = Some (Particle.UpdateWeight (CalculateWeight r p) p))
    /\ sumWeight pf'
       = Spec.sum (Inv.likelihoods r (listParticles pf) w)
    /\ maxWeight pf'
       = Spec.running_max (Inv.likelihoods r (listParticles pf) w) 0
    /\ Inv.same_but_aggregates pf pf'
    /\ dom (heap w') = dom (heap w).
Proof.
  intros Halloc Hnodup. unfold CalculateWeights.
  set (ls := listParticles pf).
  set (ws := Inv.likelihoods r ls w).
  set (pf0 := set_sumWeight 0 (checkAndSetMaxWeight 0 true pf)).
  assert (H0 : Inv.same_but_aggregates pf pf0).
  { destruct (checkAndSetMaxWeight_same 0 true pf) as [Hs _].
    unfold pf0, Inv.same_but_aggregates in *. simpl. tauto. }
  assert (Hls : listParticles pf0 = ls) by apply H0.
  assert (Hmax0 : maxWeight pf0 = 0%float).
  { unfold pf0, checkAndSetMaxWeight.
    destruct (F64.gt 0 (maxWeight pf)); reflexivity. }
  destruct (forRange_total
    (fun (k : nat) pf' w' =>
       Inv.same_but_aggregates pf pf'
       /\ dom (heap w') = dom (heap w)
       /\ sumWeight pf' = Spec.sum (take k ws)
       /\ maxWeight pf' = Spec.running_max (take k ws) 0
       /\ (forall j l p, ls !! j = Some l -> (j < k)%nat ->
             heap w !! l = Some p ->
             heap w' !! l
             = Some (Particle.UpdateWeight (CalculateWeight r p) p))
       /\ (forall j l, ls !! j = Some l -> (k <= j)%nat ->
             heap w' !! l = heap w !! l))
    (length (listParticles pf0)) 0%Z (weigh r) pf0 w)
    as (pf' & w' & Hrun & Hinv).
  - split; [exact H0|]. split; [reflexivity|]. split; [reflexivity|].
    split; [exact Hmax0|]. split; [intros; lia|reflexivity].
  - intros k pf1 w1 Hk (Hsame & Hdom & Hsum & Hmax & Hdone & Htodo).
    assert (Hls1 : listParticles pf1 = ls) by apply Hsame.
    rewrite Hls in Hk.
    destruct (lookup_lt_is_Some_2 ls k Hk) as [l Hl].
    destruct (Halloc l) as [p Hp]; [eapply list_elem_of_lookup_2, Hl|].
    assert (Hp1 : heap w1 !! l = Some p)
      by (rewrite (Htodo k l Hl (Nat.le_refl k)); exact Hp).
    assert (Hw : ws !! k = Some (CalculateWeight r p)).
    { unfold ws, Inv.likelihoods. rewrite list_lookup_fmap, Hl. simpl.
      rewrite Hp. reflexivity. }
    assert (Hl1 : listParticles pf1 !! k = Some l) by (rewrite Hls1; exact Hl).
    eexists _, _. rewrite Z.add_0_l.
    split; [apply (weigh_ok r k pf1 w1 l p Hl1 Hp1)|].
    split; [|split; [|split; [|split; [|split]]]].
    + eapply same_but_aggregates_trans; [exact Hsame|].
      destruct (checkAndSetMaxWeight_same (CalculateWeight r p) false pf1)
        as [Hs _].
      unfold Inv.same_but_aggregates in *. simpl. tauto.
    + simpl. rewrite dom_insert_lookup_L by (eexists; exact Hp1).
      exact Hdom.
    + simpl. rewrite (take_S_r _ _ _ Hw). unfold Spec.sum.
      rewrite fold_left_app. simpl.
      rewrite Hsum. reflexivity.
    + simpl. rewrite (take_S_r _ _ _ Hw). unfold Spec.running_max.
      rewrite fold_left_app. simpl.
      change (maxWeight (checkAndSetMaxWeight (CalculateWeight r p) false pf1)
              = if F64.gt (CalculateWeight r p)
                     (Spec.running_max (take k ws) 0)
                then CalculateWeight r p
                else Spec.running_max (take k ws) 0).
      rewrite maxWeight_checkAndSetMaxWeight, Hmax. reflexivity.
    + intros j l0 p0 Hl0 Hj Hp0. simpl.
      destruct (decide (j = k)) as [->|Hne].
      * assert (l0 = l) by congruence. subst l0.
        assert (p0 = p) by congruence. subst p0.
        apply lookup_insert_eq.
      * assert (l <> l0).
        { intros <-. apply Hne. eapply NoDup_lookup; eassumption. }
        rewrite lookup_insert_ne by assumption.
        apply (Hdone j); [exact Hl0|lia|exact Hp0].
    + intros j l0 Hl0 Hj. simpl.
      assert (l <> l0).
      { intros <-. assert (j = k) by (eapply NoDup_lookup; eassumption). lia. }
      rewrite lookup_insert_ne by assumption.
      apply (Htodo j); [exact Hl0|lia].
  - exists pf', w'. split; [exact Hrun|].
    destruct Hinv as (Hsame & Hdom & Hsum & Hmax & Hdone & _).
    assert (Hlen : length ws = length (listParticles pf0)).
    { unfold ws, Inv.likelihoods. rewrite length_fmap, Hls. reflexivity. }
    rewrite take_ge in Hsum, Hmax by lia.
    split; [|split; [exact Hsum|split; [exact Hmax|split; assumption]]].
    intros l p Hin Hp.
    apply list_elem_of_lookup_1 in Hin as [j Hj].
    apply (Hdone j); [exact Hj| |exact Hp].
    rewrite Hls. eapply lookup_lt_Some, Hj.
Qed.

(** C7: over a population of distinct particles and a reading whose
    likelihoods are not negative, [CalculateWeights] returns; after it
    the weight of every particle is the likelihood of the particle as it
    was before the pass, [sumWeight] is the sum of these likelihoods and
    [maxWeight] is their maximum.  Neither aggregate depends on its
    value before the pass: [maxWeight] starts from 0 again. *)
Theorem CalculateWeights_weights (r : R) (pf : t) (w : World G) :
  Inv.allocated pf w -> NoDup (listParticles pf) ->
  (forall lik, lik ∈ Inv.likelihoods r (listParticles pf) w ->
     (0 <=? lik)%float = true) ->
  exists pf' w',
    CalculateWeights r pf w = Ok (pf', w')
    /\ (forall l p, l ∈ listParticles pf -> heap w !! l = Some p ->
          exists p', heap w' !! l = Some p'
                     /\ Particle.Weight p' = CalculateWeight r p)
    /\ sumWeight pf'
       = Spec.sum (Inv.likelihoods r (listParticles pf) w)
    /\ Spec.is_maximum (maxWeight pf')
         (Inv.likelihoods r (listParticles pf) w).
Proof.
  intros Halloc Hnodup Hpos.
  destruct (CalculateWeights_run r pf w Halloc Hnodup)
    as (pf' & w' & Hrun & Hcells & Hsum & Hmax & _).
  exists pf', w'. split; [exact Hrun|]. split; [|split; [exact Hsum|]].
  - intros l p Hin Hp. eexists. split; [apply (Hcells l p Hin Hp)|].
    reflexivity.
  - rewrite Hmax. apply running_max_is_maximum, Hpos.
Qed.
End Weighting.

(** ** Resampling without a positive weight *)

Section Resampling.
Context {G : Type} `{!RandSource G} `{!RandLaws G}.
Import ParticleFilter.

(** The normalisation loop over pointers that are allocated. *)
Lemma normalize_loop_ok pf (n : nat) (w : World G) :
  (n <= length (listParticles pf))%nat -> Inv.allocated pf w ->
  exists w', forRange n 0 (normalize pf) tt w = Ok (tt, w')
             /\ src w' = src w /\ dom (heap w') = dom (heap w).
Proof.
  intros Hn Halloc.
  destruct (forRange_total
    (fun (_ : nat) (_ : unit) w' =>
       src w' = src w /\ dom (heap w') = dom (heap w))
    n 0%Z (normalize pf) tt w) as ([] & w' & Hrun & Hinv).
  - split; reflexivity.
  - intros k [] w1 Hk (Hsrc & Hdom).
    destruct (lookup_lt_is_Some_2 (listParticles pf) k ltac:(lia)) as [l Hl].
    assert (Hin : l ∈ dom (heap w1)).
    { rewrite Hdom. apply elem_of_dom, Halloc.
      eapply list_elem_of_lookup_2, Hl. }
    apply elem_of_dom in Hin as [p Hp].
    eexists tt, _. rewrite Z.add_0_l. split.
    + unfold normalize.
      rewrite (bind_ok _ _ _ _ _ (index_ok _ _ _ w1 Hl)).
      rewrite (bind_ok _ _ _ _ _ (load_ok _ _ w1 Hp)).
      apply (store_ok _ _ _ w1 Hp).
    + simpl. split; [exact Hsrc|].
      rewrite dom_insert_lookup_L by (eexists; exact Hp). exact Hdom.
  - exists w'. split; [exact Hrun|exact Hinv].
Qed.

(** A walk whose [beta] is not positive takes no step and needs no
    fuel. *)
Lemma wheelWalk_done fuel pf beta startIdx a (w : World G) :
  F64.gt beta 0 = false -> wheelWalk fuel pf beta startIdx a w = Ok (a, w).
Proof. intros Hb. destruct fuel; simpl; rewrite Hb; reflexivity. Qed.

(** A turn of the wheel when [maxWeight] is not positive: the two draws
    are made, nothing is selected. *)
Lemma spin_no_walk fuel k pf i a (w : World G) :
  (0 < k)%Z -> F64.gt (maxWeight pf) 0 = false ->
  exists g, spin fuel k pf i a w = Ok (a, mkWorld (heap w) g).
Proof.
  intros Hk Hmax. unfold spin, bind, draw, randIntn.
  pose proof (Float64_range (src w)) as [Hu _].
  destruct (Float64 (src w)) as [u g1]. simpl in *.
  destruct (Z.leb_spec k 0) as [|_]; [lia|].
  unfold draw. simpl. destruct (Intn k g1) as [idx g2]. simpl.
  exists g2. apply wheelWalk_done, beta_not_positive; assumption.
Qed.

(** The refill loop appends one new particle per turn. *)
Lemma refill_ok pf (n : nat) ps (w : World G) :
  exists ps' w',
    forRange n 0 (fun _ ps => appendNew pf ps) ps w = Ok (ps', w')
    /\ length ps' = (length ps + n)%nat.
Proof.
  destruct (forRange_total
    (fun (k : nat) ps' (_ : World G) => length ps' = (length ps + k)%nat)
    n 0%Z (fun _ ps => appendNew pf ps) ps w) as (ps' & w' & Hrun & Hinv).
  - simpl. lia.
  - intros k ps1 w1 _ Hlen.
    destruct (appendNew_ok pf ps1 w1) as (l & p & g & Happ & _ & _).
    eexists _, _. split; [exact Happ|].
    rewrite length_app. simpl. lia.
  - exists ps', w'. split; [exact Hrun|exact Hinv].
Qed.

(** When [maxWeight] is not positive, [ResampleAndFuzz] returns on any
    fuel: no walk of the wheel takes a step, no particle is selected,
    the estimates are [0 / float64(numIntResample)] and the new
    population holds the refill particles only. *)
Lemma ResampleAndFuzz_no_selection fuel pf (w : World G) :
  (Z.to_nat (numSamples pf) <= length (listParticles pf))%nat ->
  Inv.allocated pf w ->
  F64.gt (maxWeight pf) 0 = false ->
  let k := F64.to_int (F64.of_int (numSamples pf) * percentResample pf) in
  exists pf' w',
    ResampleAndFuzz fuel pf w = Ok (pf', w')
    /\ EstimatedX pf' = (0 / F64.of_int k)%float
    /\ EstimatedY pf' = (0 / F64.of_int k)%float
    /\ EstimatedHeading pf' = (0 / F64.of_int k)%float
    /\ length (listParticles pf')
       = Z.to_nat (F64.wrap64 (numSamples pf - k))
    /\ numSamples pf' = numSamples pf
    /\ iteration pf' = F64.wrap64 (iteration pf + 1).
Proof.
  intros Hlen Halloc Hmax k. unfold ResampleAndFuzz.
  set (pf1 := set_iteration (F64.wrap64 (iteration pf + 1)) pf).
  change (numSamples pf1) with (numSamples pf).
  change (percentResample pf1) with (percentResample pf).
  fold k.
  destruct (normalize_loop_ok pf1 (Z.to_nat (numSamples pf)) w Hlen Halloc)
    as (w1 & Hnorm & _ & _).
  rewrite (bind_ok _ _ _ _ _ Hnorm).
  set (a0 := {| xLoc := 0; yLoc := 0; heading := 0; newParticleList := [] |}).
  destruct (forRange_total
    (fun (_ : nat) a (_ : World G) => a = a0)
    (Z.to_nat k) 0%Z (spin fuel k pf1) a0 w1) as (a & w2 & Hspin & ->).
  - reflexivity.
  - intros j a w' Hj ->.
    destruct (spin_no_walk fuel k pf1 (0 + Z.of_nat j)%Z a0 w'
                ltac:(lia) Hmax) as (g & Hs).
    eexists _, _. split; [exact Hs|reflexivity].
  - rewrite (bind_ok _ _ _ _ _ Hspin). simpl.
    match goal with
    | |- context [forRange ?n 0%Z (fun _ ps => appendNew ?q ps) []] =>
        destruct (refill_ok q n [] w2) as (ps & w3 & Hfill & Hps)
    end.
    rewrite (bind_ok _ _ _ _ _ Hfill).
    eexists _, _. split; [reflexivity|]. simpl.
    repeat split; try reflexivity. exact Hps.
Qed.

(** X20.  When [maxWeight] is not positive (zero, negative or NaN), no
    draw of [beta] is positive: no walk of the wheel is entered, and
    [ResampleAndFuzz] returns whatever the fuel, none included. *)
Lemma ResampleAndFuzz_returns_without_positive_maxWeight
    fuel pf (w : World G) :
  (Z.to_nat (numSamples pf) <= length (listParticles pf))%nat ->
  Inv.allocated pf w ->
  F64.gt (maxWeight pf) 0 = false ->
  exists pf' w', ResampleAndFuzz fuel pf w = Ok (pf', w').
Proof.
  intros Hlen Halloc Hmax.
  destruct (ResampleAndFuzz_no_selection fuel pf w Hlen Halloc Hmax)
    as (pf' & w' & Hrun & _).
  exists pf', w'. exact Hrun.
Qed.

(** A walk never ends when [beta] is positive and absorbs the weight of
    every particle. *)
Lemma wheelWalk_stalls pf (w : World G) beta a :
  F64.gt beta 0 = true ->
  numSamples pf = Z.of_nat (length (listParticles pf)) ->
  (numSamples pf < 2 ^ 63)%Z ->
  Inv.absorbed pf w beta ->
  forall fuel idx, (0 <= idx < numSamples pf)%Z ->
    wheelWalk fuel pf beta idx a w = OutOfFuel.
Proof.
  intros Hbeta Hlen Hbound Hcells fuel.
  induction fuel as [|fuel IH]; intros idx Hidx; simpl; rewrite Hbeta;
    [reflexivity|].
  destruct (lookup_lt_is_Some_2 (listParticles pf) (Z.to_nat idx)
              ltac:(lia)) as [l Hl].
  destruct (Hcells l) as (p & Hp & Hgt & Hsub);
    [eapply list_elem_of_lookup_2, Hl|].
  rewrite <- (Z2Nat.id idx) at 1 by lia.
  rewrite (bind_ok _ _ _ _ _ (index_ok _ _ _ w Hl)).
  rewrite (bind_ok _ _ _ _ _ (load_ok _ _ w Hp)).
  rewrite Hgt. unfold bind at 1. unfold ret at 1.
  destruct (Z.eqb_spec (numSamples pf) 0) as [|_]; [lia|].
  rewrite Hsub. apply IH.
  unfold F64.wrap64. rewrite Z.mod_small by lia.
  replace (idx + 1 + 2 ^ 63 - 2 ^ 63)%Z with (idx + 1)%Z by lia.
  pose proof (Z.rem_bound_pos (idx + 1) (numSamples pf)). lia.
Qed.

Lemma spin_stalls fuel k pf i a (w : World G) :
  (0 < k <= numSamples pf)%Z ->
  numSamples pf = Z.of_nat (length (listParticles pf)) ->
  (numSamples pf < 2 ^ 63)%Z ->
  F64.gt (fst (Float64 (src w)) * maxWeight pf * 2) 0 = true ->
  Inv.absorbed pf w (fst (Float64 (src w)) * maxWeight pf * 2) ->
  spin fuel k pf i a w = OutOfFuel.
Proof.
  intros Hk Hlen Hbound Hbeta Habs. unfold spin, bind, draw, randIntn.
  destruct (Float64 (src w)) as [u g1]. simpl in *.
  destruct (Z.leb_spec k 0) as [|_]; [lia|].
  unfold draw. simpl.
  pose proof (Intn_range k g1 ltac:(lia)) as Hidx.
  destruct (Intn k g1) as [idx g2]. simpl in *.
  apply (wheelWalk_stalls pf (mkWorld (heap w) g2) _ _
           Hbeta Hlen Hbound Habs).
  lia.
Qed.

(** [ResampleAndFuzz] does not return when, after the normalisation, the
    first [beta] is positive and absorbs every weight. *)
Lemma ResampleAndFuzz_stalls fuel pf (w w1 : World G) :
  let pf1 := set_iteration (F64.wrap64 (iteration pf + 1)) pf in
  let k := F64.to_int (F64.of_int (numSamples pf) * percentResample pf) in
  forRange (Z.to_nat (numSamples pf)) 0 (normalize pf1) tt w = Ok (tt, w1) ->
  (0 < k <= numSamples pf)%Z ->
  numSamples pf = Z.of_nat (length (listParticles pf)) ->
  (numSamples pf < 2 ^ 63)%Z ->
  F64.gt (fst (Float64 (src w1)) * maxWeight pf * 2) 0 = true ->
  Inv.absorbed pf w1 (fst (Float64 (src w1)) * maxWeight pf * 2) ->
  ResampleAndFuzz fuel pf w = OutOfFuel.
Proof.
  intros pf1 k Hnorm Hk Hlen Hbound Hbeta Habs. unfold ResampleAndFuzz.
  fold pf1. change (numSamples pf1) with (numSamples pf).
  change (percentResample pf1) with (percentResample pf). fold k.
  rewrite (bind_ok _ _ _ _ _ Hnorm).
  destruct (Z.to_nat k) as [|n] eqn:Hn; [lia|].
  unfold bind at 1. simpl forRange. unfold bind at 1.
  rewrite (spin_stalls fuel k pf1 0%Z _ w1 Hk Hlen Hbound Hbeta Habs).
  reflexivity.
Qed.
End Resampling.

(** C5 fails on the code: the walk of the wheel can go on for ever.  Two
    particles whose likelihoods, [2^1023] each, add up to an infinite
    [sumWeight].  The weights are divided by it in place and are 0, while
    [beta] is drawn from [maxWeight], which the weighting pass left at
    [2^1023]: with the draw 0.5, [beta = 2^1023].  No weight is above
    [beta] and taking a weight off leaves [beta] as it was, so the walk
    steps from one particle to the other without end.  No amount of fuel
    lets the cycle return or fail. *)
Theorem wheel_spins_forever :
  ~ exists fuel,
      Runs.cycle 2 0x1p1023 fuel Runs.overflow_world <> OutOfFuel.
Proof.
  intros [fuel Hne]. apply Hne. clear Hne. unfold Runs.cycle.
  assert (Hpre :
    bind (ParticleFilter.CreatePF 2 1 0 10 0 10 0.125 0.125 0.125)
         (ParticleFilter.CalculateWeights (ConstReading.mk 0x1p1023))
         Runs.overflow_world
    = Ok (Runs.overflow_filter, Runs.overflow_weighted))
    by (vm_compute; reflexivity).
  apply bind_inv in Hpre as (pf0 & w0 & Hc & Hw).
  rewrite (bind_ok _ _ _ _ _ Hc), (bind_ok _ _ _ _ _ Hw).
  apply (ResampleAndFuzz_stalls fuel Runs.overflow_filter
           Runs.overflow_weighted Runs.overflow_normalized).
  - vm_compute. reflexivity.
  - vm_compute. split; [reflexivity|discriminate].
  - reflexivity.
  - reflexivity.
  - vm_compute. reflexivity.
  - intros l Hl. exists (Particle.mk 0 0 0 0).
    apply list_elem_of_In in Hl. simpl in Hl.
    destruct Hl as [<-|[<-|[]]]; vm_compute; repeat split; reflexivity.
Qed.

(** ** A weighting pass that finds every particle implausible *)

Section Degenerate.
Context {G : Type} `{!RandSource G} `{!RandLaws G} {R : Type} `{!Reading R}.
Import ParticleFilter.

Lemma sum_zeros ws : (forall x, x ∈ ws -> x = 0%float) -> Spec.sum ws = 0%float.
Proof.
  unfold Spec.sum. induction ws as [|x ws IH]; intros Hz; [reflexivity|].
  simpl. rewrite (Hz x) by left.
  change (0 + 0)%float with 0%float. apply IH.
  intros y Hy. apply Hz. right. exact Hy.
Qed.

Lemma running_max_zeros ws :
  (forall x, x ∈ ws -> x = 0%float) -> Spec.running_max ws 0 = 0%float.
Proof.
  unfold Spec.running_max. induction ws as [|x ws IH]; intros Hz;
    [reflexivity|].
  simpl. rewrite (Hz x) by left.
  change (F64.gt 0 0) with false. apply IH.
  intros y Hy. apply Hz. right. exact Hy.
Qed.

(** C3, as the code has it: no error is raised.  When the reading gives
    every particle of a populated filter the likelihood 0, [Update]
    (the weighting pass, then [ResampleAndFuzz]) returns normally on any
    fuel: [sumWeight] is 0 and the three estimates are
    [0 / float64(numIntResample)], which is 0 when
    [float64(numIntResample)] is positive. *)
Theorem Update_with_zero_likelihoods fuel (r : R) pf (w : World G) :
  Inv.populated pf w ->
  (forall lik, lik ∈ Inv.likelihoods r (listParticles pf) w ->
     lik = 0%float) ->
  let k := F64.to_int (F64.of_int (numSamples pf) * percentResample pf) in
  exists pf' w',
    Update fuel r pf w = Ok (pf', w')
    /\ sumWeight pf' = 0%float
    /\ EstimatedX pf' = (0 / F64.of_int k)%float
    /\ EstimatedY pf' = (0 / F64.of_int k)%float
    /\ EstimatedHeading pf' = (0 / F64.of_int k)%float
    /\ ((0 <? F64.of_int k)%float = true ->
        EstimatedX pf' = 0%float /\ EstimatedY pf' = 0%float
        /\ EstimatedHeading pf' = 0%float).
Proof.
  intros (Hlen & Hnodup & Halloc) Hzero k. unfold Update.
  destruct (CalculateWeights_run r pf w Halloc Hnodup)
    as (pf1 & w1 & Hrun & _ & Hsum & Hmax & Hsame & Hdom).
  rewrite (bind_ok _ _ _ _ _ Hrun).
  rewrite (sum_zeros _ Hzero) in Hsum.
  rewrite (running_max_zeros _ Hzero) in Hmax.
  destruct Hsame as (Hn & Hp & Hls & _).
  destruct (ResampleAndFuzz_no_selection fuel pf1 w1)
    as (pf2 & w2 & Hres & Hx & Hy & Hh & _).
  - rewrite Hn, Hls, Hlen. lia.
  - intros l Hl. rewrite Hls in Hl. apply elem_of_dom. rewrite Hdom.
    apply elem_of_dom, Halloc, Hl.
  - rewrite Hmax. reflexivity.
  - rewrite Hn, Hp in *. fold k in Hx, Hy, Hh.
    exists pf2, w2. split; [exact Hres|].
    split; [|repeat split; try assumption].
    + unfold ResampleAndFuzz in Hres.
      repeat (apply bind_inv in Hres as (? & ? & _ & Hres)).
      unfold ret in Hres. injection Hres as <- _. simpl. exact Hsum.
    + rewrite Hx. apply zero_div_pos. assumption.
    + rewrite Hy. apply zero_div_pos. assumption.
    + rewrite Hh. apply zero_div_pos. assumption.
Qed.
End Degenerate.

(** C3, as the claim has it, fails: after a weighting pass in which the
    reading finds both particles of a filter implausible, [sumWeight] is
    0 and [ResampleAndFuzz] raises nothing; it returns normally, with the
    estimate (0, 0) and the heading 0. *)
Lemma ResampleAndFuzz_raises_nothing :
  match Runs.degenerate_cycle 2 0 (Runs.fresh_world []) with
  | Ok (pf, _) =>
      ParticleFilter.sumWeight pf = 0%float
      /\ ParticleFilter.GetPosition pf = (0%float, 0%float)
      /\ ParticleFilter.GetHeading pf = 0%float
  | _ => False
  end.
Proof. vm_compute. repeat split; reflexivity. Qed.

(** Where the fraction leaves nothing to resample, the estimates are
    0/0: a filter of one with the fraction 0.5 gets the estimate NaN,
    whatever the weights are. *)
Lemma ResampleAndFuzz_estimate_nan :
  match bind (ParticleFilter.CreatePF 1 0.5 0 10 0 10 0.125 0.125 0.125)
             (ParticleFilter.Update 0 (ConstReading.mk 1))
             (Runs.fresh_world []) with
  | Ok (pf, _) =>
      ParticleFilter.sumWeight pf = 1%float
      /\ F64.ordered (ParticleFilter.EstimatedX pf) = false
      /\ length (ParticleFilter.listParticles pf) = 1%nat
  | _ => False
  end.
Proof. vm_compute. repeat split; reflexivity. Qed.

(** ** The statements above at a concrete filter

    The filter of two particles [Runs.half_filter] over the store
    [Runs.half_world] meets the premises of the theorems. *)

Ltac population_cases H :=
  apply list_elem_of_In in H; simpl in H;
  repeat match type of H with
         | _ \/ _ => destruct H as [H|H]
         end;
  try contradiction; subst.

Ltac half_allocated :=
  let l := fresh "l" in
  let Hl := fresh "Hl" in
  intros l Hl; population_cases Hl; vm_compute; eauto.

Ltac half_distinct :=
  apply NoDup_ListNoDup; repeat constructor; simpl; intuition lia.

Lemma CalculateWeights_frame_witness :
  exists pf' w',
    ParticleFilter.CalculateWeights (ConstReading.mk 1)
      Runs.half_filter Runs.half_world = Ok (pf', w')
    /\ Inv.same_but_aggregates Runs.half_filter pf'
    /\ src w' = src Runs.half_world
    /\ dom (heap w') = dom (heap Runs.half_world)
    /\ forall l p, heap Runs.half_world !! l = Some p ->
         exists p', heap w' !! l = Some p' /\ Inv.same_pose p p'
           /\ (l ∉ ParticleFilter.listParticles Runs.half_filter -> p' = p).
Proof.
  apply (CalculateWeights_frame (ConstReading.mk 1)
           Runs.half_filter Runs.half_world).
  half_allocated.
Defined.

Lemma CalculateWeights_weights_witness :
  exists pf' w',
    ParticleFilter.CalculateWeights (ConstReading.mk 1)
      Runs.half_filter Runs.half_world = Ok (pf', w')
    /\ (forall l p,
          l ∈ ParticleFilter.listParticles Runs.half_filter ->
          heap Runs.half_world !! l = Some p ->
          exists p', heap w' !! l = Some p'
            /\ Particle.Weight p' = CalculateWeight (ConstReading.mk 1) p)
    /\ ParticleFilter.sumWeight pf'
       = Spec.sum (Inv.likelihoods (ConstReading.mk 1)
                     (ParticleFilter.listParticles Runs.half_filter)
                     Runs.half_world)
    /\ Spec.is_maximum (ParticleFilter.maxWeight pf')
         (Inv.likelihoods (ConstReading.mk 1)
            (ParticleFilter.listParticles Runs.half_filter)
            Runs.half_world).
Proof.
  apply (CalculateWeights_weights (ConstReading.mk 1)
           Runs.half_filter Runs.half_world).
  - half_allocated.
  - half_distinct.
  - intros lik Hl. population_cases Hl; vm_compute; reflexivity.
Defined.

Lemma ResampleAndFuzz_returns_without_positive_maxWeight_witness :
  exists pf' w',
    ParticleFilter.ResampleAndFuzz 0 Runs.half_filter Runs.half_world
    = Ok (pf', w').
Proof.
  apply (ResampleAndFuzz_returns_without_positive_maxWeight 0
           Runs.half_filter Runs.half_world).
  - vm_compute. lia.
  - half_allocated.
  - vm_compute. reflexivity.
Defined.

Lemma Update_with_zero_likelihoods_witness :
  exists pf' w',
    ParticleFilter.Update 0 ZeroReading.mk Runs.half_filter Runs.half_world
    = Ok (pf', w')
    /\ ParticleFilter.sumWeight pf' = 0%float
    /\ ParticleFilter.EstimatedX pf' = (0 / F64.of_int 1)%float
    /\ ParticleFilter.EstimatedY pf' = (0 / F64.of_int 1)%float
    /\ ParticleFilter.EstimatedHeading pf' = (0 / F64.of_int 1)%float
    /\ ((0 <? F64.of_int 1)%float = true ->
        ParticleFilter.EstimatedX pf' = 0%float
        /\ ParticleFilter.EstimatedY pf' = 0%float
        /\ ParticleFilter.EstimatedHeading pf' = 0%float).
Proof.
  apply (Update_with_zero_likelihoods 0 ZeroReading.mk
           Runs.half_filter Runs.half_world).
  - split; [reflexivity|]. split; [half_distinct|half_allocated].
  - intros lik Hl. population_cases Hl; vm_compute; reflexivity.
Defined.

(** ** The weight kernel *)

Section Kernel.
Context `{MathLib}.
Local Open Scope float_scope.

(** The kernel at the mean, where the residual is [+0]. *)
Lemma CalculateNormDist_at_mean mu sigma :
  Pow 0 2 = 0 -> Pow F64.E neg_zero = 1 ->
  F64.finite mu = true -> (0 <? sigma) = true ->
  CalculateNormDist mu mu sigma = 1 / (sigma * sqrt F64.TwoPi).
Proof.
  intros Hp0 Hp1 Hmu Hsigma. unfold CalculateNormDist.
  rewrite (sub_diag mu Hmu), (zero_div_pos sigma Hsigma), Hp0.
  change (-0.5 * 0) with neg_zero. rewrite Hp1. apply mul_1_r.
Qed.



End Kernel.



(** ** Headings after a move *)


Section Headings.
Context `{MathLib} {G : Type} `{!RandSource G}.
Local Open Scope float_scope.


End Headings.


(** ** How many particles a resampling can return *)

(** C1 fails on the code: a turn of the wheel that selects nothing adds
    nothing to the new population.  (1) A filter of one particle whose
    reading gives the likelihood 0: [sumWeight] and [maxWeight] are 0,
    [beta] is 0, the walk is not entered, and the population after
    [ResampleAndFuzz] is empty.  (2) A filter of two particles of equal
    likelihood, with the draws 0.25 and 0.5 for [beta]: the walks reach
    [beta = 0] at a particle whose weight equals [beta], which the strict
    comparison does not select; the population is empty again. *)
Theorem ResampleAndFuzz_loses_particles :
  match Runs.degenerate_cycle 1 0 (Runs.fresh_world []) with
  | Ok (pf, _) =>
      ParticleFilter.numSamples pf = 1%Z
      /\ ParticleFilter.listParticles pf = []
  | _ => False
  end
  /\ match Runs.cycle 2 1 5
            (Runs.fresh_world [0; 0; 0; 0; 0; 0; 0.25; 0.5]%float) with
     | Ok (pf, _) =>
         ParticleFilter.numSamples pf = 2%Z
         /\ ParticleFilter.listParticles pf = []
     | _ => False
     end.
Proof. split; vm_compute; split; reflexivity. Qed.

(** With draws that make every walk select, the same filter of two does
    come back with two particles. *)
Lemma ResampleAndFuzz_full_population :
  match Runs.cycle 2 1 5
          (Runs.fresh_world [0; 0; 0; 0; 0; 0; 0.125; 0.125]%float) with
  | Ok (pf, _) => length (ParticleFilter.listParticles pf) = 2%nat
  | _ => False
  end.
Proof. vm_compute. reflexivity. Qed.

(** After a population was lost, the next resampling indexes past its
    end. *)
Lemma ResampleAndFuzz_after_loss_panics :
  bind (Runs.degenerate_cycle 1 0) (ParticleFilter.ResampleAndFuzz 0)
    (Runs.fresh_world [])
  = Panic "index out of range".
Proof. vm_compute. reflexivity. Qed.

Section AtMost.
Context {G : Type} `{!RandSource G}.
Import ParticleFilter.
Local Open Scope float_scope.

Lemma leb_not_ltb x y : (x <=? y) = true -> (y <? x) = false.
Proof.
  rewrite FloatAxioms.leb_spec, FloatAxioms.ltb_spec. unfold SFleb, SFltb.
  rewrite (SFcompare_swap (Prim2SF x) (Prim2SF y)).
  destruct (SFcompare (Prim2SF x) (Prim2SF y)) as [[]|]; simpl; congruence.
Qed.

(** Of two floats in strict order, both are numbers or the difference
    is an infinity or the lower one, which is not positive. *)
Lemma num_dec_aux x y :
  (x <? y) = true ->
  (num x /\ num y) \/ (0 <? x - y) = false.
Proof.
  unfold num. rewrite !FloatAxioms.ltb_spec, sub_spec.
  destruct (Prim2SF x) as [sx|sx| |sx mx ex],
    (Prim2SF y) as [sy|sy| |sy my ey]; simpl; try discriminate;
    try (left; split; exact I);
    destruct sx; try destruct sy; simpl; try discriminate;
    intros _; right; reflexivity.
Qed.

(** Once a weight above [beta] is taken off, [beta] is not positive. *)
Lemma sub_not_positive beta weight :
  F64.gt weight beta = true -> F64.gt (beta - weight) 0 = false.
Proof.
  unfold F64.gt. intros Hlt.
  destruct (num_dec_aux beta weight Hlt) as [[Hb Hw]|Hinf].
  - apply leb_not_ltb. rewrite sub_add_opp.
    pose proof (ltb_val beta weight Hb Hw Hlt) as Hv.
    pose proof (val_opp weight) as Hopp.
    apply (add_le beta (- weight) 0 Hb (num_opp _ Hw) I);
      change (val 0) with 0%Z; lia.
  - exact Hinf.
Qed.

(** The copy with noise always succeeds and appends one particle. *)
Lemma fuzz_ok pf p a (w : World G) :
  exists a' w',
    fuzz pf p a w = Ok (a', w')
    /\ length (newParticleList a') = S (length (newParticleList a)).
Proof.
  unfold fuzz, bind, draw, alloc, ret.
  destruct (NormalRand (locDistribution pf) (src w)) as [n1 g1]. simpl.
  destruct (NormalRand (locDistribution pf) g1) as [n2 g2]. simpl.
  destruct (NormalRand (angDistribution pf) g2) as [n3 g3]. simpl.
  eexists _, _. split; [reflexivity|]. simpl.
  rewrite length_app. simpl. lia.
Qed.

(** A walk that returns has selected one particle or none: a selection
    ends it. *)
Lemma wheelWalk_at_most_one fuel pf beta startIdx a (w : World G) a' w' :
  wheelWalk fuel pf beta startIdx a w = Ok (a', w') ->
  (length (newParticleList a') <= S (length (newParticleList a)))%nat.
Proof.
  revert beta startIdx a w.
  induction fuel as [|fuel IH]; intros beta startIdx a w; simpl;
    destruct (F64.gt beta 0) eqn:Hbeta;
    try (unfold ret; intros [= <- <-]; lia); try discriminate.
  intros Hrun.
  apply bind_inv in Hrun as (l & w1 & _ & Hrun).
  apply bind_inv in Hrun as (p & w2 & _ & Hrun).
  apply bind_inv in Hrun as (a1 & w3 & Hsel & Hrun).
  destruct (numSamples pf =? 0)%Z; [discriminate|].
  destruct (F64.gt (Particle.Weight p) beta) eqn:Hgt.
  - destruct (fuzz_ok pf p a w2) as (a2 & w4 & Hf & Hlen).
    rewrite Hf in Hsel. injection Hsel as <- <-.
    rewrite (wheelWalk_done fuel pf _ _ a2 w4
               (sub_not_positive beta _ Hgt)) in Hrun.
    injection Hrun as <- <-. lia.
  - unfold ret in Hsel. injection Hsel as <- <-.
    apply IH in Hrun. exact Hrun.
Qed.

Lemma spin_at_most_one fuel k pf i a (w : World G) a' w' :
  spin fuel k pf i a w = Ok (a', w') ->
  (length (newParticleList a') <= S (length (newParticleList a)))%nat.
Proof.
  unfold spin. intros Hrun.
  apply bind_inv in Hrun as (u & w1 & _ & Hrun).
  apply bind_inv in Hrun as (idx & w2 & _ & Hrun).
  eapply wheelWalk_at_most_one, Hrun.
Qed.

(** X7.  When [ResampleAndFuzz] returns, the new population has the
    refill particles and at most one particle for each turn of the
    wheel: with a number of turns between 0 and [numSamples], at most
    [numSamples] particles. *)
Lemma ResampleAndFuzz_at_most fuel pf (w : World G) pf' w' :
  let k := F64.to_int (F64.of_int (numSamples pf) * percentResample pf) in
  (0 <= k <= numSamples pf)%Z -> (numSamples pf < 2 ^ 63)%Z ->
  ResampleAndFuzz fuel pf w = Ok (pf', w') ->
  (Z.to_nat (numSamples pf - k) <= length (listParticles pf')
   <= Z.to_nat (numSamples pf))%nat.
Proof.
  intros k Hk Hbound. unfold ResampleAndFuzz.
  set (pf1 := set_iteration (F64.wrap64 (iteration pf + 1)) pf).
  change (numSamples pf1) with (numSamples pf).
  change (percentResample pf1) with (percentResample pf). fold k.
  assert (Hwrap : F64.wrap64 (numSamples pf - k) = (numSamples pf - k)%Z).
  { unfold F64.wrap64. rewrite Z.mod_small by lia. lia. }
  rewrite Hwrap. intros Hrun.
  apply bind_inv in Hrun as ([] & w1 & _ & Hrun).
  apply bind_inv in Hrun as (a & w2 & Hspin & Hrun).
  apply bind_inv in Hrun as (ps & w3 & Hfill & Hrun).
  unfold ret in Hrun. injection Hrun as <- <-. simpl.
  assert (Ha : (length (newParticleList a) <= Z.to_nat k)%nat).
  { refine (forRange_inv
              (fun (j : nat) a (_ : World G) =>
                 (length (newParticleList a) <= j)%nat)
              _ _ _ _ _ _ _ _ _ Hspin); [simpl; lia|].
    intros j a0 w0 a1 w4 _ Hj Hs. apply spin_at_most_one in Hs. lia. }
  match type of Hfill with
  | forRange ?n 0%Z (fun _ ps => appendNew ?q ps) ?l0 w2 = _ =>
      destruct (refill_ok q n l0 w2) as (ps' & w4 & Hfill' & Hlen)
  end.
  rewrite Hfill in Hfill'. injection Hfill' as <- <-.
  rewrite Hlen. lia.
Qed.
End AtMost.

(** * Further properties of the code *)

(** ** Calls that have returned, and loops that fail *)

Section MonadInv.
Context {G : Type}.

Lemma index_inv (s : list nat) i (w : World G) l w' :
  index s i w = Ok (l, w') ->
  w' = w /\ (0 <= i)%Z /\ s !! Z.to_nat i = Some l.
Proof.
  unfold index. destruct (Z.ltb_spec i 0); [discriminate|].
  destruct (s !! Z.to_nat i) eqn:E; [|discriminate].
  unfold ret. intros [= <- <-]. auto.
Qed.

Lemma load_inv l (w : World G) p w' :
  load l w = Ok (p, w') -> w' = w /\ heap w !! l = Some p.
Proof.
  unfold load. destruct (heap w !! l) eqn:E; [|discriminate].
  intros [= <- <-]. auto.
Qed.

Lemma store_inv l v (w : World G) u w' :
  store l v w = Ok (u, w') ->
  w' = mkWorld (<[l := v]> (heap w)) (src w) /\ is_Some (heap w !! l).
Proof.
  unfold store. destruct (heap w !! l) eqn:E; [|discriminate].
  intros [= <- <-]. eauto.
Qed.

Lemma draw_inv {A} (f : G -> A * G) (w : World G) a w' :
  draw f w = Ok (a, w') -> heap w' = heap w.
Proof.
  unfold draw. destruct (f (src w)) as [a0 g]. intros [= <- <-]. reflexivity.
Qed.
End MonadInv.

Section LoopOutcomes.
Context {G : Type}.
Local Open Scope go_scope.

(** A loop whose body does not panic under an invariant does not
    panic. *)
Lemma forRange_no_panic {T} (I : nat -> T -> World G -> Prop)
    n i0 (body : Z -> T -> M G T) s w :
  I 0%nat s w ->
  (forall k s w, (k < n)%nat -> I k s w ->
     match body (i0 + Z.of_nat k)%Z s w with
     | Ok (s', w') => I (S k) s' w'
     | Panic _ => False
     | OutOfFuel => True
     end) ->
  match forRange n i0 body s w with
  | Ok (s', w') => I n s' w'
  | Panic _ => False
  | OutOfFuel => True
  end.
Proof.
  revert I i0 s w. induction n as [|n IH]; intros I i0 s w H0 Hstep.
  - exact H0.
  - simpl. unfold bind.
    pose proof (Hstep 0%nat s w ltac:(lia) H0) as Hb.
    rewrite Z.add_0_r in Hb.
    destruct (body i0 s w) as [[s1 w1]| |]; [|contradiction|constructor].
    apply (IH (fun k => I (S k)) (i0 + 1)%Z s1 w1 Hb).
    intros k s' w' Hk HI.
    pose proof (Hstep (S k) s' w' ltac:(lia) HI) as Hb'.
    replace (i0 + 1 + Z.of_nat k)%Z with (i0 + Z.of_nat (S k))%Z by lia.
    exact Hb'.
Qed.

(** A loop panics when its body does, after turns that went well. *)
Lemma forRange_panic {T} (I : nat -> T -> World G -> Prop)
    n m i0 (body : Z -> T -> M G T) s w msg :
  (m < n)%nat -> I 0%nat s w ->
  (forall k s w, (k < m)%nat -> I k s w ->
     exists s' w', body (i0 + Z.of_nat k)%Z s w = Ok (s', w')
                   /\ I (S k) s' w') ->
  (forall s w, I m s w -> body (i0 + Z.of_nat m)%Z s w = Panic msg) ->
  forRange n i0 body s w = Panic msg.
Proof.
  revert I n i0 s w.
  induction m as [|m IH]; intros I n i0 s w Hmn H0 Hstep Hfail.
  - destruct n as [|n]; [lia|]. simpl. unfold bind.
    pose proof (Hfail s w H0) as Hf. simpl in Hf. rewrite Z.add_0_r in Hf.
    rewrite Hf. reflexivity.
  - destruct n as [|n]; [lia|]. simpl.
    destruct (Hstep 0%nat s w ltac:(lia) H0) as (s1 & w1 & Hb & H1).
    rewrite Z.add_0_r in Hb. rewrite (bind_ok _ _ _ _ _ Hb).
    apply (IH (fun k => I (S k)) n (i0 + 1)%Z s1 w1 ltac:(lia) H1).
    + intros k s' w' Hk HI.
      destruct (Hstep (S k) s' w' ltac:(lia) HI) as (s3 & w3 & Hb3 & H3).
      exists s3, w3. split; [|exact H3]. rewrite <- Hb3. f_equal. lia.
    + intros s' w' HI. rewrite <- (Hfail s' w' HI). f_equal. lia.
Qed.

Lemma index_out_of_range (s : list nat) (w : World G) :
  index s (Z.of_nat (length s)) w = Panic "index out of range".
Proof.
  unfold index. destruct (Z.ltb_spec (Z.of_nat (length s)) 0); [reflexivity|].
  rewrite Nat2Z.id, (lookup_ge_None_2 s (length s)) by lia. reflexivity.
Qed.
End LoopOutcomes.

(** ** The resampling, when it has returned *)

Section FloatTrans.
Local Open Scope float_scope.

(** A weight above a positive [beta] is positive. *)
Lemma gt_above_positive beta weight :
  F64.gt beta 0 = true -> F64.gt weight beta = true -> F64.gt weight 0 = true.
Proof.
  unfold F64.gt. intros Hb Hw.
  destruct (0 <? weight) eqn:E; [reflexivity|].
  assert (Ho : F64.ordered weight = true)
    by (apply ltb_leb, leb_ordered in Hw; tauto).
  pose proof (not_ltb_leb 0 weight eq_refl Ho E) as Hle.
  pose proof (leb_trans _ _ _ Hle (ltb_leb _ _ Hb)) as Hwb.
  apply leb_not_ltb in Hwb. congruence.
Qed.
End FloatTrans.

Section ResampleRun.
Context {G : Type} `{!RandSource G}.
Import ParticleFilter.
Local Open Scope float_scope.

Lemma selected_mono pf (w w' : World G) q :
  heap w ⊆ heap w' -> Inv.selected pf w q -> Inv.selected pf w' q.
Proof.
  intros Hsub (l & p & Hl & Hp & Hgt & Hf).
  exists l, p. split; [exact Hl|]. split; [|tauto].
  eapply lookup_weaken; eassumption.
Qed.

Lemma fuzz_run pf p a (w : World G) :
  exists q g,
    fuzz pf p a w
    = Ok ({| xLoc := xLoc a + Particle.X q;
             yLoc := yLoc a + Particle.Y q;
             heading := heading a + Particle.Heading q;
             newParticleList := newParticleList a ++ [fresh (dom (heap w))] |},
          mkWorld (<[fresh (dom (heap w)) := q]> (heap w)) g)
    /\ Inv.fuzzed pf p q.
Proof.
  unfold fuzz, bind, draw, alloc, ret, Inv.fuzzed.
  destruct (NormalRand (locDistribution pf) (src w)) as [n1 g1] eqn:E1. simpl.
  destruct (NormalRand (locDistribution pf) g1) as [n2 g2] eqn:E2. simpl.
  destruct (NormalRand (angDistribution pf) g2) as [n3 g3] eqn:E3. simpl.
  exists (Particle.mk (Particle.X p + n1) (Particle.Y p + n2)
            (Particle.wrapHeading (Particle.Heading p + n3)) 0), g3.
  split; [reflexivity|].
  exists (src w), g1, g2. rewrite E1, E2, E3. reflexivity.
Qed.

Lemma wheelWalk_run fuel pf beta startIdx a (w : World G) a' w' :
  wheelWalk fuel pf beta startIdx a w = Ok (a', w') -> Inv.walked pf a w a' w'.
Proof.
  revert beta startIdx a w.
  induction fuel as [|fuel IH]; intros beta startIdx a w; simpl;
    destruct (F64.gt beta 0) eqn:Hbeta;
    try (unfold ret; intros [= <- <-]; left; split; reflexivity);
    try discriminate.
  intros Hrun.
  apply bind_inv in Hrun as (l & w1 & Hidx & Hrun).
  apply index_inv in Hidx as (-> & _ & Hl).
  apply bind_inv in Hrun as (p & w2 & Hload & Hrun).
  apply load_inv in Hload as (-> & Hp).
  apply bind_inv in Hrun as (a1 & w3 & Hsel & Hrun).
  destruct (numSamples pf =? 0)%Z; [discriminate|].
  destruct (F64.gt (Particle.Weight p) beta) eqn:Hgt.
  - destruct (fuzz_run pf p a w) as (q & g & Hf & Hq).
    rewrite Hf in Hsel. injection Hsel as <- <-.
    rewrite wheelWalk_done in Hrun by (apply sub_not_positive, Hgt).
    injection Hrun as <- <-.
    right. exists q. split; [|split; reflexivity].
    exists l, p. split; [eapply list_elem_of_lookup_2, Hl|].
    split; [exact Hp|]. split; [|exact Hq].
    eapply gt_above_positive; eassumption.
  - unfold ret in Hsel. injection Hsel as <- <-.
    apply IH in Hrun. exact Hrun.
Qed.

Lemma spin_run fuel k pf i a (w : World G) a' w' :
  spin fuel k pf i a w = Ok (a', w') -> Inv.walked pf a w a' w'.
Proof.
  unfold spin. intros Hrun.
  apply bind_inv in Hrun as (u & w1 & Hu & Hrun).
  apply draw_inv in Hu.
  apply bind_inv in Hrun as (idx & w2 & Hi & Hrun).
  assert (Hh : heap w2 = heap w).
  { unfold randIntn in Hi. destruct (k <=? 0)%Z; [discriminate|].
    apply draw_inv in Hi. congruence. }
  apply wheelWalk_run in Hrun.
  unfold Inv.walked in *. unfold Inv.selected in *. rewrite Hh in Hrun. exact Hrun.
Qed.

Lemma fuzzed_weight pf p q : Inv.fuzzed (G:=G) pf p q -> Particle.Weight q = 0.
Proof. intros (g1 & g2 & g3 & ->). reflexivity. Qed.

Lemma column_heap (f : Particle.t -> float) ls (w w' : World G) :
  heap w' = heap w -> Inv.column f ls w' = Inv.column f ls w.
Proof. unfold Inv.column. intros ->. reflexivity. Qed.

Lemma column_weaken (f : Particle.t -> float) ls (w w' : World G) :
  heap w ⊆ heap w' -> (forall l, l ∈ ls -> is_Some (heap w !! l)) ->
  Inv.column f ls w' = Inv.column f ls w.
Proof.
  intros Hsub Hal. unfold Inv.column. apply list_fmap_ext.
  intros i l Hl. destruct (Hal l) as [p Hp]; [eapply list_elem_of_lookup_2, Hl|].
  rewrite Hp, (lookup_weaken _ _ _ _ Hp Hsub). reflexivity.
Qed.

(** The normalisation loop, when it has returned: the store has the
    same cells, each with the pose it had, and only cells of the
    population were written to. *)
Lemma normalize_loop_inv pf n (w w1 : World G) :
  forRange n 0 (normalize pf) tt w = Ok (tt, w1) ->
  dom (heap w1) = dom (heap w)
  /\ forall l p, heap w !! l = Some p ->
       exists p', heap w1 !! l = Some p' /\ Inv.same_pose p p'
                  /\ (l ∉ listParticles pf -> p' = p).
Proof.
  intros Hrun.
  refine (forRange_inv
    (fun (_ : nat) (_ : unit) wc =>
       dom (heap wc) = dom (heap w)
       /\ forall l p, heap w !! l = Some p ->
            exists p', heap wc !! l = Some p' /\ Inv.same_pose p p'
                       /\ (l ∉ listParticles pf -> p' = p))
    _ _ _ _ _ _ _ _ _ Hrun).
  - split; [reflexivity|]. intros l p Hp. exists p.
    unfold Inv.same_pose. tauto.
  - intros k [] wc [] wc' _ (Hdom & Hcells) Hbody. unfold normalize in Hbody.
    apply bind_inv in Hbody as (l & wa & Hidx & Hbody).
    apply index_inv in Hidx as (-> & _ & Hl).
    apply bind_inv in Hbody as (p & wb & Hload & Hbody).
    apply load_inv in Hload as (-> & Hp).
    apply store_inv in Hbody as (-> & _). simpl. split.
    + rewrite dom_insert_lookup_L by (eexists; exact Hp). exact Hdom.
    + intros l0 p0 Hp0. destruct (Hcells l0 p0 Hp0) as (p1 & Hp1 & Hpose & Hout).
      destruct (decide (l = l0)) as [<-|Hne].
      * rewrite lookup_insert_eq. eexists. split; [reflexivity|].
        assert (p1 = p) by congruence. subst p1. split.
        -- unfold Inv.same_pose in *. simpl. tauto.
        -- intros Hnot. exfalso. apply Hnot. eapply list_elem_of_lookup_2, Hl.
      * rewrite lookup_insert_ne by exact Hne. eauto.
Qed.

(** The loop of the wheel, when it has returned. *)
Lemma wheel_loop_inv fuel k pf n (w1 : World G) a w2 :
  forRange n 0 (spin fuel k pf)
    {| xLoc := 0; yLoc := 0; heading := 0; newParticleList := [] |} w1
  = Ok (a, w2) ->
  heap w1 ⊆ heap w2
  /\ (length (newParticleList a) <= n)%nat
  /\ NoDup (newParticleList a)
  /\ (forall l', l' ∈ newParticleList a ->
        heap w1 !! l' = None
        /\ exists q, heap w2 !! l' = Some q /\ Particle.Weight q = 0
                     /\ Inv.selected pf w2 q)
  /\ xLoc a = Spec.sum (Inv.column Particle.X (newParticleList a) w2)
  /\ yLoc a = Spec.sum (Inv.column Particle.Y (newParticleList a) w2)
  /\ heading a
     = Spec.sum (Inv.column Particle.Heading (newParticleList a) w2).
Proof.
  intros Hrun.
  refine (forRange_inv
    (fun (j : nat) a wc =>
       heap w1 ⊆ heap wc
       /\ (length (newParticleList a) <= j)%nat
       /\ NoDup (newParticleList a)
       /\ (forall l', l' ∈ newParticleList a ->
             heap w1 !! l' = None
             /\ exists q, heap wc !! l' = Some q /\ Particle.Weight q = 0
                          /\ Inv.selected pf wc q)
       /\ xLoc a = Spec.sum (Inv.column Particle.X (newParticleList a) wc)
       /\ yLoc a = Spec.sum (Inv.column Particle.Y (newParticleList a) wc)
       /\ heading a
          = Spec.sum (Inv.column Particle.Heading (newParticleList a) wc))
    _ _ _ _ _ _ _ _ _ Hrun).
  - simpl. split; [reflexivity|]. split; [lia|]. split; [constructor|].
    split; [|repeat split]. intros l' Hl'. inversion Hl'.
  - intros j a0 wc a1 wc' _ (Hsub & Hlen & Hnd & Hcells & Hx & Hy & Hh) Hbody.
    apply spin_run in Hbody as [[-> Hheap]|(q & Hsel & Hheap & ->)].
    + split; [rewrite Hheap; exact Hsub|]. split; [lia|].
      split; [exact Hnd|]. rewrite !(column_heap _ _ wc wc' Hheap).
      split; [|tauto]. intros l' Hl'.
      destruct (Hcells l' Hl') as (Hnew & q & Hq & Hw & Hs).
      split; [exact Hnew|]. exists q. rewrite Hheap. split; [exact Hq|].
      split; [exact Hw|]. eapply selected_mono; [|exact Hs].
      rewrite Hheap. reflexivity.
    + set (l := fresh (dom (heap wc))) in *.
      assert (Hfresh : heap wc !! l = None)
        by (apply not_elem_of_dom, is_fresh).
      assert (Hsub' : heap wc ⊆ heap wc')
        by (rewrite Hheap; apply insert_subseteq, Hfresh).
      assert (Hnot : l ∉ newParticleList a0).
      { intros Hin. destruct (Hcells l Hin) as (_ & q0 & Hq0 & _). congruence. }
      simpl newParticleList. simpl xLoc. simpl yLoc. simpl heading.
      split; [etransitivity; eassumption|].
      split; [rewrite length_app; simpl; lia|].
      split.
      { apply NoDup_app. split; [exact Hnd|]. split; [|apply NoDup_singleton].
        intros l0 Hl0 Hl0'. apply list_elem_of_singleton in Hl0'. subst l0.
        contradiction. }
      split.
      { intros l' Hl'. apply elem_of_app in Hl' as [Hl'|Hl'].
        - destruct (Hcells l' Hl') as (Hnew & q0 & Hq0 & Hw & Hs).
          split; [exact Hnew|]. exists q0.
          split; [eapply lookup_weaken; eassumption|]. split; [exact Hw|].
          eapply selected_mono; eassumption.
        - apply list_elem_of_singleton in Hl'. subst l'.
          split; [eapply lookup_weaken_None; eassumption|].
          exists q. rewrite Hheap, lookup_insert_eq. split; [reflexivity|].
          split; [|eapply selected_mono; eassumption].
          destruct Hsel as (l0 & p0 & _ & _ & _ & Hf).
          eapply fuzzed_weight, Hf. }
      destruct wc as [h g], wc' as [h' g']. simpl in Hheap. subst h'.
      rewrite !(column_snoc _ _ _ _ _ _ Hnot).
      rewrite !(column_heap _ _ (mkWorld h g) (mkWorld h g') eq_refl).
      unfold Spec.sum in *. rewrite !fold_left_app. simpl.
      rewrite <- Hx, <- Hy, <- Hh. repeat split.
Qed.

(** The refill loop, when it has returned: one new cell of weight 0 for
    each turn. *)
Lemma refill_loop_inv pf n sel (w2 : World G) ps w3 :
  forRange n 0 (fun _ ps => appendNew pf ps) sel w2 = Ok (ps, w3) ->
  heap w2 ⊆ heap w3
  /\ exists refill,
       ps = sel ++ refill /\ length refill = n /\ NoDup refill
       /\ forall l', l' ∈ refill ->
            heap w2 !! l' = None
            /\ exists q, heap w3 !! l' = Some q /\ Particle.Weight q = 0.
Proof.
  intros Hrun.
  refine (forRange_inv
    (fun (j : nat) ps wc =>
       heap w2 ⊆ heap wc
       /\ exists refill,
            ps = sel ++ refill /\ length refill = j /\ NoDup refill
            /\ forall l', l' ∈ refill ->
                 heap w2 !! l' = None
                 /\ exists q, heap wc !! l' = Some q /\ Particle.Weight q = 0)
    _ _ _ _ _ _ _ _ _ Hrun).
  - split; [reflexivity|]. exists []. rewrite app_nil_r.
    split; [reflexivity|]. split; [reflexivity|]. split; [constructor|].
    intros l' Hl'. inversion Hl'.
  - intros j ps0 wc ps1 wc' _ (Hsub & refill & -> & Hlen & Hnd & Hcells) Hbody.
    destruct (appendNew_ok pf (sel ++ refill) wc)
      as (l & p & g & Happ & Hfresh & Hw).
    rewrite Happ in Hbody. injection Hbody as <- <-. simpl.
    assert (Hsub' : heap wc ⊆ <[l := p]> (heap wc))
      by (apply insert_subseteq, Hfresh).
    split; [etransitivity; eassumption|].
    exists (refill ++ [l]). rewrite app_assoc. split; [reflexivity|].
    split; [rewrite length_app; simpl; lia|].
    assert (Hnot : l ∉ refill).
    { intros Hin. destruct (Hcells l Hin) as (_ & q0 & Hq0 & _). congruence. }
    split.
    { apply NoDup_app. split; [exact Hnd|]. split; [|apply NoDup_singleton].
      intros l0 Hl0 Hl0'. apply list_elem_of_singleton in Hl0'. subst l0.
      contradiction. }
    intros l' Hl'. apply elem_of_app in Hl' as [Hl'|Hl'].
    + destruct (Hcells l' Hl') as (Hnew & q0 & Hq0 & Hw0).
      split; [exact Hnew|]. exists q0.
      split; [eapply lookup_weaken; eassumption|exact Hw0].
    + apply list_elem_of_singleton in Hl'. subst l'.
      split; [eapply lookup_weaken_None; eassumption|].
      exists p. rewrite lookup_insert_eq. split; [reflexivity|exact Hw].
Qed.

(** [ResampleAndFuzz], when it has returned. *)
Lemma ResampleAndFuzz_run fuel pf (w : World G) pf' w' :
  ResampleAndFuzz fuel pf w = Ok (pf', w') ->
  let k := F64.to_int (F64.of_int (numSamples pf) * percentResample pf) in
  exists sel refill,
    pf' = set_listParticles (sel ++ refill)
            (set_Estimated
               (Spec.sum (Inv.column Particle.X sel w') / F64.of_int k)
               (Spec.sum (Inv.column Particle.Y sel w') / F64.of_int k)
               (Spec.sum (Inv.column Particle.Heading sel w') / F64.of_int k)
               (set_iteration (F64.wrap64 (iteration pf + 1)) pf))
    /\ (length sel <= Z.to_nat k)%nat
    /\ length refill = Z.to_nat (F64.wrap64 (numSamples pf - k))
    /\ NoDup (sel ++ refill)
    /\ (forall l', l' ∈ sel ++ refill ->
          heap w !! l' = None
          /\ exists q, heap w' !! l' = Some q /\ Particle.Weight q = 0)
    /\ (forall l', l' ∈ sel ->
          exists q, heap w' !! l' = Some q /\ Inv.selected pf w' q)
    /\ (forall l p, heap w !! l = Some p ->
          exists p', heap w' !! l = Some p' /\ Inv.same_pose p p'
                     /\ (l ∉ listParticles pf -> p' = p)).
Proof.
  intros Hrun k. unfold ResampleAndFuzz in Hrun.
  set (pf1 := set_iteration (F64.wrap64 (iteration pf + 1)) pf) in *.
  change (numSamples pf1) with (numSamples pf) in Hrun.
  change (percentResample pf1) with (percentResample pf) in Hrun.
  fold k in Hrun.
  apply bind_inv in Hrun as ([] & w1 & Hnorm & Hrun).
  apply bind_inv in Hrun as (a & w2 & Hspin & Hrun).
  apply bind_inv in Hrun as (ps & w3 & Hfill & Hrun).
  unfold ret in Hrun. injection Hrun as <- <-.
  apply normalize_loop_inv in Hnorm as (Hdom & Hold).
  apply wheel_loop_inv in Hspin
    as (Hsub12 & Hlen & Hnd & Hcells & Hx & Hy & Hh).
  apply refill_loop_inv in Hfill
    as (Hsub23 & refill & -> & Hrlen & Hrnd & Hrcells).
  assert (Hal : forall l, l ∈ newParticleList a -> is_Some (heap w2 !! l)).
  { intros l Hl. destruct (Hcells l Hl) as (_ & q & Hq & _). eauto. }
  exists (newParticleList a), refill.
  rewrite !(column_weaken _ _ w2 w3 Hsub23 Hal), <- Hx, <- Hy, <- Hh.
  split; [reflexivity|]. split; [exact Hlen|]. split; [exact Hrlen|].
  assert (Hnone : forall l', heap w1 !! l' = None -> heap w !! l' = None).
  { intros l' Hn. apply not_elem_of_dom. rewrite <- Hdom.
    apply not_elem_of_dom, Hn. }
  split; [|split; [|split]].
  - apply NoDup_app. split; [exact Hnd|]. split; [|exact Hrnd].
    intros l Hl Hl'. destruct (Hal l Hl) as [q Hq].
    destruct (Hrcells l Hl') as (Hn & _). congruence.
  - intros l' Hl'. apply elem_of_app in Hl' as [Hl'|Hl'].
    + destruct (Hcells l' Hl') as (Hn & q & Hq & Hw & _).
      split; [apply Hnone, Hn|]. exists q.
      split; [eapply lookup_weaken; eassumption|exact Hw].
    + destruct (Hrcells l' Hl') as (Hn & q & Hq & Hw).
      split; [|eauto].
      apply Hnone. eapply lookup_weaken_None; eassumption.
  - intros l' Hl'. destruct (Hcells l' Hl') as (_ & q & Hq & _ & Hs).
    exists q. split; [eapply lookup_weaken; eassumption|].
    eapply selected_mono in Hs; [|exact Hsub23]. exact Hs.
  - intros l p Hp. destruct (Hold l p Hp) as (p' & Hp' & Hpose & Hout).
    exists p'. split; [|split; [exact Hpose|exact Hout]].
    eapply lookup_weaken; [|exact Hsub23].
    eapply lookup_weaken; eassumption.
Qed.
End ResampleRun.

Section ResampleFacts.
Context {G : Type} `{!RandSource G}.
Import ParticleFilter.
Local Open Scope float_scope.

(** X2.  When [ResampleAndFuzz] has returned, the iteration counter is
    one more; the number of samples, the fraction, the bounds, the
    aggregates [maxWeight] and [sumWeight] and the three distributions
    are as they were; every cell of the store is still there with the
    pose it had, and a cell outside the old population is untouched. *)
Theorem ResampleAndFuzz_frame fuel pf (w : World G) pf' w' :
  ResampleAndFuzz fuel pf w = Ok (pf', w') ->
  iteration pf' = F64.wrap64 (iteration pf + 1)
  /\ numSamples pf' = numSamples pf
  /\ percentResample pf' = percentResample pf
  /\ xMin pf' = xMin pf /\ xMax pf' = xMax pf
  /\ yMin pf' = yMin pf /\ yMax pf' = yMax pf
  /\ maxWeight pf' = maxWeight pf /\ sumWeight pf' = sumWeight pf
  /\ locDistribution pf' = locDistribution pf
  /\ angDistribution pf' = angDistribution pf
  /\ distDistribution pf' = distDistribution pf
  /\ forall l p, heap w !! l = Some p ->
       exists p', heap w' !! l = Some p' /\ Inv.same_pose p p'
                  /\ (l ∉ listParticles pf -> p' = p).
Proof.
  intros Hrun.
  destruct (ResampleAndFuzz_run fuel pf w pf' w' Hrun)
    as (sel & refill & -> & _ & _ & _ & _ & _ & Hold).
  simpl. repeat split; try reflexivity. exact Hold.
Qed.

(** X3.  When [ResampleAndFuzz] has returned, the new population
    shares no particle with the store as it was before the call: its
    pointers are distinct, each points to a cell that did not exist
    before, and each particle has the weight 0. *)
Theorem ResampleAndFuzz_population_is_new fuel pf (w : World G) pf' w' :
  ResampleAndFuzz fuel pf w = Ok (pf', w') ->
  NoDup (listParticles pf')
  /\ forall l, l ∈ listParticles pf' ->
       heap w !! l = None
       /\ exists q, heap w' !! l = Some q /\ Particle.Weight q = 0.
Proof.
  intros Hrun.
  destruct (ResampleAndFuzz_run fuel pf w pf' w' Hrun)
    as (sel & refill & -> & _ & _ & Hnd & Hnew & _).
  simpl. split; [exact Hnd|exact Hnew].
Qed.

(** X4.  When [ResampleAndFuzz] has returned, the new population is
    the particles that the wheel selected, at most one for each of its
    [numIntResample] turns, followed by the [numSamples - numIntResample]
    refill particles.  Every selected particle is the copy, with one
    draw of noise on each component of the pose, of a particle of the
    old population whose normalised weight is positive. *)
Theorem ResampleAndFuzz_selects_positive_weights
    fuel pf (w : World G) pf' w' :
  ResampleAndFuzz fuel pf w = Ok (pf', w') ->
  let k := F64.to_int (F64.of_int (numSamples pf) * percentResample pf) in
  exists sel refill,
    listParticles pf' = sel ++ refill
    /\ (length sel <= Z.to_nat k)%nat
    /\ length refill = Z.to_nat (F64.wrap64 (numSamples pf - k))
    /\ forall l, l ∈ sel ->
         exists q, heap w' !! l = Some q /\ Inv.selected pf w' q.
Proof.
  intros Hrun k.
  destruct (ResampleAndFuzz_run fuel pf w pf' w' Hrun)
    as (sel & refill & -> & Hsel & Hrefill & _ & _ & Hcopy & _).
  exists sel, refill. simpl. repeat split; assumption.
Qed.

(** X5.  When [ResampleAndFuzz] has returned, each estimate is the sum
    of the component over the selected particles, in the order of their
    selection, divided by [float64(numIntResample)]; when every turn of
    the wheel selected a particle this is the mean over the selected
    particles. *)
Theorem ResampleAndFuzz_estimates fuel pf (w : World G) pf' w' :
  ResampleAndFuzz fuel pf w = Ok (pf', w') ->
  let k := F64.to_int (F64.of_int (numSamples pf) * percentResample pf) in
  exists sel refill,
    listParticles pf' = sel ++ refill
    /\ length refill = Z.to_nat (F64.wrap64 (numSamples pf - k))
    /\ GetPosition pf'
       = (Spec.sum (Inv.column Particle.X sel w') / F64.of_int k,
          Spec.sum (Inv.column Particle.Y sel w') / F64.of_int k)
    /\ GetHeading pf'
       = Spec.sum (Inv.column Particle.Heading sel w') / F64.of_int k
    /\ (Z.of_nat (length sel) = k ->
        GetPosition pf'
        = (Spec.mean (Inv.column Particle.X sel w'),
           Spec.mean (Inv.column Particle.Y sel w'))
        /\ GetHeading pf' = Spec.mean (Inv.column Particle.Heading sel w')).
Proof.
  intros Hrun k.
  destruct (ResampleAndFuzz_run fuel pf w pf' w' Hrun)
    as (sel & refill & -> & _ & Hrefill & _).
  exists sel, refill. simpl.
  split; [reflexivity|]. split; [exact Hrefill|].
  split; [reflexivity|]. split; [reflexivity|].
  intros Hall. unfold GetPosition, GetHeading, Spec.mean, Inv.column. simpl.
  rewrite !length_fmap, Hall. split; reflexivity.
Qed.
End ResampleFacts.

(** ** Populations that are too short, and populations that are not *)

Section ShortPopulation.
Context `{MathLib} {G : Type} `{!RandSource G}.
Import ParticleFilter.

(** One turn of the loop of [Move] at a pointer that is allocated. *)
Lemma moveOne_ok dist ang pf (k : nat) s (w : World G) l p :
  listParticles pf !! k = Some l -> heap w !! l = Some p ->
  exists p' g s',
    moveOne dist ang pf (Z.of_nat k) s w
    = Ok (s', mkWorld (<[l := p']> (heap w)) g)
    /\ Particle.Weight p' = Particle.Weight p.
Proof.
  intros Hl Hp. unfold moveOne.
  rewrite (bind_ok _ _ _ _ _ (index_ok _ _ _ w Hl)).
  rewrite (bind_ok _ _ _ _ _ (load_ok _ _ w Hp)).
  unfold bind at 1. unfold draw at 1.
  destruct (NormalRand (distDistribution pf) (src w)) as [n1 g1].
  unfold bind at 1. unfold draw at 1. simpl src.
  destruct (NormalRand (angDistribution pf) g1) as [n2 g2].
  set (w2 := {| heap := heap w; src := g2 |}).
  rewrite (bind_ok _ _ _ _ _ (store_ok l p _ w2 Hp)).
  eexists _, _, _. split; [reflexivity|]. reflexivity.
Qed.

(** X16.  [Move] loops over [i < numSamples], not over the population:
    on a population that is shorter than [numSamples] it panics with an
    index out of range, after moving the particles there are. *)
Theorem Move_panics_on_short_population dist ang pf (w : World G) :
  (length (listParticles pf) < Z.to_nat (numSamples pf))%nat ->
  Inv.allocated pf w ->
  Move dist ang pf w = Panic "index out of range".
Proof.
  intros Hshort Halloc. unfold Move, bind.
  rewrite (forRange_panic
    (fun (_ : nat) (_ : Sums) w' => dom (heap w') = dom (heap w))
    (Z.to_nat (numSamples pf)) (length (listParticles pf)) 0%Z
    (moveOne dist ang pf) _ w "index out of range" Hshort eq_refl);
    [reflexivity| |].
  - intros k s w1 Hk Hdom.
    destruct (lookup_lt_is_Some_2 (listParticles pf) k Hk) as [l Hl].
    assert (Hd : l ∈ dom (heap w1)).
    { rewrite Hdom. apply elem_of_dom, Halloc.
      eapply list_elem_of_lookup_2, Hl. }
    apply elem_of_dom in Hd as [p Hp].
    destruct (moveOne_ok dist ang pf k s w1 l p Hl Hp)
      as (p' & g & s' & Hrun & _).
    rewrite Z.add_0_l. eexists _, _. split; [exact Hrun|]. simpl.
    rewrite dom_insert_lookup_L by (eexists; exact Hp). exact Hdom.
  - intros s w1 _. rewrite Z.add_0_l. unfold moveOne, bind.
    rewrite index_out_of_range. reflexivity.
Qed.
End ShortPopulation.

Section ShortResample.
Context {G : Type} `{!RandSource G}.
Import ParticleFilter.

Lemma normalize_ok pf (k : nat) (w : World G) l p :
  listParticles pf !! k = Some l -> heap w !! l = Some p ->
  normalize pf (Z.of_nat k) tt w
  = Ok (tt, mkWorld
              (<[l := Particle.UpdateWeight
                        (Particle.Weight p / sumWeight pf) p]> (heap w))
              (src w)).
Proof.
  intros Hl Hp. unfold normalize.
  rewrite (bind_ok _ _ _ _ _ (index_ok _ _ _ w Hl)).
  rewrite (bind_ok _ _ _ _ _ (load_ok _ _ w Hp)).
  apply (store_ok _ _ _ w Hp).
Qed.

(** X17.  [ResampleAndFuzz] too loops over [i < numSamples]: on a
    population that is shorter than [numSamples] it panics with an index
    out of range in its normalisation loop, before any draw. *)
Theorem ResampleAndFuzz_panics_on_short_population fuel pf (w : World G) :
  (length (listParticles pf) < Z.to_nat (numSamples pf))%nat ->
  Inv.allocated pf w ->
  ResampleAndFuzz fuel pf w = Panic "index out of range".
Proof.
  intros Hshort Halloc. unfold ResampleAndFuzz.
  set (pf1 := set_iteration (F64.wrap64 (iteration pf + 1)) pf).
  change (numSamples pf1) with (numSamples pf).
  unfold bind at 1.
  rewrite (forRange_panic
    (fun (_ : nat) (_ : unit) w' => dom (heap w') = dom (heap w))
    (Z.to_nat (numSamples pf)) (length (listParticles pf)) 0%Z
    (normalize pf1) tt w "index out of range" Hshort eq_refl);
    [reflexivity| |].
  - intros k [] w1 Hk Hdom.
    destruct (lookup_lt_is_Some_2 (listParticles pf) k Hk) as [l Hl].
    assert (Hd : l ∈ dom (heap w1)).
    { rewrite Hdom. apply elem_of_dom, Halloc.
      eapply list_elem_of_lookup_2, Hl. }
    apply elem_of_dom in Hd as [p Hp].
    rewrite Z.add_0_l. eexists tt, _.
    split; [apply (normalize_ok pf1 k w1 l p Hl Hp)|]. simpl.
    rewrite dom_insert_lookup_L by (eexists; exact Hp). exact Hdom.
  - intros [] w1 _. rewrite Z.add_0_l. unfold normalize, bind.
    change (listParticles pf1) with (listParticles pf).
    rewrite index_out_of_range. reflexivity.
Qed.
End ShortResample.

Section Safety.
Context {G : Type} `{!RandSource G} `{!RandLaws G}.
Import ParticleFilter.
Local Open Scope float_scope.

Lemma allocated_weaken pf (w w' : World G) :
  heap w ⊆ heap w' -> Inv.allocated pf w -> Inv.allocated pf w'.
Proof.
  intros Hsub Hal l Hl. destruct (Hal l Hl) as [p Hp].
  exists p. eapply lookup_weaken; eassumption.
Qed.

(** Over a population of [numSamples] allocated particles, a walk that
    starts inside the population stays inside it. *)
Lemma wheelWalk_safe fuel pf beta idx a (w : World G) :
  numSamples pf = Z.of_nat (length (listParticles pf)) ->
  (numSamples pf < 2 ^ 63)%Z ->
  Inv.allocated pf w -> (0 <= idx < numSamples pf)%Z ->
  match wheelWalk fuel pf beta idx a w with
  | Ok (_, w') => heap w ⊆ heap w'
  | Panic _ => False
  | OutOfFuel => True
  end.
Proof.
  intros Hlen Hbound Halloc. revert beta idx a.
  induction fuel as [|fuel IH]; intros beta idx a Hidx; simpl;
    destruct (F64.gt beta 0) eqn:Hbeta;
    try (unfold ret, outOfFuel; simpl; first [reflexivity|exact Logic.I]).
  destruct (lookup_lt_is_Some_2 (listParticles pf) (Z.to_nat idx)
              ltac:(lia)) as [l Hl].
  destruct (Halloc l) as [p Hp]; [eapply list_elem_of_lookup_2, Hl|].
  assert (Hi : index (listParticles pf) idx w = Ok (l, w)).
  { rewrite <- (Z2Nat.id idx) by lia. apply index_ok, Hl. }
  rewrite (bind_ok _ _ _ _ _ Hi).
  rewrite (bind_ok _ _ _ _ _ (load_ok _ _ w Hp)).
  destruct (F64.gt (Particle.Weight p) beta) eqn:Hgt.
  - destruct (fuzz_run pf p a w) as (q & g & Hf & _).
    rewrite (bind_ok _ _ _ _ _ Hf).
    destruct (Z.eqb_spec (numSamples pf) 0) as [|_]; [lia|].
    rewrite wheelWalk_done by (apply sub_not_positive, Hgt). simpl.
    apply insert_subseteq, not_elem_of_dom, is_fresh.
  - unfold bind at 1. unfold ret at 1.
    destruct (Z.eqb_spec (numSamples pf) 0) as [|_]; [lia|].
    apply IH. unfold F64.wrap64. rewrite Z.mod_small by lia.
    replace (idx + 1 + 2 ^ 63 - 2 ^ 63)%Z with (idx + 1)%Z by lia.
    pose proof (Z.rem_bound_pos (idx + 1) (numSamples pf)). lia.
Qed.

Lemma spin_safe fuel k pf i a (w : World G) :
  (0 < k <= numSamples pf)%Z ->
  numSamples pf = Z.of_nat (length (listParticles pf)) ->
  (numSamples pf < 2 ^ 63)%Z ->
  Inv.allocated pf w ->
  match spin fuel k pf i a w with
  | Ok (_, w') => heap w ⊆ heap w'
  | Panic _ => False
  | OutOfFuel => True
  end.
Proof.
  intros Hk Hlen Hbound Halloc. unfold spin, bind, draw, randIntn.
  destruct (Float64 (src w)) as [u g1]. simpl.
  destruct (Z.leb_spec k 0) as [|_]; [lia|].
  unfold draw. simpl.
  pose proof (Intn_range k g1 ltac:(lia)) as Hidx.
  destruct (Intn k g1) as [idx g2]. simpl in *.
  apply (wheelWalk_safe fuel pf _ idx a (mkWorld (heap w) g2) Hlen Hbound);
    [exact Halloc|lia].
Qed.

(** X1.  Over a populated filter whose resample count
    [int(float64(numSamples) * percentResample)] is between 0 and
    [numSamples], [ResampleAndFuzz] does not panic: no index leaves the
    population, [rand.Intn] gets a positive bound and the remainder a
    divisor that is not zero.  The call returns or the wheel is still
    walking when the fuel ends. *)
Theorem ResampleAndFuzz_does_not_panic fuel pf (w : World G) msg :
  Inv.populated pf w ->
  let k := F64.to_int (F64.of_int (numSamples pf) * percentResample pf) in
  (0 <= k <= numSamples pf)%Z -> (numSamples pf < 2 ^ 63)%Z ->
  ResampleAndFuzz fuel pf w <> Panic msg.
Proof.
  intros (Hlen & _ & Halloc) k Hk Hbound. unfold ResampleAndFuzz.
  set (pf1 := set_iteration (F64.wrap64 (iteration pf + 1)) pf).
  change (numSamples pf1) with (numSamples pf).
  change (percentResample pf1) with (percentResample pf). fold k.
  destruct (normalize_loop_ok pf1 (Z.to_nat (numSamples pf)) w)
    as (w1 & Hnorm & _ & Hdom); [simpl; lia|exact Halloc|].
  rewrite (bind_ok _ _ _ _ _ Hnorm).
  assert (Halloc1 : Inv.allocated pf1 w1).
  { intros l Hl. apply elem_of_dom. rewrite Hdom.
    apply elem_of_dom, Halloc, Hl. }
  assert (Hloop :
    match forRange (Z.to_nat k) 0 (spin fuel k pf1)
            {| xLoc := 0; yLoc := 0; heading := 0; newParticleList := [] |}
            w1 with
    | Ok (_, w2) => heap w1 ⊆ heap w2
    | Panic _ => False
    | OutOfFuel => True
    end); [|unfold bind at 1;
            destruct (forRange (Z.to_nat k) 0 (spin fuel k pf1) _ w1)
              as [[a w2]| |]; [|contradiction|discriminate]].
  - apply (forRange_no_panic
             (fun (_ : nat) (_ : Acc) (wc : World G) =>
                map_subseteq (heap w1) (heap wc)));
      [change (heap w1 ⊆ heap w1); reflexivity|].
    intros j a wc Hj Hsub.
    pose proof (spin_safe fuel k pf1 (0 + Z.of_nat j)%Z a wc
                  ltac:(simpl; lia) ltac:(simpl; lia) Hbound
                  (allocated_weaken pf1 w1 wc Hsub Halloc1)) as Hs.
    destruct (spin fuel k pf1 _ a wc) as [[a' wc']| |]; try exact Hs.
    change (heap w1 ⊆ heap wc'). change (heap w1 ⊆ heap wc) in Hsub.
    etransitivity; eassumption.
  - match goal with
    | |- context [forRange ?n 0%Z (fun _ ps => appendNew ?q ps) ?l0] =>
        destruct (refill_ok q n l0 w2) as (ps & w3 & Hfill & _)
    end.
    rewrite (bind_ok _ _ _ _ _ Hfill). discriminate.
Qed.
End Safety.

(** ** Weights that are not numbers *)

Section FloatNaN.
Local Open Scope float_scope.

(** There is one NaN. *)
Lemma unordered_nan x : F64.ordered x = false -> x = nan.
Proof.
  intros Hx. apply Prim2SF_inj.
  destruct (Prim2SF x) eqn:E; try reflexivity;
    assert (F64.ordered x = true) by (apply ordered_spec; congruence);
    congruence.
Qed.

Lemma add_nan_l x : nan + x = nan.
Proof.
  apply Prim2SF_inj. rewrite add_spec.
  change (Prim2SF nan) with S754_nan. reflexivity.
Qed.

Lemma add_nan_r x : x + nan = nan.
Proof.
  apply Prim2SF_inj. rewrite add_spec.
  change (Prim2SF nan) with S754_nan. destruct (Prim2SF x); reflexivity.
Qed.

Lemma sub_nan_r x : x - nan = nan.
Proof.
  apply Prim2SF_inj. rewrite sub_spec.
  change (Prim2SF nan) with S754_nan. destruct (Prim2SF x); reflexivity.
Qed.

Lemma div_nan_r x : x / nan = nan.
Proof.
  apply Prim2SF_inj. rewrite div_spec.
  change (Prim2SF nan) with S754_nan. destruct (Prim2SF x); reflexivity.
Qed.

Lemma gt_nan_l y : F64.gt nan y = false.
Proof.
  unfold F64.gt. rewrite FloatAxioms.ltb_spec.
  change (Prim2SF nan) with S754_nan. unfold SFltb.
  destruct (Prim2SF y) as [| | |[]]; reflexivity.
Qed.

(** A sum with a NaN among its terms is NaN. *)
Lemma sum_nan ws :
  (exists x, x ∈ ws /\ F64.ordered x = false) -> Spec.sum ws = nan.
Proof.
  intros (x & Hin & Hx). apply unordered_nan in Hx. subst x.
  unfold Spec.sum. generalize 0.
  induction ws as [|y ws IH]; intros acc; [inversion Hin|].
  simpl. apply elem_of_cons in Hin as [<-|Hin].
  - rewrite add_nan_r. clear IH. induction ws as [|z ws IH]; [reflexivity|].
    simpl. rewrite add_nan_l. exact IH.
  - apply IH, Hin.
Qed.
End FloatNaN.

Section Normalisation.
Context {G : Type} `{!RandSource G}.
Import ParticleFilter.
Local Open Scope float_scope.

(** The normalisation loop over a population of distinct particles:
    every weight of the population is divided by [sumWeight], and
    nothing else changes. *)
Lemma normalize_loop_run pf (w : World G) :
  Inv.populated pf w ->
  exists w1,
    forRange (Z.to_nat (numSamples pf)) 0 (normalize pf) tt w = Ok (tt, w1)
    /\ src w1 = src w /\ dom (heap w1) = dom (heap w)
    /\ (forall l p, l ∈ listParticles pf -> heap w !! l = Some p ->
          heap w1 !! l
          = Some (Particle.UpdateWeight
                    (Particle.Weight p / sumWeight pf) p))
    /\ (forall l, l ∉ listParticles pf -> heap w1 !! l = heap w !! l).
Proof.
  intros (Hlen & Hnd & Halloc). set (ls := listParticles pf) in *.
  destruct (forRange_total
    (fun (k : nat) (_ : unit) w' =>
       src w' = src w /\ dom (heap w') = dom (heap w)
       /\ (forall j l p, ls !! j = Some l -> (j < k)%nat ->
             heap w !! l = Some p ->
             heap w' !! l
             = Some (Particle.UpdateWeight
                       (Particle.Weight p / sumWeight pf) p))
       /\ (forall j l, ls !! j = Some l -> (k <= j)%nat ->
             heap w' !! l = heap w !! l)
       /\ (forall l, l ∉ ls -> heap w' !! l = heap w !! l))
    (Z.to_nat (numSamples pf)) 0%Z (normalize pf) tt w)
    as ([] & w1 & Hrun & Hsrc & Hdom & Hdone & _ & Hout).
  - repeat split; intros; lia.
  - intros k [] wc Hk (Hsrc & Hdom & Hdone & Htodo & Hout).
    destruct (lookup_lt_is_Some_2 ls k ltac:(lia)) as [l Hl].
    destruct (Halloc l) as [p Hp]; [eapply list_elem_of_lookup_2, Hl|].
    assert (Hpc : heap wc !! l = Some p)
      by (rewrite (Htodo k l Hl (Nat.le_refl k)); exact Hp).
    rewrite Z.add_0_l. eexists tt, _.
    split; [apply (normalize_ok pf k wc l p Hl Hpc)|]. simpl.
    split; [exact Hsrc|].
    split; [rewrite dom_insert_lookup_L by (eexists; exact Hpc); exact Hdom|].
    split; [|split].
    + intros j l0 p0 Hl0 Hj Hp0.
      destruct (decide (j = k)) as [->|Hne].
      * assert (l0 = l) by congruence. subst l0.
        assert (p0 = p) by congruence. subst p0.
        apply lookup_insert_eq.
      * assert (l <> l0).
        { intros <-. apply Hne. eapply NoDup_lookup; eassumption. }
        rewrite lookup_insert_ne by assumption.
        apply (Hdone j); [exact Hl0|lia|exact Hp0].
    + intros j l0 Hl0 Hj.
      assert (l <> l0).
      { intros <-. assert (j = k) by (eapply NoDup_lookup; eassumption). lia. }
      rewrite lookup_insert_ne by assumption.
      apply (Htodo j); [exact Hl0|lia].
    + intros l0 Hl0.
      assert (l <> l0).
      { intros <-. apply Hl0. eapply list_elem_of_lookup_2, Hl. }
      rewrite lookup_insert_ne by assumption. apply Hout, Hl0.
  - exists w1. split; [exact Hrun|]. split; [exact Hsrc|].
    split; [exact Hdom|]. split; [|exact Hout].
    intros l p Hin Hp. apply list_elem_of_lookup_1 in Hin as [j Hj].
    apply (Hdone j); [exact Hj| |exact Hp].
    rewrite <- Hlen. eapply lookup_lt_Some, Hj.
Qed.

(** X6.  When [ResampleAndFuzz] has returned on a populated filter,
    every particle of the old population is still in the store with its
    pose, and its weight is the weight it had divided by [sumWeight]. *)
Theorem ResampleAndFuzz_normalizes_old_weights fuel pf (w : World G) pf' w' :
  Inv.populated pf w ->
  ResampleAndFuzz fuel pf w = Ok (pf', w') ->
  forall l p, l ∈ listParticles pf -> heap w !! l = Some p ->
    heap w' !! l
    = Some (Particle.UpdateWeight (Particle.Weight p / sumWeight pf) p).
Proof.
  intros Hpop Hrun l p Hl Hp. unfold ResampleAndFuzz in Hrun.
  set (pf1 := set_iteration (F64.wrap64 (iteration pf + 1)) pf) in *.
  apply bind_inv in Hrun as ([] & w1 & Hnorm & Hrun).
  apply bind_inv in Hrun as (a & w2 & Hspin & Hrun).
  apply bind_inv in Hrun as (ps & w3 & Hfill & Hrun).
  unfold ret in Hrun. injection Hrun as <- <-.
  destruct (normalize_loop_run pf1 w Hpop) as (w1' & Hnorm' & _ & _ & Hcells & _).
  change (numSamples pf1) with (numSamples pf) in Hnorm, Hnorm'.
  rewrite Hnorm in Hnorm'. injection Hnorm' as <-.
  apply wheel_loop_inv in Hspin as (Hsub12 & _).
  apply refill_loop_inv in Hfill as (Hsub23 & _).
  eapply lookup_weaken; [|exact Hsub23].
  eapply lookup_weaken; [|exact Hsub12].
  apply (Hcells l p Hl Hp).
Qed.
End Normalisation.

Section NaNWeights.
Context {G : Type} `{!RandSource G} `{!RandLaws G}.
Import ParticleFilter.
Local Open Scope float_scope.

(** Over a population whose weights are all NaN, a walk with one unit
    of fuel or more returns without selecting: a NaN weight is not above
    [beta], and [beta] less NaN is NaN, which is not positive. *)
Lemma wheelWalk_nan_weights fuel pf beta idx a (w : World G) :
  numSamples pf = Z.of_nat (length (listParticles pf)) ->
  (forall l, l ∈ listParticles pf ->
     exists p, heap w !! l = Some p /\ Particle.Weight p = nan) ->
  (0 <= idx < numSamples pf)%Z ->
  wheelWalk (S fuel) pf beta idx a w = Ok (a, w).
Proof.
  intros Hlen Hnan Hidx. simpl.
  destruct (F64.gt beta 0) eqn:Hbeta; [|reflexivity].
  destruct (lookup_lt_is_Some_2 (listParticles pf) (Z.to_nat idx)
              ltac:(lia)) as [l Hl].
  destruct (Hnan l) as (p & Hp & Hw); [eapply list_elem_of_lookup_2, Hl|].
  assert (Hi : index (listParticles pf) idx w = Ok (l, w)).
  { rewrite <- (Z2Nat.id idx) by lia. apply index_ok, Hl. }
  rewrite (bind_ok _ _ _ _ _ Hi).
  rewrite (bind_ok _ _ _ _ _ (load_ok _ _ w Hp)).
  rewrite Hw, gt_nan_l. unfold bind at 1. unfold ret at 1.
  destruct (Z.eqb_spec (numSamples pf) 0) as [|_]; [lia|].
  rewrite sub_nan_r. apply wheelWalk_done, gt_nan_l.
Qed.

Lemma spin_nan_weights fuel k pf i a (w : World G) :
  (0 < k <= numSamples pf)%Z ->
  numSamples pf = Z.of_nat (length (listParticles pf)) ->
  (forall l, l ∈ listParticles pf ->
     exists p, heap w !! l = Some p /\ Particle.Weight p = nan) ->
  exists g, spin (S fuel) k pf i a w = Ok (a, mkWorld (heap w) g).
Proof.
  intros Hk Hlen Hnan. unfold spin, bind, draw, randIntn.
  destruct (Float64 (src w)) as [u g1]. simpl.
  destruct (Z.leb_spec k 0) as [|_]; [lia|].
  unfold draw. simpl.
  pose proof (Intn_range k g1 ltac:(lia)) as Hidx.
  destruct (Intn k g1) as [idx g2]. simpl in *.
  exists g2.
  apply (wheelWalk_nan_weights fuel pf _ idx a (mkWorld (heap w) g2) Hlen);
    [exact Hnan|lia].
Qed.

(** When [sumWeight] is NaN, every normalised weight is NaN and
    [ResampleAndFuzz] selects nothing. *)
Lemma ResampleAndFuzz_nan_sumWeight fuel pf (w : World G) :
  Inv.populated pf w -> F64.ordered (sumWeight pf) = false ->
  let k := F64.to_int (F64.of_int (numSamples pf) * percentResample pf) in
  (0 <= k <= numSamples pf)%Z ->
  exists pf' w',
    ResampleAndFuzz (S fuel) pf w = Ok (pf', w')
    /\ EstimatedX pf' = 0 / F64.of_int k
    /\ EstimatedY pf' = 0 / F64.of_int k
    /\ EstimatedHeading pf' = 0 / F64.of_int k
    /\ length (listParticles pf') = Z.to_nat (F64.wrap64 (numSamples pf - k))
    /\ sumWeight pf' = sumWeight pf.
Proof.
  intros Hpop Hsum k Hk. unfold ResampleAndFuzz.
  set (pf1 := set_iteration (F64.wrap64 (iteration pf + 1)) pf).
  change (numSamples pf1) with (numSamples pf).
  change (percentResample pf1) with (percentResample pf). fold k.
  destruct (normalize_loop_run pf1 w Hpop)
    as (w1 & Hnorm & _ & _ & Hcells & _).
  change (numSamples pf1) with (numSamples pf) in Hnorm.
  rewrite (bind_ok _ _ _ _ _ Hnorm).
  destruct Hpop as (Hlen & _ & Halloc).
  assert (Hnan : forall l, l ∈ listParticles pf1 ->
            exists p, heap w1 !! l = Some p /\ Particle.Weight p = nan).
  { intros l Hl. destruct (Halloc l Hl) as [p Hp].
    eexists. split; [apply (Hcells l p Hl Hp)|]. simpl.
    change (sumWeight pf1) with (sumWeight pf).
    rewrite (unordered_nan _ Hsum). apply div_nan_r. }
  set (a0 := {| xLoc := 0; yLoc := 0; heading := 0; newParticleList := [] |}).
  destruct (forRange_total
    (fun (_ : nat) a (wc : World G) => a = a0 /\ heap wc = heap w1)
    (Z.to_nat k) 0%Z (spin (S fuel) k pf1) a0 w1)
    as (a & w2 & Hspin & -> & _).
  - split; reflexivity.
  - intros j a wc Hj (-> & Hheap).
    destruct (spin_nan_weights fuel k pf1 (0 + Z.of_nat j)%Z a0 wc)
      as (g & Hs).
    + simpl. lia.
    + simpl. lia.
    + rewrite Hheap. exact Hnan.
    + eexists _, _. split; [exact Hs|]. split; [reflexivity|exact Hheap].
  - rewrite (bind_ok _ _ _ _ _ Hspin). simpl.
    match goal with
    | |- context [forRange ?n 0%Z (fun _ ps => appendNew ?q ps) []] =>
        destruct (refill_ok q n [] w2) as (ps & w3 & Hfill & Hps)
    end.
    rewrite (bind_ok _ _ _ _ _ Hfill).
    eexists _, _. split; [reflexivity|]. simpl.
    repeat split; try reflexivity. exact Hps.
Qed.
End NaNWeights.

Section NaNLikelihood.
Context {G : Type} `{!RandSource G} `{!RandLaws G} {R : Type} `{!Reading R}.
Import ParticleFilter.
Local Open Scope float_scope.

(** X18.  A reading that returns NaN for a particle does not hang the
    update and does not make it panic: [sumWeight] is NaN, every
    normalised weight is NaN, each walk of the wheel ends after one
    step at most, and [Update] returns with the estimates
    [0 / float64(numIntResample)] and the refill particles. *)
Theorem Update_with_nan_likelihood fuel (r : R) pf (w : World G) :
  Inv.populated pf w ->
  (exists lik, lik ∈ Inv.likelihoods r (listParticles pf) w
               /\ F64.ordered lik = false) ->
  let k := F64.to_int (F64.of_int (numSamples pf) * percentResample pf) in
  (0 <= k <= numSamples pf)%Z -> (numSamples pf < 2 ^ 63)%Z ->
  exists pf' w',
    Update (S fuel) r pf w = Ok (pf', w')
    /\ F64.ordered (sumWeight pf') = false
    /\ GetPosition pf' = (0 / F64.of_int k, 0 / F64.of_int k)
    /\ GetHeading pf' = 0 / F64.of_int k
    /\ length (listParticles pf') = Z.to_nat (numSamples pf - k).
Proof.
  intros (Hlen & Hnodup & Halloc) Hnan k Hk Hbound. unfold Update.
  destruct (CalculateWeights_run r pf w Halloc Hnodup)
    as (pf1 & w1 & Hrun & _ & Hsum & _ & Hsame & Hdom).
  rewrite (bind_ok _ _ _ _ _ Hrun).
  rewrite (sum_nan _ Hnan) in Hsum.
  destruct Hsame as (Hn & Hp & Hls & _).
  destruct (ResampleAndFuzz_nan_sumWeight fuel pf1 w1)
    as (pf2 & w2 & Hres & Hx & Hy & Hh & Hpop & Hs).
  - split; [rewrite Hn, Hls; exact Hlen|].
    split; [rewrite Hls; exact Hnodup|].
    intros l Hl. rewrite Hls in Hl. apply elem_of_dom. rewrite Hdom.
    apply elem_of_dom, Halloc, Hl.
  - rewrite Hsum. reflexivity.
  - rewrite Hn, Hp. exact Hk.
  - rewrite Hn, Hp in *. fold k in Hx, Hy, Hh, Hpop.
    exists pf2, w2. split; [exact Hres|].
    split; [rewrite Hs, Hsum; reflexivity|].
    unfold GetPosition, GetHeading. rewrite Hx, Hy, Hh.
    split; [reflexivity|]. split; [reflexivity|].
    rewrite Hpop. f_equal. unfold F64.wrap64.
    rewrite Z.mod_small by lia. lia.
Qed.
End NaNLikelihood.

(** ** A resampling without a resampled share *)

Section NoShare.
Context {G : Type} `{!RandSource G}.
Import ParticleFilter.
Local Open Scope float_scope.

(** X19.  When the resample count [int(float64(numSamples) *
    percentResample)] is 0 (a fraction of 0, say), [ResampleAndFuzz]
    returns whatever the weights are: the wheel takes no turn, the
    estimates are 0/0, NaN, and the population is [numSamples] new
    particles. *)
Theorem ResampleAndFuzz_without_resampled_share fuel pf (w : World G) :
  (Z.to_nat (numSamples pf) <= length (listParticles pf))%nat ->
  Inv.allocated pf w ->
  (- 2 ^ 63 <= numSamples pf < 2 ^ 63)%Z ->
  F64.to_int (F64.of_int (numSamples pf) * percentResample pf) = 0%Z ->
  exists pf' w',
    ResampleAndFuzz fuel pf w = Ok (pf', w')
    /\ GetPosition pf' = (nan, nan)
    /\ GetHeading pf' = nan
    /\ length (listParticles pf') = Z.to_nat (numSamples pf)
    /\ forall l, l ∈ listParticles pf' -> heap w !! l = None.
Proof.
  intros Hlen Halloc Hint Hk.
  assert (Hex : exists pf' w', ResampleAndFuzz fuel pf w = Ok (pf', w')).
  { unfold ResampleAndFuzz.
    set (pf1 := set_iteration (F64.wrap64 (iteration pf + 1)) pf).
    change (numSamples pf1) with (numSamples pf).
    change (percentResample pf1) with (percentResample pf). rewrite Hk.
    destruct (normalize_loop_ok pf1 (Z.to_nat (numSamples pf)) w Hlen Halloc)
      as (w1 & Hnorm & _ & _).
    rewrite (bind_ok _ _ _ _ _ Hnorm). simpl forRange at 1.
    unfold bind at 1. unfold ret at 1.
    match goal with
    | |- context [forRange ?n 0%Z (fun _ ps => appendNew ?q ps) ?l0] =>
        destruct (refill_ok q n l0 w1) as (ps & w3 & Hfill & _)
    end.
    rewrite (bind_ok _ _ _ _ _ Hfill). eauto. }
  destruct Hex as (pf' & w' & Hrun). exists pf', w'. split; [exact Hrun|].
  destruct (ResampleAndFuzz_run fuel pf w pf' w' Hrun)
    as (sel & refill & -> & Hsel & Hrefill & _ & Hnew & _).
  rewrite Hk in Hsel, Hrefill |- *.
  destruct sel as [|l0 sel]; [|simpl in Hsel; lia].
  split; [reflexivity|]. split; [reflexivity|]. simpl.
  split.
  - rewrite Hrefill, Z.sub_0_r. f_equal. unfold F64.wrap64.
    rewrite Z.mod_small by lia. lia.
  - intros l Hl. apply (Hnew l Hl).
Qed.
End NoShare.

(** ** More on the weighting pass *)

Section MaxWeight.
Context {G : Type} {R : Type} `{Reading R}.
Import ParticleFilter.
Local Open Scope float_scope.

(** X10.  Whatever the reading returns, negative likelihoods and NaN
    included, [maxWeight] after [CalculateWeights] is a number that is
    not negative: the pass starts from 0 and [checkAndSetMaxWeight]
    replaces the maximum by a greater weight only. *)
Theorem CalculateWeights_maxWeight_not_negative (r : R) pf (w : World G) :
  Inv.allocated pf w ->
  exists pf' w',
    CalculateWeights r pf w = Ok (pf', w')
    /\ (0 <=? maxWeight pf') = true.
Proof.
  intros Halloc. unfold CalculateWeights.
  set (pf0 := set_sumWeight 0 (checkAndSetMaxWeight 0 true pf)).
  assert (Hls0 : listParticles pf0 = listParticles pf).
  { destruct (checkAndSetMaxWeight_same 0 true pf) as [Hs _]. apply Hs. }
  assert (Hmax0 : maxWeight pf0 = 0).
  { unfold pf0, checkAndSetMaxWeight.
    destruct (F64.gt 0 (maxWeight pf)); reflexivity. }
  destruct (forRange_total
    (fun (_ : nat) pf' (w' : World G) =>
       listParticles pf' = listParticles pf
       /\ dom (heap w') = dom (heap w)
       /\ (0 <=? maxWeight pf') = true)
    (length (listParticles pf0)) 0%Z (weigh r) pf0 w)
    as (pf' & w' & Hrun & _ & _ & Hmax).
  - split; [exact Hls0|]. split; [reflexivity|]. rewrite Hmax0. reflexivity.
  - intros k pf1 w1 Hk (Hls & Hdom & Hmax).
    rewrite Hls0 in Hk.
    destruct (lookup_lt_is_Some_2 (listParticles pf) k Hk) as [l Hl].
    assert (Hd : l ∈ dom (heap w1)).
    { rewrite Hdom. apply elem_of_dom, Halloc.
      eapply list_elem_of_lookup_2, Hl. }
    apply elem_of_dom in Hd as [p Hp]. rewrite <- Hls in Hl.
    rewrite Z.add_0_l. eexists _, _.
    split; [apply (weigh_ok r k pf1 w1 l p Hl Hp)|]. simpl.
    destruct (checkAndSetMaxWeight_same (CalculateWeight r p) false pf1)
      as [Hs _].
    split; [rewrite <- Hls; apply Hs|].
    split; [rewrite dom_insert_lookup_L by (eexists; exact Hp); exact Hdom|].
    change ((0 <=? maxWeight (checkAndSetMaxWeight (CalculateWeight r p)
                                false pf1)) = true).
    rewrite maxWeight_checkAndSetMaxWeight.
    destruct (F64.gt (CalculateWeight r p) (maxWeight pf1)) eqn:Hgt;
      [|exact Hmax].
    eapply leb_trans; [exact Hmax|]. apply ltb_leb, Hgt.
  - exists pf', w'. split; [exact Hrun|exact Hmax].
Qed.

Lemma weigh_inv (r : R) i pf (w : World G) pf' w' :
  weigh r i pf w = Ok (pf', w') ->
  exists l p,
    l ∈ listParticles pf /\ heap w !! l = Some p
    /\ w' = mkWorld (<[l := Particle.UpdateWeight (CalculateWeight r p) p]>
                       (heap w)) (src w)
    /\ listParticles pf' = listParticles pf.
Proof.
  unfold weigh. intros Hrun.
  apply bind_inv in Hrun as (l & wa & Hidx & Hrun).
  apply index_inv in Hidx as (-> & _ & Hl).
  apply bind_inv in Hrun as (p & wb & Hload & Hrun).
  apply load_inv in Hload as (-> & Hp).
  apply bind_inv in Hrun as ([] & wc & Hst & Hrun).
  apply store_inv in Hst as (-> & _).
  unfold ret in Hrun. injection Hrun as <- <-.
  exists l, p. split; [eapply list_elem_of_lookup_2, Hl|].
  split; [exact Hp|]. split; [reflexivity|]. simpl.
  destruct (checkAndSetMaxWeight_same (CalculateWeight r p) false pf)
    as [Hs _].
  apply Hs.
Qed.

(** The pass draws no random number and writes to no cell outside the
    population. *)
Lemma CalculateWeights_store (r : R) pf (w : World G) pf' w' :
  CalculateWeights r pf w = Ok (pf', w') ->
  src w' = src w
  /\ forall l, l ∉ listParticles pf -> heap w' !! l = heap w !! l.
Proof.
  unfold CalculateWeights. intros Hrun.
  set (pf0 := set_sumWeight 0 (checkAndSetMaxWeight 0 true pf)) in *.
  assert (Hls0 : listParticles pf0 = listParticles pf).
  { destruct (checkAndSetMaxWeight_same 0 true pf) as [Hs _]. apply Hs. }
  refine (proj2 (forRange_inv
    (fun (_ : nat) pf1 (wc : World G) =>
       listParticles pf1 = listParticles pf
       /\ src wc = src w
       /\ forall l, l ∉ listParticles pf -> heap wc !! l = heap w !! l)
    _ _ _ _ _ _ _ _ _ Hrun)).
  - split; [exact Hls0|]. split; reflexivity.
  - intros k pf1 wc pf2 wc' _ (Hls & Hsrc & Hout) Hbody.
    apply weigh_inv in Hbody as (l & p & Hl & Hp & -> & Hls2).
    split; [congruence|]. split; [exact Hsrc|].
    intros l0 Hl0. simpl.
    rewrite lookup_insert_ne; [apply Hout, Hl0|].
    intros <-. apply Hl0. rewrite <- Hls. exact Hl.
Qed.

End MaxWeight.

Section Idem.
Context {G : Type} {R : Type} `{Reading R}.
Import ParticleFilter.
Local Open Scope float_scope.
Lemma same_aggregates_eq pf pf' :
  Inv.same_but_aggregates pf pf' ->
  maxWeight pf' = maxWeight pf -> sumWeight pf' = sumWeight pf -> pf' = pf.
Proof.
  destruct pf, pf'. unfold Inv.same_but_aggregates. simpl.
  intros (-> & -> & -> & -> & -> & -> & -> & -> & -> & -> & -> & -> & -> & ->)
    -> ->.
  reflexivity.
Qed.

(** X11.  For a reading that looks at the pose of a particle only,
    [CalculateWeights] is idempotent: a second pass with the same
    reading leaves the filter and the store exactly as the first pass
    left them. *)
Theorem CalculateWeights_idempotent (r : R) pf (w : World G) pf1 w1 :
  Inv.allocated pf w -> NoDup (listParticles pf) -> Inv.pose_only r ->
  CalculateWeights r pf w = Ok (pf1, w1) ->
  CalculateWeights r pf1 w1 = Ok (pf1, w1).
Proof.
  intros Halloc Hnd Hpose Hrun.
  destruct (CalculateWeights_run r pf w Halloc Hnd)
    as (pf1' & w1' & Hrun' & Hcells & Hsum & Hmax & Hsame & Hdom).
  rewrite Hrun in Hrun'. injection Hrun' as <- <-.
  assert (Hls : listParticles pf1 = listParticles pf) by apply Hsame.
  assert (Halloc1 : Inv.allocated pf1 w1).
  { intros l Hl. rewrite Hls in Hl. apply elem_of_dom. rewrite Hdom.
    apply elem_of_dom, Halloc, Hl. }
  assert (Hnd1 : NoDup (listParticles pf1)) by (rewrite Hls; exact Hnd).
  destruct (CalculateWeights_run r pf1 w1 Halloc1 Hnd1)
    as (pf2 & w2 & Hrun2 & Hcells2 & Hsum2 & Hmax2 & Hsame2 & Hdom2).
  rewrite Hrun2. f_equal.
  assert (Hlik : Inv.likelihoods r (listParticles pf1) w1
                 = Inv.likelihoods r (listParticles pf) w).
  { rewrite Hls. unfold Inv.likelihoods. apply list_fmap_ext.
    intros i l Hl. apply list_elem_of_lookup_2 in Hl.
    destruct (Halloc l Hl) as [p Hp].
    rewrite Hp, (Hcells l p Hl Hp). apply Hpose.
    unfold Inv.same_pose. simpl. tauto. }
  rewrite Hlik, <- Hsum in Hsum2. rewrite Hlik, <- Hmax in Hmax2.
  destruct (CalculateWeights_store r pf1 w1 pf2 w2 Hrun2) as [Hsrc Hout].
  f_equal.
  - apply same_aggregates_eq; [exact Hsame2| |]; congruence.
  - destruct w1 as [h1 g1], w2 as [h2 g2]. simpl in *. f_equal; [|exact Hsrc].
    apply map_eq. intros l.
    destruct (decide (l ∈ listParticles pf1)) as [Hin|Hnot];
      [|apply Hout, Hnot].
    destruct (Halloc1 l Hin) as [p1 Hp1]. simpl in Hp1.
    rewrite (Hcells2 l p1 Hin Hp1), Hp1. f_equal.
    rewrite Hls in Hin. destruct (Halloc l Hin) as [p Hp].
    pose proof (Hcells l p Hin Hp) as Hp1'. simpl in Hp1'.
    assert (p1 = Particle.UpdateWeight (CalculateWeight r p) p) by congruence.
    subst p1. unfold Particle.UpdateWeight at 1. simpl.
    unfold Particle.UpdateWeight. f_equal. apply Hpose.
    unfold Inv.same_pose. simpl. tauto.
Qed.
End Idem.

(** ** More on the motion update, the construction and the kernel *)

Section MoveFacts.
Context `{MathLib} {G : Type} `{!RandSource G}.
Import ParticleFilter.
Local Open Scope float_scope.

(** X8.  [Move] over a population of allocated particles returns, and
    changes nothing of the filter but the three estimates: the
    population is the same pointers, no cell is added to the store,
    every particle keeps its weight and a cell outside the population
    is untouched. *)
Theorem Move_frame dist ang pf (w : World G) :
  (Z.to_nat (numSamples pf) <= length (listParticles pf))%nat ->
  Inv.allocated pf w ->
  exists pf' w',
    Move dist ang pf w = Ok (pf', w')
    /\ pf' = set_Estimated (EstimatedX pf') (EstimatedY pf')
               (EstimatedHeading pf') pf
    /\ dom (heap w') = dom (heap w)
    /\ forall l p, heap w !! l = Some p ->
         exists p', heap w' !! l = Some p'
                    /\ Particle.Weight p' = Particle.Weight p
                    /\ (l ∉ listParticles pf -> p' = p).
Proof.
  intros Hlen Halloc. unfold Move.
  destruct (forRange_total
    (fun (_ : nat) (_ : Sums) (w' : World G) =>
       dom (heap w') = dom (heap w)
       /\ forall l p, heap w !! l = Some p ->
            exists p', heap w' !! l = Some p'
                       /\ Particle.Weight p' = Particle.Weight p
                       /\ (l ∉ listParticles pf -> p' = p))
    (Z.to_nat (numSamples pf)) 0%Z (moveOne dist ang pf)
    {| sumHeading := 0; sumX := 0; sumY := 0 |} w)
    as (sums & w' & Hrun & Hdom & Hcells).
  - split; [reflexivity|]. intros l p Hp. exists p. tauto.
  - intros k sums w1 Hk (Hdom & Hcells).
    destruct (lookup_lt_is_Some_2 (listParticles pf) k ltac:(lia)) as [l Hl].
    assert (Hd : l ∈ dom (heap w1)).
    { rewrite Hdom. apply elem_of_dom, Halloc.
      eapply list_elem_of_lookup_2, Hl. }
    apply elem_of_dom in Hd as [p1 Hp1].
    destruct (moveOne_ok dist ang pf k sums w1 l p1 Hl Hp1)
      as (p2 & g & s' & Hone & Hw).
    rewrite Z.add_0_l. eexists _, _. split; [exact Hone|]. simpl. split.
    + rewrite dom_insert_lookup_L by (eexists; exact Hp1). exact Hdom.
    + intros l0 p0 Hp0. destruct (Hcells l0 p0 Hp0) as (p' & Hp' & Hw' & Hout).
      destruct (decide (l = l0)) as [<-|Hne].
      * rewrite lookup_insert_eq. exists p2. split; [reflexivity|].
        assert (p' = p1) by congruence. subst p'.
        split; [congruence|].
        intros Hnot. exfalso. apply Hnot. eapply list_elem_of_lookup_2, Hl.
      * rewrite lookup_insert_ne by exact Hne. eauto.
  - eexists _, _. rewrite (bind_ok _ _ _ _ _ Hrun).
    split; [reflexivity|]. simpl. split; [reflexivity|].
    split; [exact Hdom|exact Hcells].
Qed.

(** X9.  When the whole population is resampled ([percentResample] is
    1), the estimates that [GetPosition] and [GetHeading] return after
    [Move] are the means of X, Y and the heading over the population as
    it is after the move. *)
Theorem Move_estimate_is_mean_of_whole_population dist ang pf (w : World G) :
  Inv.populated pf w -> (0 <= numSamples pf)%Z -> percentResample pf = 1 ->
  exists pf' w',
    Move dist ang pf w = Ok (pf', w')
    /\ GetPosition pf'
       = (Spec.mean (Inv.column Particle.X (listParticles pf') w'),
          Spec.mean (Inv.column Particle.Y (listParticles pf') w'))
    /\ GetHeading pf'
       = Spec.mean (Inv.column Particle.Heading (listParticles pf') w').
Proof.
  intros Hpop Hn Hall.
  destruct (Move_estimates dist ang pf w Hpop)
    as (pf' & w' & Hrun & Hls & Hx & Hy & Hh).
  destruct Hpop as (Hlen & _ & _).
  exists pf', w'. split; [exact Hrun|].
  unfold GetPosition, GetHeading, Spec.mean, Inv.column.
  rewrite !length_fmap, Hls, Hlen, Z2Nat.id by exact Hn.
  rewrite Hx, Hy, Hh, Hall, mul_1_r. split; reflexivity.
Qed.
End MoveFacts.

Section InitialState.
Context {G : Type} `{!RandSource G}.
Import ParticleFilter.
Local Open Scope float_scope.

(** X12.  The filter that [CreatePF] returns is at iteration 0, with
    [maxWeight] 0, the position estimate (0, 0), the heading estimate 0
    and noise distributions of mean 0; its particles are distinct new
    cells of weight 0, and the cells the store had are untouched. *)
Theorem CreatePF_initial_state (numSamps : Z)
    (percResamp xMin' xMax' yMin' yMax' locError distError angError : float)
    (w : World G) :
  exists pf w',
    CreatePF numSamps percResamp xMin' xMax' yMin' yMax'
             locError distError angError w = Ok (pf, w')
    /\ iteration pf = 0%Z
    /\ maxWeight pf = 0
    /\ GetPosition pf = (0, 0)
    /\ GetHeading pf = 0
    /\ Mu (locDistribution pf) = 0
    /\ Mu (angDistribution pf) = 0
    /\ Mu (distDistribution pf) = 0
    /\ NoDup (listParticles pf)
    /\ (forall l, l ∈ listParticles pf ->
          heap w !! l = None
          /\ exists p, heap w' !! l = Some p /\ Particle.Weight p = 0)
    /\ heap w ⊆ heap w'.
Proof.
  unfold CreatePF, createSampleList.
  match goal with
  | |- context [forRange ?n 0%Z ?body ?s0 w] =>
      destruct (forRange_total
        (fun (_ : nat) pf' (wc : World G) =>
           pf' = set_listParticles (listParticles pf') s0
           /\ heap w ⊆ heap wc
           /\ NoDup (listParticles pf')
           /\ forall l, l ∈ listParticles pf' ->
                heap w !! l = None
                /\ exists p, heap wc !! l = Some p
                             /\ Particle.Weight p = 0)
        n 0%Z body s0 w) as (pf & w' & Hrun & Heq & Hsub & Hnd & Hcells)
  end.
  - simpl. split; [reflexivity|]. split; [reflexivity|].
    split; [constructor|]. intros l Hl. inversion Hl.
  - intros k pf1 wc _ (Heq & Hsub & Hnd & Hcells).
    destruct (appendNew_ok pf1 (listParticles pf1) wc)
      as (l & p & g & Happ & Hfresh & Hw).
    eexists _, _. rewrite (bind_ok _ _ _ _ _ Happ). split; [reflexivity|].
    simpl.
    assert (Hsub' : heap wc ⊆ <[l := p]> (heap wc))
      by (apply insert_subseteq, Hfresh).
    assert (Hnot : l ∉ listParticles pf1).
    { intros Hin. destruct (Hcells l Hin) as (_ & q & Hq & _). congruence. }
    split; [rewrite Heq at 2; reflexivity|].
    split; [etransitivity; eassumption|].
    split.
    { apply NoDup_app. split; [exact Hnd|]. split; [|apply NoDup_singleton].
      intros l0 Hl0 Hl0'. apply list_elem_of_singleton in Hl0'. subst l0.
      contradiction. }
    intros l0 Hl0. apply elem_of_app in Hl0 as [Hl0|Hl0].
    + destruct (Hcells l0 Hl0) as (Hnew & q & Hq & Hw0).
      split; [exact Hnew|]. exists q.
      split; [eapply lookup_weaken; eassumption|exact Hw0].
    + apply list_elem_of_singleton in Hl0. subst l0.
      split; [eapply lookup_weaken_None; eassumption|].
      exists p. rewrite lookup_insert_eq. split; [reflexivity|exact Hw].
  - exists pf, w'. split; [exact Hrun|]. rewrite Heq. simpl.
    do 7 (split; [reflexivity|]).
    split; [exact Hnd|]. split; [exact Hcells|exact Hsub].
Qed.
End InitialState.

Section Wrap.
Local Open Scope float_scope.

(** X13.  The wrap of the heading in [Particle.Move] and in
    [ResampleAndFuzz] is idempotent on what one move can produce: for a
    sum between [-2π] and [4π], wrapping the wrapped heading again
    changes nothing. *)
Theorem wrapHeading_idempotent s :
  (- F64.TwoPi <=? s) = true -> (s <=? 2 * F64.TwoPi) = true ->
  Particle.wrapHeading (Particle.wrapHeading s) = Particle.wrapHeading s.
Proof.
  intros Hlo Hhi.
  pose proof (wrapHeading_in_closed_circle s Hlo Hhi) as Hc.
  unfold Spec.in_closed_circle in Hc. apply andb_true_iff in Hc as [H0 H1].
  set (h := Particle.wrapHeading s) in *.
  unfold Particle.wrapHeading at 1. unfold F64.gt.
  rewrite (leb_not_ltb _ _ H0), (leb_not_ltb _ _ H1). reflexivity.
Qed.
End Wrap.

Section KernelEdges.
Context `{MathLib}.
Local Open Scope float_scope.

Lemma div_by_zero d :
  d / 0 = nan \/ d / 0 = infinity \/ d / 0 = neg_infinity.
Proof.
  destruct (Prim2SF d) as [s|s| |s m e] eqn:E.
  - left. apply Prim2SF_inj. rewrite div_spec, E. reflexivity.
  - right. destruct s; [right|left]; apply Prim2SF_inj;
      rewrite div_spec, E; reflexivity.
  - left. apply Prim2SF_inj. rewrite div_spec, E. reflexivity.
  - right. destruct s; [right|left]; apply Prim2SF_inj;
      rewrite div_spec, E; reflexivity.
Qed.

Lemma mul_nan_r x : x * nan = nan.
Proof.
  apply Prim2SF_inj. rewrite mul_spec.
  change (Prim2SF nan) with S754_nan. destruct (Prim2SF x); reflexivity.
Qed.

(** X14.  With [sigma = 0] the kernel is NaN at every [x] and [mu]:
    the residual divided by 0 is NaN or an infinity, and the peak
    [1 / (0 * Sqrt(2π))] is an infinity that meets a factor 0.  The
    values of [Pow] assumed are special cases that [math.Pow]
    documents. *)
Theorem CalculateNormDist_zero_sigma x mu :
  Pow nan 2 = nan -> Pow F64.E nan = nan ->
  Pow infinity 2 = infinity -> Pow neg_infinity 2 = infinity ->
  Pow F64.E neg_infinity = 0 ->
  CalculateNormDist x mu 0 = nan.
Proof.
  intros Hn2 Hen Hi2 Hni2 Hei. unfold CalculateNormDist.
  destruct (div_by_zero (x - mu)) as [->|[->| ->]].
  - rewrite Hn2, mul_nan_r, Hen. apply mul_nan_r.
  - rewrite Hi2. change (-0.5 * infinity) with neg_infinity.
    rewrite Hei. reflexivity.
  - rewrite Hni2. change (-0.5 * infinity) with neg_infinity.
    rewrite Hei. reflexivity.
Qed.

(** X15.  The reading of the example program gives a particle that is
    exactly at the measured position the peak of the kernel for
    sigma [.1], [1 / (.1 * Sqrt(2π))], whatever its heading and its
    weight. *)
Theorem SimpleReading_peak_at_the_fix (s : SimpleReading.t) p :
  Pow 0 2 = 0 -> Pow F64.E neg_zero = 1 ->
  F64.finite (SimpleReading.X s) = true ->
  F64.finite (SimpleReading.Y s) = true ->
  Particle.X p = SimpleReading.X s -> Particle.Y p = SimpleReading.Y s ->
  SimpleReading.CalculateWeight s p
  = 1 / (0x1.999999999999ap-4 * sqrt F64.TwoPi).
Proof.
  intros Hp0 Hp1 Hx Hy Ex Ey. unfold SimpleReading.CalculateWeight.
  rewrite Ex, Ey, (sub_diag _ Hx), (sub_diag _ Hy), Hp0.
  change (sqrt (0 + 0)) with 0.
  apply CalculateNormDist_at_mean; [exact Hp0|exact Hp1|reflexivity..].
Qed.
End KernelEdges.

(** ** The statements of this part at concrete filters *)

Section ResampledRun.
Import ParticleFilter.
Local Open Scope float_scope.

Lemma ResampleAndFuzz_frame_witness :
  iteration Runs.resampled_filter
  = F64.wrap64 (iteration Runs.weighted_filter + 1)
  /\ numSamples Runs.resampled_filter = numSamples Runs.weighted_filter
  /\ percentResample Runs.resampled_filter
     = percentResample Runs.weighted_filter
  /\ xMin Runs.resampled_filter = xMin Runs.weighted_filter
  /\ xMax Runs.resampled_filter = xMax Runs.weighted_filter
  /\ yMin Runs.resampled_filter = yMin Runs.weighted_filter
  /\ yMax Runs.resampled_filter = yMax Runs.weighted_filter
  /\ maxWeight Runs.resampled_filter = maxWeight Runs.weighted_filter
  /\ sumWeight Runs.resampled_filter = sumWeight Runs.weighted_filter
  /\ locDistribution Runs.resampled_filter
     = locDistribution Runs.weighted_filter
  /\ angDistribution Runs.resampled_filter
     = angDistribution Runs.weighted_filter
  /\ distDistribution Runs.resampled_filter
     = distDistribution Runs.weighted_filter
  /\ forall l p, heap Runs.weighted_world !! l = Some p ->
       exists p', heap Runs.resampled_world !! l = Some p'
                  /\ Inv.same_pose p p'
                  /\ (l ∉ listParticles Runs.weighted_filter -> p' = p).
Proof.
  apply (ResampleAndFuzz_frame 5 Runs.weighted_filter Runs.weighted_world).
  vm_compute. reflexivity.
Defined.

Lemma ResampleAndFuzz_population_is_new_witness :
  NoDup (listParticles Runs.resampled_filter)
  /\ forall l, l ∈ listParticles Runs.resampled_filter ->
       heap Runs.weighted_world !! l = None
       /\ exists q, heap Runs.resampled_world !! l = Some q
                    /\ Particle.Weight q = 0.
Proof.
  apply (ResampleAndFuzz_population_is_new 5
           Runs.weighted_filter Runs.weighted_world).
  vm_compute. reflexivity.
Defined.

Lemma ResampleAndFuzz_selects_positive_weights_witness :
  exists sel refill,
    listParticles Runs.resampled_filter = sel ++ refill
    /\ (length sel <= 2)%nat
    /\ length refill = 0%nat
    /\ forall l, l ∈ sel ->
         exists q, heap Runs.resampled_world !! l = Some q
                   /\ Inv.selected Runs.weighted_filter
                        Runs.resampled_world q.
Proof.
  apply (ResampleAndFuzz_selects_positive_weights 5
           Runs.weighted_filter Runs.weighted_world).
  vm_compute. reflexivity.
Defined.

Lemma ResampleAndFuzz_estimates_witness :
  exists sel refill,
    listParticles Runs.resampled_filter = sel ++ refill
    /\ length refill = 0%nat
    /\ GetPosition Runs.resampled_filter
       = (Spec.sum (Inv.column Particle.X sel Runs.resampled_world)
          / F64.of_int 2,
          Spec.sum (Inv.column Particle.Y sel Runs.resampled_world)
          / F64.of_int 2)
    /\ GetHeading Runs.resampled_filter
       = Spec.sum (Inv.column Particle.Heading sel Runs.resampled_world)
         / F64.of_int 2
    /\ (Z.of_nat (length sel) = 2%Z ->
        GetPosition Runs.resampled_filter
        = (Spec.mean (Inv.column Particle.X sel Runs.resampled_world),
           Spec.mean (Inv.column Particle.Y sel Runs.resampled_world))
        /\ GetHeading Runs.resampled_filter
           = Spec.mean
               (Inv.column Particle.Heading sel Runs.resampled_world)).
Proof.
  apply (ResampleAndFuzz_estimates 5
           Runs.weighted_filter Runs.weighted_world).
  vm_compute. reflexivity.
Defined.

Lemma ResampleAndFuzz_normalizes_old_weights_witness :
  Inv.populated Runs.weighted_filter Runs.weighted_world
  /\ forall l p, l ∈ listParticles Runs.weighted_filter ->
       heap Runs.weighted_world !! l = Some p ->
       heap Runs.resampled_world !! l
       = Some (Particle.UpdateWeight
                 (Particle.Weight p / sumWeight Runs.weighted_filter) p).
Proof.
  assert (Hpop : Inv.populated Runs.weighted_filter Runs.weighted_world).
  { split; [reflexivity|]. split; [half_distinct|half_allocated]. }
  split; [exact Hpop|].
  apply (ResampleAndFuzz_normalizes_old_weights 5
           Runs.weighted_filter Runs.weighted_world
           Runs.resampled_filter Runs.resampled_world Hpop).
  vm_compute. reflexivity.
Defined.

Lemma ResampleAndFuzz_at_most_witness :
  (0 <= length (listParticles Runs.resampled_filter) <= 2)%nat.
Proof.
  apply (ResampleAndFuzz_at_most 5 Runs.weighted_filter Runs.weighted_world
           Runs.resampled_filter Runs.resampled_world).
  - vm_compute. split; discriminate.
  - reflexivity.
  - vm_compute. reflexivity.
Defined.

Lemma ResampleAndFuzz_does_not_panic_witness :
  ResampleAndFuzz 0 Runs.half_filter Runs.half_world
  <> Panic "index out of range".
Proof.
  apply (ResampleAndFuzz_does_not_panic 0 Runs.half_filter Runs.half_world).
  - split; [reflexivity|]. split; [half_distinct|half_allocated].
  - vm_compute. split; discriminate.
  - reflexivity.
Defined.

Lemma Move_panics_on_short_population_witness :
  Move (H:=TableMath.math) 1 0
    (set_listParticles [0%nat] Runs.half_filter) Runs.half_world
  = Panic "index out of range".
Proof.
  apply (Move_panics_on_short_population (H:=TableMath.math)).
  - vm_compute. lia.
  - half_allocated.
Defined.

Lemma ResampleAndFuzz_panics_on_short_population_witness :
  ResampleAndFuzz 0 (set_listParticles [0%nat] Runs.half_filter)
    Runs.half_world
  = Panic "index out of range".
Proof.
  apply ResampleAndFuzz_panics_on_short_population.
  - vm_compute. lia.
  - half_allocated.
Defined.

Lemma Update_with_nan_likelihood_witness :
  exists pf' w',
    Update 1 (ConstReading.mk nan) Runs.half_filter Runs.half_world
    = Ok (pf', w')
    /\ F64.ordered (sumWeight pf') = false
    /\ GetPosition pf' = (0 / F64.of_int 1, 0 / F64.of_int 1)
    /\ GetHeading pf' = 0 / F64.of_int 1
    /\ length (listParticles pf') = 1%nat.
Proof.
  apply (Update_with_nan_likelihood 0 (ConstReading.mk nan)
           Runs.half_filter Runs.half_world).
  - split; [reflexivity|]. split; [half_distinct|half_allocated].
  - exists nan. split; [|reflexivity]. vm_compute. left.
  - vm_compute. split; discriminate.
  - reflexivity.
Defined.
End ResampledRun.

Section MoreRuns.
Import ParticleFilter.
Local Open Scope float_scope.

Lemma ResampleAndFuzz_without_resampled_share_witness :
  exists pf' w',
    ResampleAndFuzz 0
      (mk 2 0 [0%nat; 1%nat] 0 10 0 10 0 0 0 1 2 0
         (mkNormal 0 0.125) (mkNormal 0 0.125) (mkNormal 0 0.125))
      Runs.half_world = Ok (pf', w')
    /\ GetPosition pf' = (nan, nan)
    /\ GetHeading pf' = nan
    /\ length (listParticles pf') = 2%nat
    /\ forall l, l ∈ listParticles pf' -> heap Runs.half_world !! l = None.
Proof.
  apply (ResampleAndFuzz_without_resampled_share 0
           (mk 2 0 [0%nat; 1%nat] 0 10 0 10 0 0 0 1 2 0
              (mkNormal 0 0.125) (mkNormal 0 0.125) (mkNormal 0 0.125))
           Runs.half_world).
  - vm_compute. lia.
  - half_allocated.
  - vm_compute. split; [discriminate|reflexivity].
  - vm_compute. reflexivity.
Defined.

Lemma CalculateWeights_maxWeight_not_negative_witness :
  exists pf' w',
    CalculateWeights (ConstReading.mk (-1)) Runs.half_filter Runs.half_world
    = Ok (pf', w')
    /\ (0 <=? maxWeight pf') = true.
Proof.
  apply (CalculateWeights_maxWeight_not_negative (ConstReading.mk (-1))
           Runs.half_filter Runs.half_world).
  half_allocated.
Defined.

Lemma CalculateWeights_idempotent_witness :
  CalculateWeights (ConstReading.mk 1)
    (set_sumWeight 2 (set_maxWeight 1 Runs.half_filter))
    (mkWorld (<[0%nat := Particle.mk 1 2 0 1]>
                (<[1%nat := Particle.mk 3 4 0 1]> ∅)) Tape.zeros)
  = Ok (set_sumWeight 2 (set_maxWeight 1 Runs.half_filter),
        mkWorld (<[0%nat := Particle.mk 1 2 0 1]>
                   (<[1%nat := Particle.mk 3 4 0 1]> ∅)) Tape.zeros).
Proof.
  apply (CalculateWeights_idempotent (ConstReading.mk 1)
           Runs.half_filter Runs.half_world).
  - half_allocated.
  - half_distinct.
  - intros p p' _. reflexivity.
  - vm_compute. reflexivity.
Defined.

Lemma Move_frame_witness :
  exists pf' w',
    Move (H:=TableMath.math) 1 0 Runs.half_filter Runs.half_world
    = Ok (pf', w')
    /\ pf' = set_Estimated (EstimatedX pf') (EstimatedY pf')
               (EstimatedHeading pf') Runs.half_filter
    /\ dom (heap w') = dom (heap Runs.half_world)
    /\ forall l p, heap Runs.half_world !! l = Some p ->
         exists p', heap w' !! l = Some p'
                    /\ Particle.Weight p' = Particle.Weight p
                    /\ (l ∉ listParticles Runs.half_filter -> p' = p).
Proof.
  apply (Move_frame (H:=TableMath.math) 1 0 Runs.half_filter Runs.half_world).
  - vm_compute. lia.
  - half_allocated.
Defined.

Lemma Move_estimate_is_mean_of_whole_population_witness :
  exists pf' w',
    Move (H:=TableMath.math) 1 0 Runs.weighted_filter Runs.weighted_world
    = Ok (pf', w')
    /\ GetPosition pf'
       = (Spec.mean (Inv.column Particle.X (listParticles pf') w'),
          Spec.mean (Inv.column Particle.Y (listParticles pf') w'))
    /\ GetHeading pf'
       = Spec.mean (Inv.column Particle.Heading (listParticles pf') w').
Proof.
  apply (Move_estimate_is_mean_of_whole_population (H:=TableMath.math) 1 0
           Runs.weighted_filter Runs.weighted_world).
  - split; [reflexivity|]. split; [half_distinct|half_allocated].
  - vm_compute. discriminate.
  - reflexivity.
Defined.

Lemma wrapHeading_idempotent_witness :
  Particle.wrapHeading (Particle.wrapHeading 7) = Particle.wrapHeading 7.
Proof. apply wrapHeading_idempotent; reflexivity. Defined.

Lemma CalculateNormDist_zero_sigma_witness :
  CalculateNormDist (H:=TableMath.math) 1 2 0 = nan.
Proof.
  apply (CalculateNormDist_zero_sigma (H:=TableMath.math)); reflexivity.
Defined.

Lemma SimpleReading_peak_at_the_fix_witness :
  SimpleReading.CalculateWeight (H:=TableMath.math)
    (SimpleReading.mk 1 2) (Particle.mk 1 2 0 0)
  = 1 / (0x1.999999999999ap-4 * sqrt F64.TwoPi).
Proof.
  apply (SimpleReading_peak_at_the_fix (H:=TableMath.math)); reflexivity.
Defined.
End MoreRuns.
